(** * geomusic: the audio synthesis engine and its interaction mapper

    A shallow embedding of [js/audio.js], [js/scene.js], [interaction.js] and
    the event wiring of [js/main.js].

    Conventions of the embedding:
    - a JavaScript number is a real number ([R]): arithmetic is exact, so
      rounding, infinities and NaN are outside the model; [Math.max],
      [Math.min], [Math.abs], [Math.pow] and [Math.PI] are [Rmax], [Rmin],
      [Rabs], [Rpower] and [PI]. Only the module [JS] has [NaN] and the
      infinities: it embeds the clamping setters on such numbers;
    - the Web Audio objects of one [AudioContext] live in a store indexed by
      allocation number, and the fields of the synthesizer hold indices into
      it, so that two references to one node stay aliases;
    - a call that may raise returns a [Completion]: either the new state or
      the exception; dereferencing an [undefined] field is a [TypeError];
    - the browser ([window]) is explicit state: how many audio contexts were
      constructed, and which [Math.random] draw comes next. *)

From Stdlib Require Import Reals Lra Lia ZArith Strings.Byte Strings.String Sorted.
From stdpp Require Import base option list relations.

Open Scope R_scope.

(** ** Completions: normal return or exception *)

Inductive JSError := TypeError | InvalidStateError.

Inductive Completion (A : Type) : Type :=
| Normal (a : A)
| Throw (e : JSError).
Arguments Normal {A} a.
Arguments Throw {A} e.

#[global] Instance Completion_ret : MRet Completion := fun _ a => Normal a.
#[global] Instance Completion_bind : MBind Completion := fun _ _ f c =>
  match c with
  | Normal a => f a
  | Throw e => Throw e
  end.

Definition returns {A} (c : Completion A) : Prop := exists a, c = Normal a.

(** [Math.max(lo, Math.min(hi, x))], the clamp every setter applies. *)
Definition clamp (lo hi x : R) : R := Rmax lo (Rmin hi x).

(** ** The Web Audio platform *)
Module WebAudio.

Inductive Waveform := sine | square | sawtooth | triangle.

(** An [AudioParam]: its [value] as last assigned, and the automation
    events scheduled on it, oldest first, each a linear ramp
    [(target, endTime)]. *)
Record AudioParam := {
  value : R;
  ramps : list (R * R)
}.

Definition param (v : R) : AudioParam := {| value := v; ramps := [] |}.

Definition linearRampToValueAtTime (target endTime : R) (p : AudioParam)
  : AudioParam :=
  {| value := value p; ramps := ramps p ++ [(target, endTime)] |}.

Record AudioBuffer := {
  bufferSampleRate : nat;
  channels : list (list R)
}.

Inductive AudioNode :=
| Destination
| Oscillator (type : Waveform) (frequency : AudioParam) (started stopped : bool)
| Gain (gain : AudioParam)
| BiquadFilter (frequency Q : AudioParam)
| Delay (delayTime : AudioParam)
| Convolver (buffer : option AudioBuffer)
| Analyser (fftSize : nat).

Abbreviation NodeId := nat.

(** One audio context: its clock, every node created in it (a node's
    identity is its position) and the connections between them. *)
Record AudioContext := {
  sampleRate : nat;
  currentTime : R;
  nodes : list AudioNode;
  connections : list (NodeId * NodeId)
}.

(** [ctx.destination] is the node the context is born with. *)
Definition destination : NodeId := 0%nat.

Definition create (n : AudioNode) (ctx : AudioContext)
  : AudioContext * NodeId :=
  ({| sampleRate := sampleRate ctx; currentTime := currentTime ctx;
      nodes := nodes ctx ++ [n]; connections := connections ctx |},
   length (nodes ctx)).

Definition setNode (id : NodeId) (n : AudioNode) (ctx : AudioContext)
  : AudioContext :=
  {| sampleRate := sampleRate ctx; currentTime := currentTime ctx;
     nodes := <[id := n]> (nodes ctx); connections := connections ctx |}.

Definition edge_eqb (e1 e2 : NodeId * NodeId) : bool :=
  Nat.eqb (fst e1) (fst e2) && Nat.eqb (snd e1) (snd e2).

(** [src.connect(dst)]: connecting a pair that is already connected
    changes nothing. *)
Definition connect (src dst : NodeId) (ctx : AudioContext) : AudioContext :=
  {| sampleRate := sampleRate ctx; currentTime := currentTime ctx;
     nodes := nodes ctx;
     connections :=
       if existsb (edge_eqb (src, dst)) (connections ctx)
       then connections ctx
       else connections ctx ++ [(src, dst)] |}.

(** [src.disconnect()]: drops every outgoing connection of [src]. *)
Definition disconnect (src : NodeId) (ctx : AudioContext) : AudioContext :=
  {| sampleRate := sampleRate ctx; currentTime := currentTime ctx;
     nodes := nodes ctx;
     connections :=
       List.filter (fun e => negb (Nat.eqb (fst e) src)) (connections ctx) |}.

(** The browser state the engine touches. *)
Record Window := {
  contextsConstructed : nat;
  hardwareSampleRate : nat;
  random : nat -> R;
  randomsDrawn : nat
}.

(** [new AudioContext()] *)
Definition newAudioContext (w : Window) : Window * AudioContext :=
  ({| contextsConstructed := S (contextsConstructed w);
      hardwareSampleRate := hardwareSampleRate w;
      random := random w; randomsDrawn := randomsDrawn w |},
   {| sampleRate := hardwareSampleRate w; currentTime := 0;
      nodes := [Destination]; connections := [] |}).

(** [count] calls of [Math.random()] were made. *)
Definition drawn (count : nat) (w : Window) : Window :=
  {| contextsConstructed := contextsConstructed w;
     hardwareSampleRate := hardwareSampleRate w;
     random := random w; randomsDrawn := (randomsDrawn w + count)%nat |}.

(** Member access on a node reference; [undefined.x] raises. *)
Definition deref (r : option NodeId) (ctx : AudioContext)
  : Completion (NodeId * AudioNode) :=
  match r with
  | Some id =>
      match nodes ctx !! id with
      | Some n => Normal (id, n)
      | None => Throw TypeError
      end
  | None => Throw TypeError
  end.

(** [node.frequency.linearRampToValueAtTime(v, t)] *)
Definition rampFrequency (v t : R) (n : AudioNode) : Completion AudioNode :=
  match n with
  | Oscillator ty f st sp =>
      Normal (Oscillator ty (linearRampToValueAtTime v t f) st sp)
  | BiquadFilter f q => Normal (BiquadFilter (linearRampToValueAtTime v t f) q)
  | _ => Throw TypeError
  end.

(** [node.Q.linearRampToValueAtTime(v, t)] *)
Definition rampQ (v t : R) (n : AudioNode) : Completion AudioNode :=
  match n with
  | BiquadFilter f q => Normal (BiquadFilter f (linearRampToValueAtTime v t q))
  | _ => Throw TypeError
  end.

(** [node.gain.linearRampToValueAtTime(v, t)] *)
Definition rampGain (v t : R) (n : AudioNode) : Completion AudioNode :=
  match n with
  | Gain g => Normal (Gain (linearRampToValueAtTime v t g))
  | _ => Throw TypeError
  end.

(** [node.delayTime.linearRampToValueAtTime(v, t)] *)
Definition rampDelayTime (v t : R) (n : AudioNode) : Completion AudioNode :=
  match n with
  | Delay d => Normal (Delay (linearRampToValueAtTime v t d))
  | _ => Throw TypeError
  end.

(** [osc.start()]: a second call raises. *)
Definition startNode (n : AudioNode) : Completion AudioNode :=
  match n with
  | Oscillator ty f false sp => Normal (Oscillator ty f true sp)
  | Oscillator _ _ true _ => Throw InvalidStateError
  | _ => Throw TypeError
  end.

(** [osc.stop()]: raises unless [start()] was called. *)
Definition stopNode (n : AudioNode) : Completion AudioNode :=
  match n with
  | Oscillator ty f true _ => Normal (Oscillator ty f true true)
  | Oscillator _ _ false _ => Throw InvalidStateError
  | _ => Throw TypeError
  end.

(** [analyser.getByteFrequencyData(array)]: the analyser overwrites the
    front of [array] with its spectrum; an array longer than the spectrum
    keeps its tail, a shorter one drops the rest of the spectrum. *)
Definition getByteFrequencyData (spectrum array : list byte) : list byte :=
  take (length array) spectrum ++ drop (length spectrum) array.

End WebAudio.


(** ** audio.js: the synthesis engine *)
Module Audio.
Import WebAudio.

(** The fields of an [AudioSynthesizer] object. A field that the constructor
    leaves unassigned is [undefined] until [init] runs: [None]. *)
Record AudioSynthesizer := {
  isPlaying : bool;
  initialized : bool;
  baseFrequency : R;
  currentFrequency : R;
  filterFrequency : R;
  filterQ : R;
  reverbMix : R;
  delayTime : R;
  waveform : Waveform;
  audioContext : option AudioContext;
  oscillator : option NodeId;
  gainNode : option NodeId;
  filter : option NodeId;
  delayNode : option NodeId;
  delayFeedback : option NodeId;
  delayMix : option NodeId;
  reverb : option NodeId;
  reverbMixNode : option NodeId;
  dryGain : option NodeId;
  analyser : option NodeId;
  analyserData : option (list byte);
  masterGain : option NodeId
}.

Definition constructor : AudioSynthesizer :=
  {| isPlaying := false; initialized := false;
     baseFrequency := 440; currentFrequency := 440;
     filterFrequency := 1000; filterQ := 5;
     reverbMix := 0.3; delayTime := 0.2;
     waveform := sine;
     audioContext := None; oscillator := None; gainNode := None;
     filter := None; delayNode := None; delayFeedback := None;
     delayMix := None; reverb := None; reverbMixNode := None;
     dryGain := None; analyser := None; analyserData := None;
     masterGain := None |}.

(** Assignments [this.f = v], one per field that is assigned after
    construction. *)
Definition set_isPlaying (v : bool) (a : AudioSynthesizer)
  : AudioSynthesizer :=
  {| isPlaying := v; initialized := initialized a;
     baseFrequency := baseFrequency a;
     currentFrequency := currentFrequency a;
     filterFrequency := filterFrequency a; filterQ := filterQ a;
     reverbMix := reverbMix a; delayTime := delayTime a;
     waveform := waveform a; audioContext := audioContext a;
     oscillator := oscillator a; gainNode := gainNode a;
     filter := filter a; delayNode := delayNode a;
     delayFeedback := delayFeedback a; delayMix := delayMix a;
     reverb := reverb a; reverbMixNode := reverbMixNode a;
     dryGain := dryGain a; analyser := analyser a;
     analyserData := analyserData a; masterGain := masterGain a |}.

Definition set_currentFrequency (v : R) (a : AudioSynthesizer)
  : AudioSynthesizer :=
  {| isPlaying := isPlaying a; initialized := initialized a;
     baseFrequency := baseFrequency a; currentFrequency := v;
     filterFrequency := filterFrequency a; filterQ := filterQ a;
     reverbMix := reverbMix a; delayTime := delayTime a;
     waveform := waveform a; audioContext := audioContext a;
     oscillator := oscillator a; gainNode := gainNode a;
     filter := filter a; delayNode := delayNode a;
     delayFeedback := delayFeedback a; delayMix := delayMix a;
     reverb := reverb a; reverbMixNode := reverbMixNode a;
     dryGain := dryGain a; analyser := analyser a;
     analyserData := analyserData a; masterGain := masterGain a |}.

Definition set_filterFrequency (v : R) (a : AudioSynthesizer)
  : AudioSynthesizer :=
  {| isPlaying := isPlaying a; initialized := initialized a;
     baseFrequency := baseFrequency a;
     currentFrequency := currentFrequency a; filterFrequency := v;
     filterQ := filterQ a; reverbMix := reverbMix a;
     delayTime := delayTime a; waveform := waveform a;
     audioContext := audioContext a; oscillator := oscillator a;
     gainNode := gainNode a; filter := filter a; delayNode := delayNode a;
     delayFeedback := delayFeedback a; delayMix := delayMix a;
     reverb := reverb a; reverbMixNode := reverbMixNode a;
     dryGain := dryGain a; analyser := analyser a;
     analyserData := analyserData a; masterGain := masterGain a |}.

Definition set_filterQ (v : R) (a : AudioSynthesizer)
  : AudioSynthesizer :=
  {| isPlaying := isPlaying a; initialized := initialized a;
     baseFrequency := baseFrequency a;
     currentFrequency := currentFrequency a;
     filterFrequency := filterFrequency a; filterQ := v;
     reverbMix := reverbMix a; delayTime := delayTime a;
     waveform := waveform a; audioContext := audioContext a;
     oscillator := oscillator a; gainNode := gainNode a;
     filter := filter a; delayNode := delayNode a;
     delayFeedback := delayFeedback a; delayMix := delayMix a;
     reverb := reverb a; reverbMixNode := reverbMixNode a;
     dryGain := dryGain a; analyser := analyser a;
     analyserData := analyserData a; masterGain := masterGain a |}.

Definition set_reverbMix (v : R) (a : AudioSynthesizer)
  : AudioSynthesizer :=
  {| isPlaying := isPlaying a; initialized := initialized a;
     baseFrequency := baseFrequency a;
     currentFrequency := currentFrequency a;
     filterFrequency := filterFrequency a; filterQ := filterQ a;
     reverbMix := v; delayTime := delayTime a; waveform := waveform a;
     audioContext := audioContext a; oscillator := oscillator a;
     gainNode := gainNode a; filter := filter a; delayNode := delayNode a;
     delayFeedback := delayFeedback a; delayMix := delayMix a;
     reverb := reverb a; reverbMixNode := reverbMixNode a;
     dryGain := dryGain a; analyser := analyser a;
     analyserData := analyserData a; masterGain := masterGain a |}.

Definition set_delayTime (v : R) (a : AudioSynthesizer)
  : AudioSynthesizer :=
  {| isPlaying := isPlaying a; initialized := initialized a;
     baseFrequency := baseFrequency a;
     currentFrequency := currentFrequency a;
     filterFrequency := filterFrequency a; filterQ := filterQ a;
     reverbMix := reverbMix a; delayTime := v; waveform := waveform a;
     audioContext := audioContext a; oscillator := oscillator a;
     gainNode := gainNode a; filter := filter a; delayNode := delayNode a;
     delayFeedback := delayFeedback a; delayMix := delayMix a;
     reverb := reverb a; reverbMixNode := reverbMixNode a;
     dryGain := dryGain a; analyser := analyser a;
     analyserData := analyserData a; masterGain := masterGain a |}.

Definition set_waveform (v : Waveform) (a : AudioSynthesizer)
  : AudioSynthesizer :=
  {| isPlaying := isPlaying a; initialized := initialized a;
     baseFrequency := baseFrequency a;
     currentFrequency := currentFrequency a;
     filterFrequency := filterFrequency a; filterQ := filterQ a;
     reverbMix := reverbMix a; delayTime := delayTime a; waveform := v;
     audioContext := audioContext a; oscillator := oscillator a;
     gainNode := gainNode a; filter := filter a; delayNode := delayNode a;
     delayFeedback := delayFeedback a; delayMix := delayMix a;
     reverb := reverb a; reverbMixNode := reverbMixNode a;
     dryGain := dryGain a; analyser := analyser a;
     analyserData := analyserData a; masterGain := masterGain a |}.

Definition set_audioContext (v : option AudioContext) (a : AudioSynthesizer)
  : AudioSynthesizer :=
  {| isPlaying := isPlaying a; initialized := initialized a;
     baseFrequency := baseFrequency a;
     currentFrequency := currentFrequency a;
     filterFrequency := filterFrequency a; filterQ := filterQ a;
     reverbMix := reverbMix a; delayTime := delayTime a;
     waveform := waveform a; audioContext := v; oscillator := oscillator a;
     gainNode := gainNode a; filter := filter a; delayNode := delayNode a;
     delayFeedback := delayFeedback a; delayMix := delayMix a;
     reverb := reverb a; reverbMixNode := reverbMixNode a;
     dryGain := dryGain a; analyser := analyser a;
     analyserData := analyserData a; masterGain := masterGain a |}.

Definition set_oscillator (v : option NodeId) (a : AudioSynthesizer)
  : AudioSynthesizer :=
  {| isPlaying := isPlaying a; initialized := initialized a;
     baseFrequency := baseFrequency a;
     currentFrequency := currentFrequency a;
     filterFrequency := filterFrequency a; filterQ := filterQ a;
     reverbMix := reverbMix a; delayTime := delayTime a;
     waveform := waveform a; audioContext := audioContext a;
     oscillator := v; gainNode := gainNode a; filter := filter a;
     delayNode := delayNode a; delayFeedback := delayFeedback a;
     delayMix := delayMix a; reverb := reverb a;
     reverbMixNode := reverbMixNode a; dryGain := dryGain a;
     analyser := analyser a; analyserData := analyserData a;
     masterGain := masterGain a |}.

Definition set_analyserData (v : option (list byte)) (a : AudioSynthesizer)
  : AudioSynthesizer :=
  {| isPlaying := isPlaying a; initialized := initialized a;
     baseFrequency := baseFrequency a;
     currentFrequency := currentFrequency a;
     filterFrequency := filterFrequency a; filterQ := filterQ a;
     reverbMix := reverbMix a; delayTime := delayTime a;
     waveform := waveform a; audioContext := audioContext a;
     oscillator := oscillator a; gainNode := gainNode a;
     filter := filter a; delayNode := delayNode a;
     delayFeedback := delayFeedback a; delayMix := delayMix a;
     reverb := reverb a; reverbMixNode := reverbMixNode a;
     dryGain := dryGain a; analyser := analyser a; analyserData := v;
     masterGain := masterGain a |}.

(** [this.audioContext], about to be dereferenced. A node reference is an
    index into the store of the context, so every access to a node goes
    through the context. *)
Definition context (a : AudioSynthesizer) : Completion AudioContext :=
  match audioContext a with
  | Some ctx => Normal ctx
  | None => Throw TypeError
  end.

(** A method call [ref.m(...)] on the node behind a reference. *)
Definition update (r : option NodeId) (m : AudioNode -> Completion AudioNode)
  (ctx : AudioContext) : Completion AudioContext :=
  '(id, n) ← deref r ctx;
  n' ← m n;
  mret (setNode id n' ctx).

(** [param.linearRampToValueAtTime(v, this.audioContext.currentTime + dt)]
    on the node behind [r]. *)
Definition ramp (r : option NodeId)
  (m : R -> R -> AudioNode -> Completion AudioNode) (v dt : R)
  (a : AudioSynthesizer) : Completion AudioSynthesizer :=
  ctx ← context a;
  ctx ← update r (m v (currentTime ctx + dt)) ctx;
  mret (set_audioContext (Some ctx) a).

(** Two channels of two seconds of noise under a squared linear decay. The
    samples of channel 0 are drawn first. *)
Definition generateReverbImpulse (ctx : AudioContext) (w : Window)
  : Window * AudioBuffer :=
  let sampleRate := sampleRate ctx in
  let len := (sampleRate * 2)%nat in
  let channelData (channel : nat) :=
    List.map
      (fun i => (random w (randomsDrawn w + channel * len + i) * 2 - 1)
                * (1 - INR i / INR len) ^ 2)
      (seq 0 len) in
  (drawn (2 * len) w,
   {| bufferSampleRate := sampleRate;
      channels := [channelData 0%nat; channelData 1%nat] |}).

(** [async init()]. The body holds no [await], so a call runs to its end
    before the caller gets the promise back. Each [create] stands for the
    [createX()] call together with the assignments to the new node that
    follow it in the source. *)
Definition init (w : Window) (a : AudioSynthesizer)
  : Completion (Window * AudioSynthesizer) :=
  if initialized a then mret (w, a) else
  let '(w, ctx) := newAudioContext w in
  let '(ctx, oscillator) :=
    create (Oscillator (waveform a) (param (currentFrequency a)) false false)
      ctx in
  let '(ctx, gainNode) := create (Gain (param 0)) ctx in
  let '(ctx, filter) :=
    create (BiquadFilter (param (filterFrequency a)) (param (filterQ a)))
      ctx in
  let '(ctx, delayNode) := create (Delay (param (delayTime a))) ctx in
  let '(ctx, delayFeedback) := create (Gain (param 0.4)) ctx in
  let '(ctx, delayMix) := create (Gain (param 0.3)) ctx in
  let '(w, impulse) := generateReverbImpulse ctx w in
  let '(ctx, reverb) := create (Convolver (Some impulse)) ctx in
  let '(ctx, reverbMixNode) := create (Gain (param (reverbMix a))) ctx in
  let '(ctx, dryGain) := create (Gain (param (1 - reverbMix a))) ctx in
  let '(ctx, analyser) := create (Analyser 256) ctx in
  let analyserData := replicate (256 / 2)%nat x00 in
  let '(ctx, masterGain) := create (Gain (param 0.3)) ctx in
  let ctx := connect oscillator gainNode ctx in
  let ctx := connect gainNode filter ctx in
  let ctx := connect filter delayNode ctx in
  let ctx := connect delayNode delayFeedback ctx in
  let ctx := connect delayFeedback delayNode ctx in
  let ctx := connect delayNode delayMix ctx in
  let ctx := connect filter dryGain ctx in
  let ctx := connect delayMix dryGain ctx in
  let ctx := connect dryGain reverb ctx in
  let ctx := connect reverb reverbMixNode ctx in
  let '(ctx, finalMix) := create (Gain (param 1)) ctx in
  let ctx := connect dryGain finalMix ctx in
  let ctx := connect reverbMixNode finalMix ctx in
  let ctx := connect finalMix analyser ctx in
  let ctx := connect analyser masterGain ctx in
  let ctx := connect masterGain destination ctx in
  ctx ← update (Some oscillator) startNode ctx;
  mret (w,
        {| isPlaying := isPlaying a; initialized := true;
           baseFrequency := baseFrequency a;
           currentFrequency := currentFrequency a;
           filterFrequency := filterFrequency a; filterQ := filterQ a;
           reverbMix := reverbMix a; delayTime := delayTime a;
           waveform := waveform a;
           audioContext := Some ctx; oscillator := Some oscillator;
           gainNode := Some gainNode; filter := Some filter;
           delayNode := Some delayNode;
           delayFeedback := Some delayFeedback; delayMix := Some delayMix;
           reverb := Some reverb; reverbMixNode := Some reverbMixNode;
           dryGain := Some dryGain; analyser := Some analyser;
           analyserData := Some analyserData;
           masterGain := Some masterGain |}).

Definition start (a : AudioSynthesizer) : Completion AudioSynthesizer :=
  if negb (initialized a) then mret a else
  let a := set_isPlaying true a in
  ramp (gainNode a) rampGain 0.5 0.1 a.

Definition stop (a : AudioSynthesizer) : Completion AudioSynthesizer :=
  if negb (initialized a) then mret a else
  let a := set_isPlaying false a in
  ramp (gainNode a) rampGain 0 0.1 a.

Definition setFrequency (freq : R) (a : AudioSynthesizer)
  : Completion AudioSynthesizer :=
  if negb (initialized a) then mret a else
  let a := set_currentFrequency (Rmax 50 (Rmin 2000 freq)) a in
  ramp (oscillator a) rampFrequency (currentFrequency a) 0.05 a.

Definition setFilterFrequency (freq : R) (a : AudioSynthesizer)
  : Completion AudioSynthesizer :=
  if negb (initialized a) then mret a else
  let a := set_filterFrequency (Rmax 200 (Rmin 5000 freq)) a in
  ramp (filter a) rampFrequency (filterFrequency a) 0.05 a.

Definition setFilterQ (q : R) (a : AudioSynthesizer)
  : Completion AudioSynthesizer :=
  if negb (initialized a) then mret a else
  let a := set_filterQ (Rmax 1 (Rmin 20 q)) a in
  ramp (filter a) rampQ (filterQ a) 0.05 a.

Definition setReverbMix (mix : R) (a : AudioSynthesizer)
  : Completion AudioSynthesizer :=
  if negb (initialized a) then mret a else
  let a := set_reverbMix (Rmax 0 (Rmin 1 mix)) a in
  ramp (reverbMixNode a) rampGain (reverbMix a) 0.05 a.

Definition setDelayTime (time : R) (a : AudioSynthesizer)
  : Completion AudioSynthesizer :=
  if negb (initialized a) then mret a else
  let a := set_delayTime (Rmax 0 (Rmin 0.5 time)) a in
  ramp (delayNode a) rampDelayTime (delayTime a) 0.05 a.

(** The oscillator is replaced, not retuned: the old one is disconnected and
    stopped, a new one is created, connected to the gain node and started. *)
Definition setWaveform (type : Waveform) (a : AudioSynthesizer)
  : Completion AudioSynthesizer :=
  let a := set_waveform type a in
  if negb (initialized a) then mret a else
  ctx ← context a;
  '(old, _) ← deref (oscillator a) ctx;
  let ctx := disconnect old ctx in
  ctx ← update (Some old) stopNode ctx;
  let '(ctx, osc) :=
    create (Oscillator type (param (currentFrequency a)) false false) ctx in
  let a := set_oscillator (Some osc) a in
  '(gain, _) ← deref (gainNode a) ctx;
  let ctx := connect osc gain ctx in
  ctx ← update (Some osc) startNode ctx;
  mret (set_audioContext (Some ctx) a).

(** The numeric value of an element of a [Uint8Array]. *)
Definition byteValue (b : byte) : R := IZR (Z.of_N (Byte.to_N b)).

(** [getAudioLevel()]: [spectrum] is what the analyser node holds when it is
    asked for its byte frequency data. *)
Definition getAudioLevel (spectrum : list byte) (a : AudioSynthesizer)
  : Completion (R * AudioSynthesizer) :=
  if negb (initialized a) || negb (bool_decide (is_Some (analyser a)))
  then mret (0, a) else
  ctx ← context a;
  '(_, node) ← deref (analyser a) ctx;
  data ← match node, analyserData a with
         | Analyser _, Some array =>
             Normal (getByteFrequencyData spectrum array)
         | _, _ => Throw TypeError
         end;
  let a := set_analyserData (Some data) a in
  let sum := fold_left (fun sum b => sum + byteValue b) data 0 in
  mret ((sum / INR (length data)) / 255, a).

(** Maps [0, 1] onto 110 Hz .. 1760 Hz, exponentially. *)
Definition setFrequencyNormalized (value : R) (a : AudioSynthesizer)
  : Completion AudioSynthesizer :=
  let minFreq := 110 in
  let maxFreq := 1760 in
  let freq := minFreq * Rpower (maxFreq / minFreq) value in
  setFrequency freq a.

End Audio.

(** ** scene.js: the part of the scene the controller drives

    Rendering (lights, particles, the per-frame easing of [update]) reads
    these fields and writes none of them; it is modelled in [Rendering]
    below. *)
Module Scene3D.

Inductive Geometry := Icosahedron | Torus | Octahedron | Dodecahedron.

(** A [THREE.Mesh]: its geometry and the two coordinates of [position] that
    the program assigns. *)
Record Mesh := {
  geometry : Geometry;
  positionX : R;
  positionY : R
}.

Record Scene3D := {
  audioLevel : R;
  targetRotationX : R;
  targetRotationY : R;
  currentScale : R;
  mesh : option Mesh
}.

(** Replaces the mesh by a new one, which sits at the origin. *)
Definition createGeometry (type : string) (s : Scene3D) : Scene3D :=
  let geometry :=
    if (type =? "icosahedron")%string then Icosahedron
    else if (type =? "torus")%string then Torus
    else if (type =? "octahedron")%string then Octahedron
    else if (type =? "dodecahedron")%string then Dodecahedron
    else Icosahedron in
  {| audioLevel := audioLevel s;
     targetRotationX := targetRotationX s;
     targetRotationY := targetRotationY s;
     currentScale := currentScale s;
     mesh := Some {| geometry := geometry; positionX := 0; positionY := 0 |} |}.

Definition constructor : Scene3D :=
  createGeometry "icosahedron"
    {| audioLevel := 0; targetRotationX := 0; targetRotationY := 0;
       currentScale := 1; mesh := None |}.

Definition setAudioLevel (level : R) (s : Scene3D) : Scene3D :=
  {| audioLevel := level;
     targetRotationX := targetRotationX s;
     targetRotationY := targetRotationY s;
     currentScale := currentScale s; mesh := mesh s |}.

Definition setRotation (x y : R) (s : Scene3D) : Scene3D :=
  {| audioLevel := audioLevel s;
     targetRotationX := x; targetRotationY := y;
     currentScale := currentScale s; mesh := mesh s |}.

Definition setScale (scale : R) (s : Scene3D) : Scene3D :=
  {| audioLevel := audioLevel s;
     targetRotationX := targetRotationX s;
     targetRotationY := targetRotationY s;
     currentScale := Rmax 0.5 (Rmin 3 scale); mesh := mesh s |}.

Definition setPosition (x y : R) (s : Scene3D) : Scene3D :=
  match mesh s with
  | Some m =>
      {| audioLevel := audioLevel s;
         targetRotationX := targetRotationX s;
         targetRotationY := targetRotationY s;
         currentScale := currentScale s;
         mesh := Some {| geometry := geometry m;
                         positionX := x; positionY := y |} |}
  | None => s
  end.

End Scene3D.

(** ** interaction.js: from input events to parameter values

    [updateUI] and the button highlighting only write text and classes into
    the document and are left out, as is [preventDefault]; the text of the
    [status] element is kept, since the click handler writes it. *)
Module Interaction.
Import WebAudio.

Record MouseEvent := {
  clientX : R;
  clientY : R
}.

(** What [canvas.getBoundingClientRect()] answers. *)
Record DOMRect := {
  left : R;
  top : R;
  width : R;
  height : R
}.

(** The controller with the two objects it drives. *)
Record InteractionController := {
  scene : Scene3D.Scene3D;
  audio : Audio.AudioSynthesizer;
  mouseX : R;
  mouseY : R;
  isDragging : bool;
  dragStartX : R;
  dragStartY : R;
  shapeOffsetX : R;
  shapeOffsetY : R
}.

Definition constructor (scene : Scene3D.Scene3D)
  (audio : Audio.AudioSynthesizer) : InteractionController :=
  {| scene := scene; audio := audio; mouseX := 0; mouseY := 0;
     isDragging := false; dragStartX := 0; dragStartY := 0;
     shapeOffsetX := 0; shapeOffsetY := 0 |}.

Definition set_scene (v : Scene3D.Scene3D) (c : InteractionController)
  : InteractionController :=
  {| scene := v; audio := audio c; mouseX := mouseX c; mouseY := mouseY c;
     isDragging := isDragging c; dragStartX := dragStartX c;
     dragStartY := dragStartY c; shapeOffsetX := shapeOffsetX c;
     shapeOffsetY := shapeOffsetY c |}.

Definition set_audio (v : Audio.AudioSynthesizer) (c : InteractionController)
  : InteractionController :=
  {| scene := scene c; audio := v; mouseX := mouseX c; mouseY := mouseY c;
     isDragging := isDragging c; dragStartX := dragStartX c;
     dragStartY := dragStartY c; shapeOffsetX := shapeOffsetX c;
     shapeOffsetY := shapeOffsetY c |}.

Definition set_mouse (x y : R) (c : InteractionController)
  : InteractionController :=
  {| scene := scene c; audio := audio c; mouseX := x; mouseY := y;
     isDragging := isDragging c; dragStartX := dragStartX c;
     dragStartY := dragStartY c; shapeOffsetX := shapeOffsetX c;
     shapeOffsetY := shapeOffsetY c |}.

Definition set_shapeOffset (x y : R) (c : InteractionController)
  : InteractionController :=
  {| scene := scene c; audio := audio c; mouseX := mouseX c;
     mouseY := mouseY c; isDragging := isDragging c;
     dragStartX := dragStartX c; dragStartY := dragStartY c;
     shapeOffsetX := x; shapeOffsetY := y |}.

Definition onMouseMove (e : MouseEvent) (rect : DOMRect)
  (c : InteractionController) : Completion InteractionController :=
  let c := set_mouse ((clientX e - left rect) / width rect)
                     ((clientY e - top rect) / height rect) c in
  let rotationX := (mouseY c - 0.5) * PI * 2 in
  let rotationY := (mouseX c - 0.5) * PI * 2 in
  let c := set_scene (Scene3D.setRotation rotationX rotationY (scene c)) c in
  let filterFreq := 200 + mouseX c * 4800 in
  let filterQ := 1 + mouseY c * 19 in
  a ← Audio.setFilterFrequency filterFreq (audio c);
  a ← Audio.setFilterQ filterQ a;
  let c := set_audio a c in
  if isDragging c then
    let dragX := (clientX e - dragStartX c) / width rect in
    let dragY := (clientY e - dragStartY c) / height rect in
    let c := set_shapeOffset (dragX * 4) (- dragY * 4) c in
    let c :=
      set_scene
        (Scene3D.setPosition (shapeOffsetX c) (shapeOffsetY c) (scene c)) c in
    let delayTime := Rabs dragX * 0.5 in
    let reverbMix := Rabs dragY in
    a ← Audio.setDelayTime delayTime (audio c);
    a ← Audio.setReverbMix reverbMix a;
    mret (set_audio a c)
  else mret c.

Definition onWheel (deltaY : R) (c : InteractionController)
  : Completion InteractionController :=
  let scale := Scene3D.currentScale (scene c) in
  let delta := if Rlt_dec 0 deltaY then - 0.1 else 0.1 in
  let scale := scale + delta in
  let scale := Rmax 0.5 (Rmin 3 scale) in
  let c := set_scene (Scene3D.setScale scale (scene c)) c in
  let normalizedScale := (scale - 0.5) / 2.5 in
  a ← Audio.setFrequencyNormalized normalizedScale (audio c);
  mret (set_audio a c).

Definition onMouseDown (e : MouseEvent) (c : InteractionController)
  : InteractionController :=
  {| scene := scene c; audio := audio c; mouseX := mouseX c;
     mouseY := mouseY c; isDragging := true;
     dragStartX := clientX e; dragStartY := clientY e;
     shapeOffsetX := shapeOffsetX c; shapeOffsetY := shapeOffsetY c |}.

Definition onMouseUp (c : InteractionController)
  : Completion InteractionController :=
  let c :=
    {| scene := Scene3D.setPosition 0 0 (scene c); audio := audio c;
       mouseX := mouseX c; mouseY := mouseY c; isDragging := false;
       dragStartX := dragStartX c; dragStartY := dragStartY c;
       shapeOffsetX := 0; shapeOffsetY := 0 |} in
  a ← Audio.setDelayTime 0.2 (audio c);
  a ← Audio.setReverbMix 0.3 a;
  mret (set_audio a c).

(** A touch event carries its active touch points; the first one stands in
    for the mouse. *)
Definition onTouchStart (touches : list MouseEvent)
  (c : InteractionController) : InteractionController :=
  match touches with
  | touch :: _ =>
      onMouseDown {| clientX := clientX touch; clientY := clientY touch |} c
  | [] => c
  end.

Definition onTouchMove (touches : list MouseEvent) (rect : DOMRect)
  (c : InteractionController) : Completion InteractionController :=
  match touches with
  | touch :: _ =>
      onMouseMove {| clientX := clientX touch; clientY := clientY touch |}
        rect c
  | [] => mret c
  end.

Definition onTouchEnd (c : InteractionController)
  : Completion InteractionController :=
  onMouseUp c.

Definition changeShape (shape : string) (c : InteractionController)
  : InteractionController :=
  set_scene (Scene3D.createGeometry shape (scene c)) c.

Definition changeWaveform (wave : Waveform) (c : InteractionController)
  : Completion InteractionController :=
  a ← Audio.setWaveform wave (audio c);
  mret (set_audio a c).

(** The page around the controller: the browser window, the text of the
    [status] element, and the calls of [onClick] that are suspended at
    their [await]. *)
Record Page := {
  window : Window;
  status : string;
  suspended : nat;
  controller : InteractionController
}.

(** The second half of [onClick]: toggle the sound. *)
Definition toggle (p : Page) : Completion Page :=
  let c := controller p in
  if Audio.isPlaying (audio c) then
    a ← Audio.stop (audio c);
    mret {| window := window p; status := "Paused";
            suspended := suspended p; controller := set_audio a c |}
  else
    a ← Audio.start (audio c);
    mret {| window := window p; status := "Playing";
            suspended := suspended p; controller := set_audio a c |}.

(** [async onClick(e)], from the call to its first suspension or to its end:
    when the engine is not initialized, [init] runs and the call is
    suspended at the [await]; otherwise nothing is awaited and the call
    toggles at once. *)
Definition onClick (p : Page) : Completion Page :=
  let c := controller p in
  if negb (Audio.initialized (audio c)) then
    '(w, a) ← Audio.init (window p) (audio c);
    mret {| window := w; status := status p;
            suspended := S (suspended p); controller := set_audio a c |}
  else toggle p.

(** A suspended [onClick] continues after its [await]. *)
Definition onClick_resumed (p : Page) : Completion Page :=
  toggle {| window := window p; status := "Playing";
            suspended := pred (suspended p); controller := controller p |}.

Definition lift (h : InteractionController -> Completion InteractionController)
  (p : Page) : Completion Page :=
  c ← h (controller p);
  mret {| window := window p; status := status p;
          suspended := suspended p; controller := c |}.

Definition onKeyDown (key : string) (p : Page) : Completion Page :=
  p ← lift (fun c => mret (
         if (key =? "1")%string then changeShape "icosahedron" c
         else if (key =? "2")%string then changeShape "torus" c
         else if (key =? "3")%string then changeShape "octahedron" c
         else if (key =? "4")%string then changeShape "dodecahedron" c
         else c)) p;
  p ← lift (fun c =>
         if (key =? "q")%string then changeWaveform sine c
         else if (key =? "w")%string then changeWaveform square c
         else if (key =? "e")%string then changeWaveform sawtooth c
         else if (key =? "r")%string then changeWaveform triangle c
         else mret c) p;
  if (key =? " ")%string then onClick p else mret p.

End Interaction.

(** ** main.js: what can happen to a loaded page *)
Module Main.
Import WebAudio Interaction.

(** The methods of the engine, as a caller outside the controller may
    invoke them. *)
Inductive AudioCall :=
| init
| start
| stop
| setFrequency (freq : R)
| setFilterFrequency (freq : R)
| setFilterQ (q : R)
| setReverbMix (mix : R)
| setDelayTime (time : R)
| setWaveform (type : Waveform)
| getAudioLevel (spectrum : list byte)
| setFrequencyNormalized (value : R).

(** The setters of the scene. *)
Inductive SceneCall :=
| createGeometry (type : string)
| setAudioLevel (level : R)
| setRotation (x y : R)
| setScale (scale : R)
| setPosition (x y : R).

Inductive Event :=
| mousemove (e : MouseEvent) (rect : DOMRect)
| wheel (deltaY : R)
| click
| mousedown (e : MouseEvent)
| mouseup
| touchstart (touches : list MouseEvent)
| touchmove (touches : list MouseEvent) (rect : DOMRect)
| touchend
| keydown (key : string)
| shapeButton (shape : string)
| waveButton (wave : Waveform)
| resumed
| animationFrame (spectrum : list byte)
| clockAdvance (dt : R)
| audioCall (call : AudioCall)
| sceneCall (call : SceneCall).

Definition callAudio (call : AudioCall) (w : Window)
  (a : Audio.AudioSynthesizer) : Completion (Window * Audio.AudioSynthesizer) :=
  match call with
  | init => Audio.init w a
  | start => a ← Audio.start a; mret (w, a)
  | stop => a ← Audio.stop a; mret (w, a)
  | setFrequency freq => a ← Audio.setFrequency freq a; mret (w, a)
  | setFilterFrequency freq => a ← Audio.setFilterFrequency freq a; mret (w, a)
  | setFilterQ q => a ← Audio.setFilterQ q a; mret (w, a)
  | setReverbMix mix => a ← Audio.setReverbMix mix a; mret (w, a)
  | setDelayTime time => a ← Audio.setDelayTime time a; mret (w, a)
  | setWaveform type => a ← Audio.setWaveform type a; mret (w, a)
  | getAudioLevel spectrum =>
      '(_, a) ← Audio.getAudioLevel spectrum a; mret (w, a)
  | setFrequencyNormalized value =>
      a ← Audio.setFrequencyNormalized value a; mret (w, a)
  end.

Definition callScene (call : SceneCall) (s : Scene3D.Scene3D)
  : Scene3D.Scene3D :=
  match call with
  | createGeometry type => Scene3D.createGeometry type s
  | setAudioLevel level => Scene3D.setAudioLevel level s
  | setRotation x y => Scene3D.setRotation x y s
  | setScale scale => Scene3D.setScale scale s
  | setPosition x y => Scene3D.setPosition x y s
  end.

(** [animate]: the level of the engine goes to the scene. *)
Definition animate (spectrum : list byte) (c : InteractionController)
  : Completion InteractionController :=
  '(audioLevel, a) ← Audio.getAudioLevel spectrum (audio c);
  mret (set_scene (Scene3D.setAudioLevel audioLevel (scene c))
          (set_audio a c)).

(** The audio clock of the context, if there is one, moves on. *)
Definition elapse (dt : R) (a : Audio.AudioSynthesizer)
  : Audio.AudioSynthesizer :=
  match Audio.audioContext a with
  | Some ctx =>
      Audio.set_audioContext
        (Some {| sampleRate := sampleRate ctx;
                 currentTime := currentTime ctx + dt;
                 nodes := nodes ctx; connections := connections ctx |}) a
  | None => a
  end.

Definition handle (ev : Event) (p : Page) : Completion Page :=
  match ev with
  | mousemove e rect => lift (onMouseMove e rect) p
  | wheel deltaY => lift (onWheel deltaY) p
  | click => onClick p
  | mousedown e => lift (fun c => mret (onMouseDown e c)) p
  | mouseup => lift onMouseUp p
  | touchstart touches => lift (fun c => mret (onTouchStart touches c)) p
  | touchmove touches rect => lift (onTouchMove touches rect) p
  | touchend => lift onTouchEnd p
  | keydown key => onKeyDown key p
  | shapeButton shape => lift (fun c => mret (changeShape shape c)) p
  | waveButton wave => lift (changeWaveform wave) p
  | resumed => onClick_resumed p
  | animationFrame spectrum => lift (animate spectrum) p
  | clockAdvance dt => lift (fun c => mret (set_audio (elapse dt (audio c)) c)) p
  | audioCall call =>
      '(w, a) ← callAudio call (window p) (audio (controller p));
      mret {| window := w; status := status p; suspended := suspended p;
              controller := set_audio a (controller p) |}
  | sceneCall call =>
      lift (fun c => mret (set_scene (callScene call (scene c)) c)) p
  end.

(** An [onClick] can only continue if one is suspended, and time does not
    run backwards. *)
Definition enabled (ev : Event) (p : Page) : Prop :=
  match ev with
  | resumed => (0 < suspended p)%nat
  | clockAdvance dt => 0 <= dt
  | _ => True
  end.

(** The page as [new App()] leaves it: no audio context yet. *)
Definition load (hardwareSampleRate : nat) (random : nat -> R)
  (status : string) : Page :=
  {| window := {| contextsConstructed := 0;
                  hardwareSampleRate := hardwareSampleRate;
                  random := random; randomsDrawn := 0 |};
     status := status; suspended := 0;
     controller := Interaction.constructor Scene3D.constructor
                     Audio.constructor |}.

(** Every state the page can be in: any number of events, in any order. *)
Inductive reachable : Page -> Prop :=
| reachable_load hardwareSampleRate random status :
    reachable (load hardwareSampleRate random status)
| reachable_step p ev p' :
    reachable p -> enabled ev p -> handle ev p = Normal p' -> reachable p'.

End Main.

(** ** scene.js and main.js: what a frame draws

    [update] moves the three.js objects of the scene towards the values its
    setters stored. Of these objects the model keeps the properties that
    [update] assigns: of the mesh its rotation about x and y, its scale, the
    emissive colour and intensity of its material and the opacity of its
    wireframe overlay; of the particle cloud its rotation; of the three point
    lights their intensity. Coordinates are exact reals here too, where the
    code stores them in a [Float32Array]. [render], [onResize] and
    [updateFPS] draw, resize and write the frame counter and are left out. *)
Module Rendering.
Import WebAudio.

Inductive Color :=
| Hex (rgb : Z)
| HSL (h s l : R).

Record MeshState := {
  rotationX : R;
  rotationY : R;
  scaleX : R;
  scaleY : R;
  scaleZ : R;
  emissive : Color;
  emissiveIntensity : R;
  wireframeOpacity : R
}.

(** The mesh and its overlay as [createGeometry] constructs them; a new
    [THREE.Mesh] is not rotated and has scale 1. *)
Definition newMesh : MeshState :=
  {| rotationX := 0; rotationY := 0;
     scaleX := 1; scaleY := 1; scaleZ := 1;
     emissive := Hex 0xb24bf3; emissiveIntensity := 0.2;
     wireframeOpacity := 0.3 |}.

Record Particle := {
  position : R * R * R;
  color : R * R * R
}.

Record Stage := {
  meshState : MeshState;
  particles : list Particle;
  particlesRotationX : R;
  particlesRotationY : R;
  pointLight1 : R;
  pointLight2 : R;
  pointLight3 : R
}.

(** One turn of the loop of [createParticles]; [random] is the sequence of
    numbers that [Math.random] yields, [first] how many of them were taken
    before this turn. *)
Definition particle (random : nat -> R) (first : nat) : Particle :=
  let theta := random first * PI * 2 in
  let phi := random (first + 1)%nat * PI in
  let radius := 15 + random (first + 2)%nat * 20 in
  let colorChoice := random (first + 3)%nat in
  {| position := (radius * sin phi * cos theta,
                  radius * sin phi * sin theta,
                  radius * cos phi);
     color := if Rlt_dec colorChoice 0.33 then (0.7, 0.3, 0.95)
              else if Rlt_dec colorChoice 0.66 then (0, 0.83, 1)
              else (1, 0, 0.43) |}.

(** The loop of [createParticles]. Nothing but the loop calls [Math.random]
    while it runs; [first] is the number of calls made before it, by
    whomever: three.js makes some for each object it constructs, and their
    number is not fixed here. *)
Definition createParticles (random : nat -> R) (first : nat)
  : list Particle :=
  let particleCount := 1500%nat in
  List.map (fun i => particle random (first + 4 * i)) (seq 0 particleCount).

(** The objects as [new Scene3D(canvas)] leaves them: the lights of [init],
    the mesh of [createGeometry], the cloud of [createParticles]. *)
Definition constructor (random : nat -> R) (first : nat) : Stage :=
  {| meshState := newMesh; particles := createParticles random first;
     particlesRotationX := 0; particlesRotationY := 0;
     pointLight1 := 2; pointLight2 := 2; pointLight3 := 1.5 |}.

(** [x % 1]: the remainder has the sign of [x]. *)
Definition remainder1 (x : R) : R :=
  if Rle_dec 0 x then frac_part x else - frac_part (- x).

(** [update(deltaTime)]; [now] is what [Date.now()] answers. The overlay and
    the cloud exist whenever the mesh does. *)
Definition update (deltaTime now : R) (s : Scene3D.Scene3D) (g : Stage)
  : Stage :=
  match Scene3D.mesh s with
  | None => g
  | Some _ =>
      let m := meshState g in
      let audioScale := 1 + Scene3D.audioLevel s * 0.3 in
      let targetScale := Scene3D.currentScale s * audioScale in
      let hue := remainder1 (Scene3D.audioLevel s * 0.3) in
      let time := now * 0.001 in
      {| meshState :=
           {| rotationX :=
                rotationX m + (Scene3D.targetRotationX s - rotationX m) * 0.1;
              rotationY :=
                rotationY m + (Scene3D.targetRotationY s - rotationY m) * 0.1;
              scaleX := scaleX m + (targetScale - scaleX m) * 0.2;
              scaleY := scaleY m + (targetScale - scaleY m) * 0.2;
              scaleZ := scaleZ m + (targetScale - scaleZ m) * 0.2;
              emissive := HSL hue 1 0.5;
              emissiveIntensity := 0.2 + Scene3D.audioLevel s * 0.5;
              wireframeOpacity := 0.3 + Scene3D.audioLevel s * 0.4 |};
         particles := particles g;
         particlesRotationX := particlesRotationX g + deltaTime * 0.02;
         particlesRotationY := particlesRotationY g + deltaTime * 0.05;
         pointLight1 := 2 + sin time * 0.5 + Scene3D.audioLevel s * 2;
         pointLight2 := 2 + sin (time + PI) * 0.5 + Scene3D.audioLevel s * 2;
         pointLight3 := 1.5 + cos time * 0.3 + Scene3D.audioLevel s * 1.5 |}
  end.

(** The application: the time of the last frame, the controller with the
    scene and the engine, and what is drawn. *)
Record App := {
  lastTime : R;
  interaction : Interaction.InteractionController;
  stage : Stage
}.

(** main.js [animate(time)]: the seconds since the last frame and the level
    of the engine go to the scene, which is then updated. *)
Definition animate (time now : R) (spectrum : list byte) (app : App)
  : Completion App :=
  let deltaTime := (time - lastTime app) / 1000 in
  c ← Main.animate spectrum (interaction app);
  mret {| lastTime := time; interaction := c;
          stage := update deltaTime now (Interaction.scene c) (stage app) |}.

(** Frames that follow one another with no other event in between; a frame
    is the time stamp of [requestAnimationFrame], the wall clock and the
    spectrum the analyser has for it. *)
Fixpoint frames (fs : list (R * R * list byte)) (app : App)
  : Completion App :=
  match fs with
  | [] => mret app
  | (time, now, spectrum) :: fs =>
      app ← animate time now spectrum app; frames fs app
  end.

End Rendering.

(** ** Numbers that are no real numbers

    The model so far computes with real numbers. [NaN], [Infinity] and
    [-Infinity] are JavaScript numbers as well, and the setters do not test
    for them. This part embeds the five setters of the engine and [setScale]
    of the scene once more, on such numbers, as far as the stored parameters
    go: what a call stores and how it completes. An exception does not undo
    an assignment made before it, so a setter gives the parameters it leaves
    behind together with its completion. The nodes are those of the
    real-valued model, where a ramp to a real value is scheduled. The
    division in [onMouseMove], which is where the page itself can come by
    such a number, is embedded as well. *)
Module JS.

Inductive Number :=
| Finite (r : R)
| Infinity
| NegInfinity
| NaN.

(** [Math.max(a, b)] and [Math.min(a, b)]: [NaN] if an argument is [NaN]. *)
Definition max (a b : Number) : Number :=
  match a, b with
  | NaN, _ => NaN
  | _, NaN => NaN
  | Infinity, _ => Infinity
  | _, Infinity => Infinity
  | NegInfinity, _ => b
  | _, NegInfinity => a
  | Finite x, Finite y => Finite (Rmax x y)
  end.

Definition min (a b : Number) : Number :=
  match a, b with
  | NaN, _ => NaN
  | _, NaN => NaN
  | NegInfinity, _ => NegInfinity
  | _, NegInfinity => NegInfinity
  | Infinity, _ => b
  | _, Infinity => a
  | Finite x, Finite y => Finite (Rmin x y)
  end.

Definition neg (a : Number) : Number :=
  match a with
  | Finite x => Finite (- x)
  | Infinity => NegInfinity
  | NegInfinity => Infinity
  | NaN => NaN
  end.

(** [a], with its sign changed if [x] is negative. *)
Definition signed (x : R) (a : Number) : Number :=
  if Rlt_dec x 0 then neg a else a.

(** [a + b], [a * b] and [a / b]. A result that is finite is the exact real
    number, as in the rest of the model, and a zero is the positive zero,
    which is what a rectangle of no extent reports. *)
Definition add (a b : Number) : Number :=
  match a, b with
  | NaN, _ => NaN
  | _, NaN => NaN
  | Finite x, Finite y => Finite (x + y)
  | Infinity, NegInfinity => NaN
  | NegInfinity, Infinity => NaN
  | Infinity, _ => Infinity
  | _, Infinity => Infinity
  | NegInfinity, _ => NegInfinity
  | _, NegInfinity => NegInfinity
  end.

Definition mul (a b : Number) : Number :=
  match a, b with
  | NaN, _ => NaN
  | _, NaN => NaN
  | Finite x, Finite y => Finite (x * y)
  | Finite x, _ => if Req_EM_T x 0 then NaN else signed x b
  | _, Finite y => if Req_EM_T y 0 then NaN else signed y a
  | Infinity, Infinity => Infinity
  | NegInfinity, NegInfinity => Infinity
  | _, _ => NegInfinity
  end.

Definition div (a b : Number) : Number :=
  match a, b with
  | NaN, _ => NaN
  | _, NaN => NaN
  | Finite x, Finite y =>
      if Req_EM_T y 0
      then if Req_EM_T x 0 then NaN else signed x Infinity
      else Finite (x / y)
  | Finite _, _ => Finite 0
  | _, Finite y => signed y a
  | _, _ => NaN
  end.

(** interaction.js [onMouseMove]: the filter frequency that the pointer of
    the event asks for, from its position across the rectangle of the
    canvas. *)
Definition filterFreq (e : Interaction.MouseEvent) (rect : Interaction.DOMRect)
  : Number :=
  let mouseX :=
    div (Finite (Interaction.clientX e - Interaction.left rect))
      (Finite (Interaction.width rect)) in
  add (Finite 200) (mul mouseX (Finite 4800)).

(** The fields of the engine that the setters read and assign. *)
Record Parameters := {
  initialized : bool;
  currentFrequency : Number;
  filterFrequency : Number;
  filterQ : Number;
  reverbMix : Number;
  delayTime : Number
}.

(** [param.linearRampToValueAtTime(value, endTime)] takes its value as a
    Web IDL [float]: the call raises a [TypeError] unless the value is
    finite. The end time is the clock of the context plus a constant. *)
Definition linearRampToValueAtTime (value : Number) : Completion () :=
  match value with
  | Finite _ => Normal ()
  | _ => Throw TypeError
  end.

Definition setFrequency (freq : Number) (a : Parameters)
  : Parameters * Completion () :=
  if negb (initialized a) then (a, Normal ())
  else
    let a :=
      {| initialized := initialized a;
         currentFrequency := max (Finite 50) (min (Finite 2000) freq);
         filterFrequency := filterFrequency a; filterQ := filterQ a;
         reverbMix := reverbMix a; delayTime := delayTime a |} in
    (a, linearRampToValueAtTime (currentFrequency a)).

Definition setFilterFrequency (freq : Number) (a : Parameters)
  : Parameters * Completion () :=
  if negb (initialized a) then (a, Normal ())
  else
    let a :=
      {| initialized := initialized a;
         currentFrequency := currentFrequency a;
         filterFrequency := max (Finite 200) (min (Finite 5000) freq);
         filterQ := filterQ a;
         reverbMix := reverbMix a; delayTime := delayTime a |} in
    (a, linearRampToValueAtTime (filterFrequency a)).

Definition setFilterQ (q : Number) (a : Parameters)
  : Parameters * Completion () :=
  if negb (initialized a) then (a, Normal ())
  else
    let a :=
      {| initialized := initialized a;
         currentFrequency := currentFrequency a;
         filterFrequency := filterFrequency a;
         filterQ := max (Finite 1) (min (Finite 20) q);
         reverbMix := reverbMix a; delayTime := delayTime a |} in
    (a, linearRampToValueAtTime (filterQ a)).

Definition setReverbMix (mix : Number) (a : Parameters)
  : Parameters * Completion () :=
  if negb (initialized a) then (a, Normal ())
  else
    let a :=
      {| initialized := initialized a;
         currentFrequency := currentFrequency a;
         filterFrequency := filterFrequency a; filterQ := filterQ a;
         reverbMix := max (Finite 0) (min (Finite 1) mix);
         delayTime := delayTime a |} in
    (a, linearRampToValueAtTime (reverbMix a)).

Definition setDelayTime (time : Number) (a : Parameters)
  : Parameters * Completion () :=
  if negb (initialized a) then (a, Normal ())
  else
    let a :=
      {| initialized := initialized a;
         currentFrequency := currentFrequency a;
         filterFrequency := filterFrequency a; filterQ := filterQ a;
         reverbMix := reverbMix a;
         delayTime := max (Finite 0) (min (Finite 0.5) time) |} in
    (a, linearRampToValueAtTime (delayTime a)).

(** scene.js [setScale(scale)]: the value it assigns to [currentScale]. *)
Definition setScale (scale : Number) : Number :=
  max (Finite 0.5) (min (Finite 3) scale).

(** The parameters of an engine of the real-valued model. *)
Definition parameters (a : Audio.AudioSynthesizer) : Parameters :=
  {| initialized := Audio.initialized a;
     currentFrequency := Finite (Audio.currentFrequency a);
     filterFrequency := Finite (Audio.filterFrequency a);
     filterQ := Finite (Audio.filterQ a);
     reverbMix := Finite (Audio.reverbMix a);
     delayTime := Finite (Audio.delayTime a) |}.

(** A number that lies between two bounds: a real number that does. *)
Definition within (lo hi : R) (v : Number) : Prop :=
  match v with
  | Finite r => lo <= r <= hi
  | _ => False
  end.

Definition in_range (a : Parameters) : Prop :=
  within 50 2000 (currentFrequency a) /\
  within 200 5000 (filterFrequency a) /\
  within 1 20 (filterQ a) /\
  within 0 1 (reverbMix a) /\
  within 0 0.5 (delayTime a).

(** A setter that clamps every number but [NaN], on the parameters [a]: it
    returns and leaves [field] at a real number in the range, the clamp of
    the argument if that is real, the upper bound for [Infinity] and the
    lower for [-Infinity], and the other parameters in range if they were. *)
Definition clamps
  (setter : Number -> Parameters -> Parameters * Completion ())
  (field : Parameters -> Number) (lo hi : R) (a : Parameters) : Prop :=
  forall v, v <> NaN ->
    exists a' r,
      setter v a = (a', Normal ()) /\
      field a' = Finite r /\
      lo <= r <= hi /\
      (forall x, v = Finite x -> r = clamp lo hi x) /\
      (v = Infinity -> r = hi) /\
      (v = NegInfinity -> r = lo) /\
      (in_range a -> in_range a').

(** The setter on numbers and the setter of the real-valued model do the
    same to the parameters when the argument is real. *)
Definition agree
  (setter : Number -> Parameters -> Parameters * Completion ())
  (setter' : R -> Audio.AudioSynthesizer -> Completion Audio.AudioSynthesizer)
  (a : Audio.AudioSynthesizer) : Prop :=
  forall v, exists a',
    setter' v a = Normal a' /\
    setter (Finite v) (parameters a) = (parameters a', Normal ()).

End JS.

(** ** Invariants *)
Import WebAudio Interaction.

(** What a node is to the methods that are called on it: its interface, and
    for an oscillator whether it was started and stopped. Scheduling a ramp
    changes none of it. *)
Inductive Shape :=
| SDestination
| SOscillator (started stopped : bool)
| SGain
| SBiquadFilter
| SDelay
| SConvolver
| SAnalyser.

Definition shape (n : AudioNode) : Shape :=
  match n with
  | Destination => SDestination
  | Oscillator _ _ started stopped => SOscillator started stopped
  | Gain _ => SGain
  | BiquadFilter _ _ => SBiquadFilter
  | Delay _ => SDelay
  | Convolver _ => SConvolver
  | Analyser _ => SAnalyser
  end.

Definition shapes (ctx : AudioContext) : list Shape :=
  shape <$> nodes ctx.

Definition shapeAt (r : option NodeId) (ctx : AudioContext) : option Shape :=
  match r with
  | Some id => shapes ctx !! id
  | None => None
  end.

(** The references that the methods dereference after [init] point to nodes
    of the right shape, the oscillator runs, and the analyser's array has its
    128 bins. *)
Definition wired (a : Audio.AudioSynthesizer) (ctx : AudioContext) : Prop :=
  shapeAt (Audio.oscillator a) ctx = Some (SOscillator true false) /\
  shapeAt (Audio.gainNode a) ctx = Some SGain /\
  shapeAt (Audio.filter a) ctx = Some SBiquadFilter /\
  shapeAt (Audio.delayNode a) ctx = Some SDelay /\
  shapeAt (Audio.reverbMixNode a) ctx = Some SGain /\
  shapeAt (Audio.analyser a) ctx = Some SAnalyser /\
  exists data, Audio.analyserData a = Some data /\ length data = 128%nat.

Definition graph_ok (a : Audio.AudioSynthesizer) : Prop :=
  Audio.initialized a = true ->
  exists ctx, Audio.audioContext a = Some ctx /\ wired a ctx.

(** Until [init] has run the engine is as constructed, but for the waveform
    preference. *)
Definition pristine (a : Audio.AudioSynthesizer) : Prop :=
  Audio.initialized a = false ->
  a = Audio.set_waveform (Audio.waveform a) Audio.constructor.

(** Every stored parameter is inside its declared range. *)
Definition in_range (a : Audio.AudioSynthesizer) : Prop :=
  50 <= Audio.currentFrequency a <= 2000 /\
  200 <= Audio.filterFrequency a <= 5000 /\
  1 <= Audio.filterQ a <= 20 /\
  0 <= Audio.reverbMix a <= 1 /\
  0 <= Audio.delayTime a <= 0.5.

(** The engine is well formed. *)
Definition audio_inv (a : Audio.AudioSynthesizer) : Prop :=
  in_range a /\ graph_ok a /\ pristine a.

Definition scale_in_range (s : Scene3D.Scene3D) : Prop :=
  0.5 <= Scene3D.currentScale s <= 3.

(** The controller is well formed: its engine is, the scale of its scene is
    in range, and the scene has a mesh. *)
Definition ctl_inv (c : Interaction.InteractionController) : Prop :=
  audio_inv (Interaction.audio c) /\
  scale_in_range (Interaction.scene c) /\
  is_Some (Scene3D.mesh (Interaction.scene c)).

(** One audio context exists once the engine is initialized, none before;
    and an [onClick] is only ever suspended behind a completed [init]. *)
Definition page_inv (p : Interaction.Page) : Prop :=
  ctl_inv (Interaction.controller p) /\
  contextsConstructed (Interaction.window p) =
    (if Audio.initialized (Interaction.audio (Interaction.controller p))
     then 1%nat else 0%nat) /\
  ((0 < Interaction.suspended p)%nat ->
   Audio.initialized (Interaction.audio (Interaction.controller p)) = true).

(** A method [m] that schedules a ramp on nodes of shape [sh]: it returns
    normally on them and leaves the shape alone. *)
Definition ramps_on (m : R -> R -> AudioNode -> Completion AudioNode)
  (sh : Shape) : Prop :=
  forall v t n, shape n = sh ->
    exists n', m v t n = Normal n' /\ shape n' = sh.

(** The fields that a parameter update [upd] has to leave alone. *)
Definition keeps_graph
  (upd : Audio.AudioSynthesizer -> Audio.AudioSynthesizer) : Prop :=
  forall a,
    Audio.initialized (upd a) = Audio.initialized a /\
    Audio.audioContext (upd a) = Audio.audioContext a /\
    Audio.oscillator (upd a) = Audio.oscillator a /\
    Audio.gainNode (upd a) = Audio.gainNode a /\
    Audio.filter (upd a) = Audio.filter a /\
    Audio.delayNode (upd a) = Audio.delayNode a /\
    Audio.reverbMixNode (upd a) = Audio.reverbMixNode a /\
    Audio.analyser (upd a) = Audio.analyser a /\
    Audio.analyserData (upd a) = Audio.analyserData a.

(** What a setter does to the engine: nothing before [init]; afterwards the
    field update [upd], and a context whose nodes kept their shapes and
    whose connections are the same. *)
Definition retuned (upd : Audio.AudioSynthesizer -> Audio.AudioSynthesizer)
  (a a' : Audio.AudioSynthesizer) : Prop :=
  if Audio.initialized a then
    exists ctx ctx',
      Audio.audioContext a = Some ctx /\
      shapes ctx' = shapes ctx /\
      connections ctx' = connections ctx /\
      a' = Audio.set_audioContext (Some ctx') (upd a)
  else a' = a.

(** The graph that [init] builds, node by node in the order of creation,
    and its connections in the order they are made. Node 12 is the local
    [finalMix]. *)
Definition builtShapes : list Shape :=
  [SDestination; SOscillator true false; SGain; SBiquadFilter; SDelay;
   SGain; SGain; SConvolver; SGain; SGain; SAnalyser; SGain; SGain].

Definition builtConnections : list (NodeId * NodeId) :=
  [(1, 2); (2, 3); (3, 4); (4, 5); (5, 4); (4, 6); (3, 9); (6, 9); (9, 7);
   (7, 8); (9, 12); (8, 12); (12, 10); (10, 11); (11, 0)]%nat.

(** [a'] differs from [a] only in that it is initialized and holds a graph. *)
Definition same_settings (a a' : Audio.AudioSynthesizer) : Prop :=
  Audio.isPlaying a' = Audio.isPlaying a /\
  Audio.baseFrequency a' = Audio.baseFrequency a /\
  Audio.currentFrequency a' = Audio.currentFrequency a /\
  Audio.filterFrequency a' = Audio.filterFrequency a /\
  Audio.filterQ a' = Audio.filterQ a /\
  Audio.reverbMix a' = Audio.reverbMix a /\
  Audio.delayTime a' = Audio.delayTime a /\
  Audio.waveform a' = Audio.waveform a.

(** The context after the oscillator [old], which held [Oscillator ty f true
    false], was swapped for a new one of type [type] at frequency [freq],
    connected to [gain]. *)
Definition swapped (type : Waveform) (freq : R) (old gain : NodeId)
  (ty : Waveform) (f : AudioParam) (ctx : AudioContext) : AudioContext :=
  let new := length (nodes ctx) in
  setNode new (Oscillator type (param freq) true false)
    (connect new gain
       (create (Oscillator type (param freq) false false)
          (setNode old (Oscillator ty f true true) (disconnect old ctx))).1).

(** The sum that the loop of [getAudioLevel] accumulates. *)
Definition sumBytes (data : list byte) : R :=
  fold_left (fun sum b => sum + Audio.byteValue b) data 0.

(** The scene keeps its scale in range and always has a mesh. *)
Definition scene_inv (s : Scene3D.Scene3D) : Prop :=
  scale_in_range s /\ is_Some (Scene3D.mesh s).

(** A handler that always returns, keeps the controller well formed and
    does not initialize the engine. *)
Definition steady (h : InteractionController -> Completion InteractionController)
  : Prop :=
  forall c, ctl_inv c ->
    exists c', h c = Normal c' /\ ctl_inv c' /\
               Audio.initialized (audio c') = Audio.initialized (audio c).

(** The page after the events [evs], in order; an event whose handler raises
    is skipped. *)
Definition after (evs : list Main.Event) (p : Page) : Page :=
  fold_left
    (fun p ev => match Main.handle ev p with Normal p' => p' | Throw _ => p end)
    evs p.

(** An event that can happen in every state of the page. *)
Definition always_enabled (ev : Main.Event) : Prop :=
  forall p, Main.enabled ev p.

(** A freshly loaded page, and the same page after a first click. *)
Definition loaded : Page := Main.load (48 * 1000) (fun _ => 0.5) "".
Definition playing : Page := after [Main.click] loaded.

Definition canvasRect : DOMRect :=
  {| left := 100; top := 50; width := 800; height := 600 |}.

(** A drag in progress on the playing page: pressed at (300, 200), moved to
    (700, 350). *)
Definition dragging : Page :=
  after [Main.mousedown {| clientX := 300; clientY := 200 |};
         Main.mousemove {| clientX := 700; clientY := 350 |} canvasRect]
    playing.

(** An application on page [p] before its first frame: the frame clock at 0
    and a stage as constructed, its cloud made from draws that are all
    0.5. *)
Definition opened (p : Page) : Rendering.App :=
  {| Rendering.lastTime := 0; Rendering.interaction := controller p;
     Rendering.stage := Rendering.constructor (fun _ => 0.5) 0 |}.

(** What [setWaveform kind] does to an initialized engine [a], giving [a']:
    a new node [new] is created, an oscillator of type [kind] at the stored
    frequency, started; the old oscillator [old] is stopped; every other
    node is as before; the connections are those that did not leave the old
    oscillator, plus one from the new oscillator to the gain node; the
    fields of the engine are as before, but for the waveform, the reference
    to the oscillator and the context. *)
Definition oscillator_replaced (kind : Waveform)
  (a a' : Audio.AudioSynthesizer) : Prop :=
  exists ctx ctx' old new gain ty f,
    Audio.audioContext a = Some ctx /\
    Audio.oscillator a = Some old /\
    Audio.gainNode a = Some gain /\
    a' = Audio.set_audioContext (Some ctx')
           (Audio.set_oscillator (Some new) (Audio.set_waveform kind a)) /\
    nodes ctx !! new = None /\
    nodes ctx' !! new
    = Some (Oscillator kind (param (Audio.currentFrequency a)) true false) /\
    nodes ctx !! old = Some (Oscillator ty f true false) /\
    nodes ctx' !! old = Some (Oscillator ty f true true) /\
    (forall id, id <> old -> id <> new -> nodes ctx' !! id = nodes ctx !! id) /\
    (exists g, nodes ctx' !! gain = Some (Gain g)) /\
    (forall e, e ∈ connections ctx' <->
               e = (new, gain) \/ (e ∈ connections ctx /\ e.1 <> old)) /\
    sampleRate ctx' = sampleRate ctx /\
    currentTime ctx' = currentTime ctx.

(** Used to count the oscillators of a context. *)
Definition is_oscillator (n : AudioNode) : bool :=
  match n with
  | Oscillator _ _ _ _ => true
  | _ => false
  end.

(** A setter that stores the clamp of its argument in [field]: a value below
    the range is stored as the lower bound, one above as the upper bound,
    and the call returns normally in every case. *)
Definition stores_clamped
  (setter : R -> Audio.AudioSynthesizer -> Completion Audio.AudioSynthesizer)
  (field : Audio.AudioSynthesizer -> R) (lo hi : R)
  (a : Audio.AudioSynthesizer) : Prop :=
  forall v,
    exists a',
      setter v a = Normal a' /\
      field a' = clamp lo hi v /\
      lo <= field a' <= hi /\
      (v <= lo -> field a' = lo) /\
      (hi <= v -> field a' = hi).

(** The arithmetic mean of the bins, by the book: their sum over their
    number. *)
Definition mean (bins : list byte) : R :=
  foldr (fun b s => Audio.byteValue b + s) 0 bins / INR (length bins).

(** ** The engine on its own

    One thing that can happen to the engine: a call of one of its methods,
    by the controller or by anybody else, or time passing on its clock. *)
Inductive engine_step
  : Audio.AudioSynthesizer -> Audio.AudioSynthesizer -> Prop :=
| engine_call call w w' a a' :
    Main.callAudio call w a = Normal (w', a') -> engine_step a a'
| engine_elapse dt a :
    0 <= dt -> engine_step a (Main.elapse dt a).

(** The value an [AudioParam] is heading for: the target of the ramp that
    was scheduled last, or its [value] when none was. *)
Definition settled (p : AudioParam) : R :=
  match last (ramps p) with
  | Some (target, _) => target
  | None => value p
  end.

(** The ramps of a parameter are in the order of their end times, and none
    ends before time 0 or later than [d] after [now]. *)
Definition chronological (d now : R) (p : AudioParam) : Prop :=
  StronglySorted (fun e1 e2 : R * R => e1.2 <= e2.2) (ramps p) /\
  Forall (fun e : R * R => 0 <= e.2 <= now + d) (ramps p).

(** The parameter is heading for [v], on ramps of duration [d]. *)
Definition tracks (v d now : R) (p : AudioParam) : Prop :=
  settled p = v /\ chronological d now p.

(** The graph of an initialized engine [a], with [osc] its current
    oscillator: the eleven nodes that [init] created after the oscillator
    are where [init] put them; the six automated parameters head for the
    stored values of the engine; the five fixed gains and the analyser are
    as [init] left them; every other node is an oscillator that was stopped;
    and the connections are those of [init], with the current oscillator in
    the place of the first. *)
Record layout (a : Audio.AudioSynthesizer) (ctx : AudioContext)
  (osc : NodeId) : Prop := {
  lay_oscillator : Audio.oscillator a = Some osc;
  lay_gainNode : Audio.gainNode a = Some 2%nat;
  lay_filter : Audio.filter a = Some 3%nat;
  lay_delayNode : Audio.delayNode a = Some 4%nat;
  lay_delayFeedback : Audio.delayFeedback a = Some 5%nat;
  lay_delayMix : Audio.delayMix a = Some 6%nat;
  lay_reverb : Audio.reverb a = Some 7%nat;
  lay_reverbMixNode : Audio.reverbMixNode a = Some 8%nat;
  lay_dryGain : Audio.dryGain a = Some 9%nat;
  lay_analyser : Audio.analyser a = Some 10%nat;
  lay_masterGain : Audio.masterGain a = Some 11%nat;
  lay_data :
    exists data, Audio.analyserData a = Some data /\ length data = 128%nat;
  lay_osc_id : osc = 1%nat \/ (13 <= osc)%nat;
  lay_time : 0 <= currentTime ctx;
  lay_node0 : nodes ctx !! 0%nat = Some Destination;
  lay_node_osc :
    exists f, nodes ctx !! osc = Some (Oscillator (Audio.waveform a) f true false) /\
              tracks (Audio.currentFrequency a) 0.05 (currentTime ctx) f;
  lay_node2 :
    exists g, nodes ctx !! 2%nat = Some (Gain g) /\
              tracks (if Audio.isPlaying a then 0.5 else 0) 0.1
                (currentTime ctx) g;
  lay_node3 :
    exists f q, nodes ctx !! 3%nat = Some (BiquadFilter f q) /\
                tracks (Audio.filterFrequency a) 0.05 (currentTime ctx) f /\
                tracks (Audio.filterQ a) 0.05 (currentTime ctx) q;
  lay_node4 :
    exists d, nodes ctx !! 4%nat = Some (Delay d) /\
              tracks (Audio.delayTime a) 0.05 (currentTime ctx) d;
  lay_node5 : nodes ctx !! 5%nat = Some (Gain (param 0.4));
  lay_node6 : nodes ctx !! 6%nat = Some (Gain (param 0.3));
  lay_node7 : exists b, nodes ctx !! 7%nat = Some (Convolver (Some b));
  lay_node8 :
    exists g, nodes ctx !! 8%nat = Some (Gain g) /\
              tracks (Audio.reverbMix a) 0.05 (currentTime ctx) g;
  lay_node9 : nodes ctx !! 9%nat = Some (Gain (param (1 - 0.3)));
  lay_node10 : nodes ctx !! 10%nat = Some (Analyser 256);
  lay_node11 : nodes ctx !! 11%nat = Some (Gain (param 0.3));
  lay_node12 : nodes ctx !! 12%nat = Some (Gain (param 1));
  lay_stopped :
    forall i n, nodes ctx !! i = Some n -> i <> osc ->
      i = 1%nat \/ (13 <= i)%nat ->
      exists ty f, n = Oscillator ty f true true;
  lay_connections :
    forall e, e ∈ connections ctx <->
              e = (osc, 2%nat) \/ e ∈ tail builtConnections;
  lay_NoDup : NoDup (connections ctx)
}.

(** The engine before and after [init]. *)
Definition engine_layout (a : Audio.AudioSynthesizer) : Prop :=
  pristine a /\
  (Audio.initialized a = true ->
   exists ctx osc, Audio.audioContext a = Some ctx /\ layout a ctx osc).

(** The node behind a reference of the engine. *)
Definition nodeOf (r : option NodeId) (ctx : AudioContext) : option AudioNode :=
  match r with
  | Some id => nodes ctx !! id
  | None => None
  end.

(** The call changed the context of the engine in one place: the node behind
    [r] is replaced by what the ramp method [m] makes of it, for the target
    [target] and the end time [duration] after the current time. *)
Definition schedules (r : option NodeId)
  (m : R -> R -> AudioNode -> Completion AudioNode) (target duration : R)
  (a a' : Audio.AudioSynthesizer) : Prop :=
  exists ctx id n n',
    Audio.audioContext a = Some ctx /\
    r = Some id /\
    nodes ctx !! id = Some n /\
    m target (currentTime ctx + duration) n = Normal n' /\
    Audio.audioContext a' = Some (setNode id n' ctx).

(** The keyboard shortcuts of [onKeyDown]. *)
Definition waveKeys : list (string * Waveform) :=
  [("q", sine); ("w", square); ("e", sawtooth); ("r", triangle)]%string.

Definition shapeKeys : list (string * (string * Scene3D.Geometry)) :=
  [("1", ("icosahedron", Scene3D.Icosahedron));
   ("2", ("torus", Scene3D.Torus));
   ("3", ("octahedron", Scene3D.Octahedron));
   ("4", ("dodecahedron", Scene3D.Dodecahedron))]%string.

Definition boundKeys : list string :=
  ["1"; "2"; "3"; "4"; "q"; "w"; "e"; "r"; " "]%string.

(** A pointer move is [sized] when the canvas it reports has a width and a
    height. [onMouseMove] divides by both: only then are the position and
    the drag distance it computes numbers of the model. *)
Definition sized (ev : Main.Event) : Prop :=
  match ev with
  | Main.mousemove _ rect | Main.touchmove _ rect =>
      width rect <> 0 /\ height rect <> 0
  | _ => True
  end.

(** The pages that events on a canvas with a size, and calls with real
    arguments, lead to. *)
Inductive reachable_sized : Page -> Prop :=
| reachable_sized_load hardwareSampleRate random status :
    reachable_sized (Main.load hardwareSampleRate random status)
| reachable_sized_step p ev p' :
    reachable_sized p -> Main.enabled ev p -> sized ev ->
    Main.handle ev p = Normal p' -> reachable_sized p'.

(** ** Arithmetic of the clamp *)

Lemma clamp_range lo hi x : lo <= hi -> lo <= clamp lo hi x <= hi.
Proof.
  intros Hle. unfold clamp, Rmax, Rmin.
  repeat destruct Rle_dec; lra.
Qed.

Lemma clamp_inside lo hi x : lo <= x <= hi -> clamp lo hi x = x.
Proof.
  intros [Hlo Hhi]. unfold clamp, Rmax, Rmin.
  repeat destruct Rle_dec; lra.
Qed.

Lemma clamp_below lo hi x : lo <= hi -> x <= lo -> clamp lo hi x = lo.
Proof.
  intros Hle Hx. unfold clamp, Rmax, Rmin.
  repeat destruct Rle_dec; lra.
Qed.

Lemma clamp_above lo hi x : lo <= hi -> hi <= x -> clamp lo hi x = hi.
Proof.
  intros Hle Hx. unfold clamp, Rmax, Rmin.
  repeat destruct Rle_dec; lra.
Qed.

(** ** Nodes and their shapes *)

Lemma bind_Normal {A B} (c : Completion A) (f : A -> Completion B) b :
  c ≫= f = Normal b -> exists a, c = Normal a /\ f a = Normal b.
Proof. destruct c as [a|e]; simpl; [eauto | discriminate]. Qed.

Lemma shapes_setNode id n n' ctx :
  nodes ctx !! id = Some n -> shape n' = shape n ->
  shapes (setNode id n' ctx) = shapes ctx.
Proof.
  intros Hn Hs. unfold shapes, setNode; simpl.
  rewrite list_fmap_insert, Hs.
  apply list_insert_id. by rewrite list_lookup_fmap, Hn.
Qed.

Lemma shapeAt_same r ctx ctx' :
  shapes ctx' = shapes ctx -> shapeAt r ctx' = shapeAt r ctx.
Proof. intros H. destruct r; simpl; [by rewrite H | done]. Qed.

Lemma wired_same a ctx ctx' :
  shapes ctx' = shapes ctx -> wired a ctx -> wired a ctx'.
Proof.
  intros H. unfold wired. by rewrite !(shapeAt_same _ _ _ H).
Qed.

Lemma shapeAt_Some r ctx sh :
  shapeAt r ctx = Some sh ->
  exists id n, r = Some id /\ nodes ctx !! id = Some n /\ shape n = sh.
Proof.
  destruct r as [id|]; simpl; [|discriminate].
  unfold shapes. rewrite list_lookup_fmap.
  destruct (nodes ctx !! id) as [n|] eqn:Hn; simpl; [|discriminate].
  intros [= <-]. eauto.
Qed.

Lemma update_ok id n n' m ctx :
  nodes ctx !! id = Some n -> m n = Normal n' ->
  Audio.update (Some id) m ctx = Normal (setNode id n' ctx).
Proof.
  intros Hn Hm. unfold Audio.update, deref. rewrite Hn. simpl. by rewrite Hm.
Qed.

Lemma ramp_ok r m v dt a ctx sh :
  Audio.audioContext a = Some ctx -> shapeAt r ctx = Some sh ->
  ramps_on m sh ->
  exists ctx', Audio.ramp r m v dt a
                 = Normal (Audio.set_audioContext (Some ctx') a) /\
               shapes ctx' = shapes ctx /\
               connections ctx' = connections ctx.
Proof.
  intros Hctx Hsh Hm.
  destruct (shapeAt_Some _ _ _ Hsh) as (id & n & -> & Hn & Hs).
  destruct (Hm v (currentTime ctx + dt) n Hs) as (n' & Hn' & Hs').
  exists (setNode id n' ctx). split; [|split].
  - unfold Audio.ramp, Audio.context. rewrite Hctx. simpl.
    by rewrite (update_ok _ _ _ _ _ Hn Hn').
  - apply (shapes_setNode _ n); congruence.
  - done.
Qed.

Lemma rampFrequency_oscillator st sp : ramps_on rampFrequency (SOscillator st sp).
Proof. intros v t [] Hs; try discriminate. simpl in *. eauto. Qed.

Lemma rampFrequency_filter : ramps_on rampFrequency SBiquadFilter.
Proof. intros v t [] Hs; try discriminate. simpl in *. eauto. Qed.

Lemma rampQ_filter : ramps_on rampQ SBiquadFilter.
Proof. intros v t [] Hs; try discriminate. simpl in *. eauto. Qed.

Lemma rampGain_gain : ramps_on rampGain SGain.
Proof. intros v t [] Hs; try discriminate. simpl in *. eauto. Qed.

Lemma rampDelayTime_delay : ramps_on rampDelayTime SDelay.
Proof. intros v t [] Hs; try discriminate. simpl in *. eauto. Qed.

(** ** The setters of the engine *)

Lemma wired_keeps upd a ctx :
  keeps_graph upd -> wired a ctx -> wired (upd a) ctx.
Proof.
  intros Hk Hw. unfold wired.
  destruct (Hk a) as (_ & _ & -> & -> & -> & -> & -> & -> & ->).
  exact Hw.
Qed.

(** The common body of [start], [stop] and the five parameter setters. *)
Lemma tune_spec upd (r : Audio.AudioSynthesizer -> option NodeId) m sh v dt a :
  keeps_graph upd -> graph_ok a ->
  (forall ctx, wired a ctx -> shapeAt (r (upd a)) ctx = Some sh) ->
  ramps_on m sh ->
  exists a',
    (if negb (Audio.initialized a) then mret a
     else Audio.ramp (r (upd a)) m v dt (upd a)) = Normal a' /\
    retuned upd a a'.
Proof.
  intros Hk Hg Hr Hm. unfold retuned.
  destruct (Audio.initialized a) eqn:Hi; simpl.
  - destruct (Hg Hi) as (ctx & Hctx & Hw).
    assert (Hctx' : Audio.audioContext (upd a) = Some ctx).
    { destruct (Hk a) as (_ & -> & _). exact Hctx. }
    destruct (ramp_ok _ m v dt _ _ _ Hctx' (Hr _ Hw) Hm) as (ctx' & -> & Hs & Hc).
    eauto 10.
  - eauto.
Qed.

Lemma retuned_inv upd a a' :
  retuned upd a a' -> keeps_graph upd -> audio_inv a ->
  (in_range a -> in_range (upd a)) ->
  audio_inv a' /\ Audio.initialized a' = Audio.initialized a.
Proof.
  unfold retuned. intros Hr Hk (Hin & Hg & Hp) Hupd.
  destruct (Audio.initialized a) eqn:Hi.
  - destruct Hr as (ctx & ctx' & Hctx & Hs & _ & ->).
    destruct (Hg Hi) as (ctx0 & Hctx0 & Hw).
    assert (ctx0 = ctx) as -> by congruence.
    assert (Hi' : Audio.initialized (upd a) = true).
    { destruct (Hk a) as (-> & _). exact Hi. }
    split; [split; [|split] |]; simpl.
    + exact (Hupd Hin).
    + intros _. exists ctx'. split; [done|].
      apply (wired_same _ ctx); [done|]. by apply (wired_keeps upd).
    + intros Hf. simpl in Hf. congruence.
    + exact Hi'.
  - subst a'. by rewrite Hi.
Qed.

Ltac keeps := intros ?; repeat split; reflexivity.

Lemma start_spec a :
  graph_ok a ->
  exists a', Audio.start a = Normal a' /\
             retuned (Audio.set_isPlaying true) a a'.
Proof.
  intros Hg.
  apply (tune_spec _ Audio.gainNode rampGain SGain); [keeps | done | | apply rampGain_gain].
  by intros ctx (_ & H & _).
Qed.

Lemma stop_spec a :
  graph_ok a ->
  exists a', Audio.stop a = Normal a' /\
             retuned (Audio.set_isPlaying false) a a'.
Proof.
  intros Hg.
  apply (tune_spec _ Audio.gainNode rampGain SGain); [keeps | done | | apply rampGain_gain].
  by intros ctx (_ & H & _).
Qed.

Lemma setFrequency_spec freq a :
  graph_ok a ->
  exists a', Audio.setFrequency freq a = Normal a' /\
             retuned (Audio.set_currentFrequency (clamp 50 2000 freq)) a a'.
Proof.
  intros Hg.
  apply (tune_spec _ Audio.oscillator rampFrequency (SOscillator true false));
    [keeps | done | | apply rampFrequency_oscillator].
  by intros ctx (H & _).
Qed.

Lemma setFilterFrequency_spec freq a :
  graph_ok a ->
  exists a', Audio.setFilterFrequency freq a = Normal a' /\
             retuned (Audio.set_filterFrequency (clamp 200 5000 freq)) a a'.
Proof.
  intros Hg.
  apply (tune_spec _ Audio.filter rampFrequency SBiquadFilter);
    [keeps | done | | apply rampFrequency_filter].
  by intros ctx (_ & _ & H & _).
Qed.

Lemma setFilterQ_spec q a :
  graph_ok a ->
  exists a', Audio.setFilterQ q a = Normal a' /\
             retuned (Audio.set_filterQ (clamp 1 20 q)) a a'.
Proof.
  intros Hg.
  apply (tune_spec _ Audio.filter rampQ SBiquadFilter);
    [keeps | done | | apply rampQ_filter].
  by intros ctx (_ & _ & H & _).
Qed.

Lemma setReverbMix_spec mix a :
  graph_ok a ->
  exists a', Audio.setReverbMix mix a = Normal a' /\
             retuned (Audio.set_reverbMix (clamp 0 1 mix)) a a'.
Proof.
  intros Hg.
  apply (tune_spec _ Audio.reverbMixNode rampGain SGain);
    [keeps | done | | apply rampGain_gain].
  by intros ctx (_ & _ & _ & _ & H & _).
Qed.

Lemma setDelayTime_spec time a :
  graph_ok a ->
  exists a', Audio.setDelayTime time a = Normal a' /\
             retuned (Audio.set_delayTime (clamp 0 0.5 time)) a a'.
Proof.
  intros Hg.
  apply (tune_spec _ Audio.delayNode rampDelayTime SDelay);
    [keeps | done | | apply rampDelayTime_delay].
  by intros ctx (_ & _ & _ & H & _).
Qed.

Lemma setFrequencyNormalized_spec value a :
  graph_ok a ->
  exists a', Audio.setFrequencyNormalized value a = Normal a' /\
             retuned (Audio.set_currentFrequency
                        (clamp 50 2000 (110 * Rpower (1760 / 110) value))) a a'.
Proof. apply setFrequency_spec. Qed.

(** ** [init] *)

Lemma init_again w a :
  Audio.initialized a = true -> Audio.init w a = Normal (w, a).
Proof. intros Hi. unfold Audio.init. by rewrite Hi. Qed.

Lemma init_first w a :
  Audio.initialized a = false ->
  exists w' a' ctx,
    Audio.init w a = Normal (w', a') /\
    contextsConstructed w' = S (contextsConstructed w) /\
    Audio.initialized a' = true /\
    same_settings a a' /\
    Audio.audioContext a' = Some ctx /\
    shapes ctx = builtShapes /\
    connections ctx = builtConnections /\
    nodes ctx !! 1%nat
      = Some (Oscillator (Audio.waveform a)
                (param (Audio.currentFrequency a)) true false) /\
    wired a' ctx.
Proof.
  intros Hi. unfold Audio.init. rewrite Hi. cbn.
  do 3 eexists. split; [reflexivity|].
  cbn. unfold same_settings, wired. cbn.
  repeat split; try reflexivity. by eexists.
Qed.

(** ** [setWaveform] *)

Lemma shape_running n :
  shape n = SOscillator true false -> exists ty f, n = Oscillator ty f true false.
Proof. destruct n; simpl; intros [=]; subst; eauto. Qed.

Lemma setWaveform_before type a :
  Audio.initialized a = false ->
  Audio.setWaveform type a = Normal (Audio.set_waveform type a).
Proof. intros Hi. unfold Audio.setWaveform. simpl. by rewrite Hi. Qed.

Lemma setWaveform_after type a :
  Audio.initialized a = true -> graph_ok a ->
  exists ctx old gain ty f,
    Audio.audioContext a = Some ctx /\
    Audio.oscillator a = Some old /\
    Audio.gainNode a = Some gain /\
    nodes ctx !! old = Some (Oscillator ty f true false) /\
    shapes ctx !! gain = Some SGain /\
    Audio.setWaveform type a
    = Normal (Audio.set_audioContext
                (Some (swapped type (Audio.currentFrequency a) old gain ty f ctx))
                (Audio.set_oscillator (Some (length (nodes ctx)))
                   (Audio.set_waveform type a))).
Proof.
  intros Hi Hg. destruct (Hg Hi) as (ctx & Hctx & Hw).
  destruct Hw as (Ho & Hgn & _).
  destruct (shapeAt_Some _ _ _ Ho) as (old & n & Hold & Hn & Hs).
  destruct (shape_running _ Hs) as (ty & f & ->).
  destruct (shapeAt_Some _ _ _ Hgn) as (gain & g & Hgain & Hgl & Hgs).
  exists ctx, old, gain, ty, f.
  assert (Hne : gain <> old).
  { intros ->. rewrite Hn in Hgl. injection Hgl as <-. discriminate. }
  assert (Hlt : (gain < length (nodes ctx))%nat) by (by eapply lookup_lt_Some).
  repeat split; try done.
  - rewrite Hgain in Hgn. exact Hgn.
  - unfold Audio.setWaveform, Audio.context. simpl. rewrite Hi, Hctx, Hold, Hgain.
    simpl. rewrite Hn. simpl.
    rewrite (update_ok old (Oscillator ty f true false)
               (Oscillator ty f true true)); [|exact Hn|reflexivity].
    simpl.
    rewrite lookup_app_l by (by rewrite length_insert).
    rewrite list_lookup_insert_ne by done. rewrite Hgl. simpl.
    rewrite length_insert.
    rewrite (update_ok (length (nodes ctx))
               (Oscillator type (param (Audio.currentFrequency a)) false false)
               (Oscillator type (param (Audio.currentFrequency a)) true false));
      [reflexivity| |reflexivity].
    simpl. apply list_lookup_middle. by rewrite length_insert.
Qed.

Lemma nodes_swapped type freq old gain ty f ctx :
  nodes (swapped type freq old gain ty f ctx)
  = <[old := Oscillator ty f true true]> (nodes ctx)
    ++ [Oscillator type (param freq) true false].
Proof.
  unfold swapped. simpl.
  rewrite insert_app_r_alt by (by rewrite length_insert).
  by rewrite length_insert, Nat.sub_diag.
Qed.

Lemma shapeAt_swapped r sh type freq old gain ty f ctx :
  shapeAt r ctx = Some sh -> sh <> SOscillator true false ->
  nodes ctx !! old = Some (Oscillator ty f true false) ->
  shapeAt r (swapped type freq old gain ty f ctx) = Some sh.
Proof.
  intros Hr Hsh Hold.
  destruct (shapeAt_Some _ _ _ Hr) as (id & n & -> & Hn & Hs).
  assert (id <> old).
  { intros ->. rewrite Hold in Hn. injection Hn as <-. simpl in Hs. congruence. }
  simpl. unfold shapes. rewrite nodes_swapped, list_lookup_fmap.
  rewrite lookup_app_l.
  - rewrite list_lookup_insert_ne by done. by rewrite Hn; simpl; rewrite Hs.
  - rewrite length_insert. by eapply lookup_lt_Some.
Qed.

Lemma setWaveform_inv type a :
  audio_inv a ->
  exists a', Audio.setWaveform type a = Normal a' /\
             audio_inv a' /\
             Audio.initialized a' = Audio.initialized a /\
             Audio.isPlaying a' = Audio.isPlaying a.
Proof.
  intros (Hin & Hg & Hp).
  destruct (Audio.initialized a) eqn:Hi.
  - destruct (setWaveform_after type a Hi Hg)
      as (ctx & old & gain & ty & f & Hctx & Hold & Hgain & Hn & Hgs & ->).
    eexists. split; [reflexivity|]. simpl.
    split; [|done]. split; [exact Hin|]. split.
    + intros _. eexists. split; [reflexivity|].
      destruct (Hg Hi) as (ctx0 & Hctx0 & Hw).
      assert (ctx0 = ctx) as -> by congruence.
      destruct Hw as (Ho & Hgn & Hf & Hd & Hr & Han & Hdata).
      unfold wired; simpl.
      repeat split;
        try (apply shapeAt_swapped; [assumption | discriminate | assumption]).
      * unfold shapes. rewrite nodes_swapped, list_lookup_fmap.
        rewrite list_lookup_middle by (by rewrite length_insert). done.
      * exact Hdata.
    + intros Hf. simpl in Hf. congruence.
  - rewrite (setWaveform_before type a Hi).
    eexists. split; [reflexivity|]. simpl.
    split; [|done]. split; [exact Hin|]. split.
    + intros Hf. simpl in Hf. congruence.
    + intros _. rewrite (Hp Hi). reflexivity.
Qed.

(** ** [getAudioLevel] *)

Lemma byteValue_range b : 0 <= Audio.byteValue b <= 255.
Proof.
  unfold Audio.byteValue.
  pose proof (Byte.to_N_bounded b) as Hb.
  split.
  - apply IZR_le. lia.
  - apply IZR_le. lia.
Qed.

Lemma fold_bytes_range data acc :
  acc <= fold_left (fun sum b => sum + Audio.byteValue b) data acc
      <= acc + 255 * INR (length data).
Proof.
  revert acc. induction data as [|b data IH]; intros acc.
  - simpl. lra.
  - change (length (b :: data)) with (S (length data)). rewrite S_INR.
    simpl fold_left. pose proof (byteValue_range b). specialize (IH (acc + Audio.byteValue b)).
    lra.
Qed.

Lemma level_range data :
  (0 < length data)%nat ->
  0 <= sumBytes data / INR (length data) / 255 <= 1.
Proof.
  intros Hlen. unfold sumBytes.
  pose proof (fold_bytes_range data 0) as [Hlo Hhi].
  assert (Hn : 0 < INR (length data)) by (by apply lt_0_INR).
  set (s := fold_left _ data 0) in *. set (n := INR (length data)) in *.
  assert (H0 : 0 <= s / n).
  { apply Rmult_le_pos; [lra|]. left. by apply Rinv_0_lt_compat. }
  assert (H1 : s / n <= 255).
  { apply (Rmult_le_reg_r n); [lra|].
    unfold Rdiv. rewrite Rmult_assoc, Rinv_l by lra. lra. }
  lra.
Qed.

Lemma length_getByteFrequencyData spectrum array :
  length (getByteFrequencyData spectrum array) = length array.
Proof.
  unfold getByteFrequencyData.
  rewrite length_app, length_take, length_drop. lia.
Qed.

Lemma getAudioLevel_before spectrum a :
  Audio.initialized a = false ->
  Audio.getAudioLevel spectrum a = Normal (0, a).
Proof. intros Hi. unfold Audio.getAudioLevel. by rewrite Hi. Qed.

Lemma getAudioLevel_after spectrum a :
  Audio.initialized a = true -> graph_ok a ->
  exists array,
    Audio.analyserData a = Some array /\ length array = 128%nat /\
    let data := getByteFrequencyData spectrum array in
    Audio.getAudioLevel spectrum a
    = Normal (sumBytes data / INR (length data) / 255,
              Audio.set_analyserData (Some data) a).
Proof.
  intros Hi Hg. destruct (Hg Hi) as (ctx & Hctx & Hw).
  destruct Hw as (_ & _ & _ & _ & _ & Han & array & Hdata & Hlen).
  destruct (shapeAt_Some _ _ _ Han) as (id & n & Hid & Hn & Hs).
  exists array. repeat split; try done.
  unfold Audio.getAudioLevel, Audio.context, deref.
  rewrite Hi, Hid, Hctx, Hdata. simpl. rewrite Hn. simpl.
  destruct n; try discriminate. reflexivity.
Qed.

(** ** Every method keeps the engine well formed *)

Lemma retuned_after upd a a' :
  Audio.initialized a = true -> retuned upd a a' ->
  exists ctx', a' = Audio.set_audioContext (Some ctx') (upd a).
Proof.
  unfold retuned. intros ->. intros (ctx & ctx' & _ & _ & _ & ->). eauto.
Qed.

Lemma retuned_before upd a a' :
  Audio.initialized a = false -> retuned upd a a' -> a' = a.
Proof. unfold retuned. by intros ->. Qed.

Lemma setter_inv (op : Audio.AudioSynthesizer -> Completion Audio.AudioSynthesizer)
  upd a :
  (graph_ok a -> exists a', op a = Normal a' /\ retuned upd a a') ->
  keeps_graph upd -> (in_range a -> in_range (upd a)) -> audio_inv a ->
  exists a', op a = Normal a' /\ retuned upd a a' /\
             audio_inv a' /\ Audio.initialized a' = Audio.initialized a.
Proof.
  intros Hop Hk Hin Ha.
  destruct (Hop (proj1 (proj2 Ha))) as (a' & Hres & Hret).
  destruct (retuned_inv _ _ _ Hret Hk Ha Hin) as (Ha' & Hi).
  eauto.
Qed.

Ltac in_range_clamp :=
  unfold in_range; simpl; intros (? & ? & ? & ? & ?);
  repeat split; try lra; apply clamp_range; lra.

Lemma start_inv a :
  audio_inv a ->
  exists a', Audio.start a = Normal a' /\
             retuned (Audio.set_isPlaying true) a a' /\
             audio_inv a' /\ Audio.initialized a' = Audio.initialized a.
Proof.
  apply setter_inv; [apply start_spec | keeps | done].
Qed.

Lemma stop_inv a :
  audio_inv a ->
  exists a', Audio.stop a = Normal a' /\
             retuned (Audio.set_isPlaying false) a a' /\
             audio_inv a' /\ Audio.initialized a' = Audio.initialized a.
Proof.
  apply setter_inv; [apply stop_spec | keeps | done].
Qed.

Lemma setFrequency_inv freq a :
  audio_inv a ->
  exists a', Audio.setFrequency freq a = Normal a' /\
             retuned (Audio.set_currentFrequency (clamp 50 2000 freq)) a a' /\
             audio_inv a' /\ Audio.initialized a' = Audio.initialized a.
Proof.
  apply setter_inv; [apply setFrequency_spec | keeps | in_range_clamp].
Qed.

Lemma setFilterFrequency_inv freq a :
  audio_inv a ->
  exists a', Audio.setFilterFrequency freq a = Normal a' /\
             retuned (Audio.set_filterFrequency (clamp 200 5000 freq)) a a' /\
             audio_inv a' /\ Audio.initialized a' = Audio.initialized a.
Proof.
  apply setter_inv; [apply setFilterFrequency_spec | keeps | in_range_clamp].
Qed.

Lemma setFilterQ_inv q a :
  audio_inv a ->
  exists a', Audio.setFilterQ q a = Normal a' /\
             retuned (Audio.set_filterQ (clamp 1 20 q)) a a' /\
             audio_inv a' /\ Audio.initialized a' = Audio.initialized a.
Proof.
  apply setter_inv; [apply setFilterQ_spec | keeps | in_range_clamp].
Qed.

Lemma setReverbMix_inv mix a :
  audio_inv a ->
  exists a', Audio.setReverbMix mix a = Normal a' /\
             retuned (Audio.set_reverbMix (clamp 0 1 mix)) a a' /\
             audio_inv a' /\ Audio.initialized a' = Audio.initialized a.
Proof.
  apply setter_inv; [apply setReverbMix_spec | keeps | in_range_clamp].
Qed.

Lemma setDelayTime_inv time a :
  audio_inv a ->
  exists a', Audio.setDelayTime time a = Normal a' /\
             retuned (Audio.set_delayTime (clamp 0 0.5 time)) a a' /\
             audio_inv a' /\ Audio.initialized a' = Audio.initialized a.
Proof.
  apply setter_inv; [apply setDelayTime_spec | keeps | in_range_clamp].
Qed.

Lemma setFrequencyNormalized_inv value a :
  audio_inv a ->
  exists a', Audio.setFrequencyNormalized value a = Normal a' /\
             retuned (Audio.set_currentFrequency
                        (clamp 50 2000 (110 * Rpower (1760 / 110) value))) a a' /\
             audio_inv a' /\ Audio.initialized a' = Audio.initialized a.
Proof. apply setFrequency_inv. Qed.

Lemma init_inv w a :
  audio_inv a ->
  exists w' a', Audio.init w a = Normal (w', a') /\
                audio_inv a' /\ Audio.initialized a' = true /\
                same_settings a a' /\
                contextsConstructed w'
                = (if Audio.initialized a then contextsConstructed w
                   else S (contextsConstructed w)).
Proof.
  intros Ha. pose proof Ha as (Hin & Hg & Hp).
  destruct (Audio.initialized a) eqn:Hi.
  - rewrite (init_again w a Hi). exists w, a.
    split; [done|]. split; [done|]. split; [done|]. split; [|done].
    by unfold same_settings.
  - destruct (init_first w a Hi)
      as (w' & a' & ctx & -> & Hc & Hi' & Hs & Hctx & _ & _ & _ & Hw).
    exists w', a'.
    split; [done|]. split; [|by split; [|split]].
    split; [|split].
    + unfold in_range in *. destruct Hs as (_ & _ & -> & -> & -> & -> & -> & _).
      exact Hin.
    + intros _. eauto.
    + intros Hf. congruence.
Qed.

Lemma getAudioLevel_inv spectrum a :
  audio_inv a ->
  exists level a', Audio.getAudioLevel spectrum a = Normal (level, a') /\
                   0 <= level <= 1 /\
                   audio_inv a' /\ Audio.initialized a' = Audio.initialized a.
Proof.
  intros Ha. pose proof Ha as (Hin & Hg & Hp).
  destruct (Audio.initialized a) eqn:Hi.
  - destruct (getAudioLevel_after spectrum a Hi Hg) as (array & Hd & Hlen & Hres).
    simpl in Hres. rewrite Hres. do 2 eexists. split; [reflexivity|].
    split; [|split; [|done]].
    + apply level_range. rewrite length_getByteFrequencyData. lia.
    + split; [exact Hin|]. split.
      * intros _. destruct (Hg Hi) as (ctx & Hctx & Hw).
        exists ctx. split; [done|].
        destruct Hw as (? & ? & ? & ? & ? & ? & _).
        unfold wired; simpl. repeat split; try done.
        eexists. split; [reflexivity|].
        rewrite length_getByteFrequencyData. exact Hlen.
      * intros Hf. simpl in Hf. congruence.
  - rewrite (getAudioLevel_before spectrum a Hi).
    do 2 eexists. split; [reflexivity|].
    split; [lra|]. by rewrite Hi.
Qed.

Lemma elapse_inv dt a :
  audio_inv a ->
  audio_inv (Main.elapse dt a) /\
  Audio.initialized (Main.elapse dt a) = Audio.initialized a.
Proof.
  intros (Hin & Hg & Hp). unfold Main.elapse.
  destruct (Audio.audioContext a) as [ctx|] eqn:Hctx; [|done].
  split; [|done]. split; [exact Hin|]. split.
  - intros Hi. simpl in Hi. destruct (Hg Hi) as (ctx0 & Hctx0 & Hw).
    assert (ctx0 = ctx) as -> by congruence.
    eexists. split; [reflexivity|]. exact Hw.
  - intros Hi. simpl in Hi. specialize (Hp Hi). rewrite Hp in Hctx. discriminate.
Qed.

Lemma setRotation_inv x y s : scene_inv s -> scene_inv (Scene3D.setRotation x y s).
Proof. done. Qed.

Lemma setAudioLevel_inv level s :
  scene_inv s -> scene_inv (Scene3D.setAudioLevel level s).
Proof. done. Qed.

Lemma setScale_inv scale s : scene_inv s -> scene_inv (Scene3D.setScale scale s).
Proof.
  intros (Hs & Hm). split; [|done].
  unfold scale_in_range. simpl. apply (clamp_range 0.5 3). lra.
Qed.

Lemma createGeometry_inv type s :
  scene_inv s -> scene_inv (Scene3D.createGeometry type s).
Proof. intros (Hs & Hm). split; [done|]. simpl. eauto. Qed.

Lemma setPosition_inv x y s :
  scene_inv s ->
  scene_inv (Scene3D.setPosition x y s) /\
  exists m, Scene3D.mesh (Scene3D.setPosition x y s) = Some m /\
            Scene3D.positionX m = x /\ Scene3D.positionY m = y.
Proof.
  intros (Hs & [m Hm]). unfold Scene3D.setPosition. rewrite Hm.
  split; [split; [done | simpl; eauto] | simpl; eauto].
Qed.

Lemma onMouseMove_spec e rect c :
  ctl_inv c ->
  let x := (clientX e - left rect) / width rect in
  let y := (clientY e - top rect) / height rect in
  let dragX := (clientX e - dragStartX c) / width rect in
  let dragY := (clientY e - dragStartY c) / height rect in
  exists c',
    onMouseMove e rect c = Normal c' /\
    ctl_inv c' /\
    Audio.initialized (audio c') = Audio.initialized (audio c) /\
    mouseX c' = x /\ mouseY c' = y /\
    (Audio.initialized (audio c) = true ->
     Audio.filterFrequency (audio c') = clamp 200 5000 (200 + x * 4800) /\
     Audio.filterQ (audio c') = clamp 1 20 (1 + y * 19) /\
     (isDragging c = true ->
      Audio.delayTime (audio c') = clamp 0 0.5 (Rabs dragX * 0.5) /\
      Audio.reverbMix (audio c') = clamp 0 1 (Rabs dragY))).
Proof.
  intros (Ha & Hs) x y dragX dragY.
  unfold onMouseMove. simpl. fold x y dragX dragY.
  destruct (setFilterFrequency_inv (200 + x * 4800) _ Ha)
    as (a1 & -> & R1 & I1 & Hi1). simpl.
  destruct (setFilterQ_inv (1 + y * 19) _ I1) as (a2 & -> & R2 & I2 & Hi2).
  simpl.
  destruct (isDragging c) eqn:Hd.
  - destruct (setDelayTime_inv (Rabs dragX * 0.5) _ I2)
      as (a3 & -> & R3 & I3 & Hi3). simpl.
    destruct (setReverbMix_inv (Rabs dragY) _ I3) as (a4 & -> & R4 & I4 & Hi4).
    simpl. eexists. split; [reflexivity|]. simpl.
    split; [|split; [congruence|]].
    { split; [done|]. apply setPosition_inv. by apply setRotation_inv. }
    split; [done|]. split; [done|]. intros Hi.
    rewrite Hi in Hi1. rewrite Hi1 in Hi2. rewrite Hi2 in Hi3.
    destruct (retuned_after _ _ _ Hi R1) as (c1 & ->).
    destruct (retuned_after _ _ _ Hi1 R2) as (c2 & ->).
    destruct (retuned_after _ _ _ Hi2 R3) as (c3 & ->).
    destruct (retuned_after _ _ _ Hi3 R4) as (c4 & ->).
    done.
  - eexists. split; [reflexivity|]. simpl.
    split; [|split; [congruence|]].
    { split; [done|]. by apply setRotation_inv. }
    split; [done|]. split; [done|]. intros Hi.
    rewrite Hi in Hi1.
    destruct (retuned_after _ _ _ Hi R1) as (c1 & ->).
    destruct (retuned_after _ _ _ Hi1 R2) as (c2 & ->).
    done.
Qed.

Lemma onWheel_spec deltaY c :
  ctl_inv c ->
  let scale :=
    clamp 0.5 3 (Scene3D.currentScale (scene c)
                 + (if Rlt_dec 0 deltaY then - 0.1 else 0.1)) in
  exists c',
    onWheel deltaY c = Normal c' /\
    ctl_inv c' /\
    Audio.initialized (audio c') = Audio.initialized (audio c) /\
    Scene3D.currentScale (scene c') = scale /\
    (Audio.initialized (audio c) = true ->
     Audio.currentFrequency (audio c')
     = clamp 50 2000 (110 * Rpower (1760 / 110) ((scale - 0.5) / 2.5))).
Proof.
  intros (Ha & Hs) scale. unfold onWheel. simpl.
  destruct (setFrequencyNormalized_inv ((scale - 0.5) / 2.5) _ Ha)
    as (a1 & E1 & R1 & I1 & Hi1).
  unfold scale, clamp in E1. rewrite E1. simpl.
  eexists. split; [reflexivity|]. simpl.
  split; [|split; [done|]].
  { split; [done|]. by apply setScale_inv. }
  split.
  - unfold scale, clamp, Rmax, Rmin. repeat destruct Rle_dec; lra.
  - intros Hi. destruct (retuned_after _ _ _ Hi R1) as (c1 & ->). done.
Qed.

Lemma onMouseDown_inv e c : ctl_inv c -> ctl_inv (onMouseDown e c).
Proof. done. Qed.

Lemma onTouchStart_inv touches c : ctl_inv c -> ctl_inv (onTouchStart touches c).
Proof. by destruct touches. Qed.

Lemma onMouseUp_spec c :
  ctl_inv c ->
  exists c' m,
    onMouseUp c = Normal c' /\
    ctl_inv c' /\
    Audio.initialized (audio c') = Audio.initialized (audio c) /\
    isDragging c' = false /\
    Scene3D.mesh (scene c') = Some m /\
    Scene3D.positionX m = 0 /\ Scene3D.positionY m = 0 /\
    Audio.delayTime (audio c') = 0.2 /\
    Audio.reverbMix (audio c') = 0.3.
Proof.
  intros (Ha & Hs). unfold onMouseUp. simpl.
  destruct (setDelayTime_inv 0.2 _ Ha) as (a1 & -> & R1 & I1 & Hi1). simpl.
  destruct (setReverbMix_inv 0.3 _ I1) as (a2 & -> & R2 & I2 & Hi2). simpl.
  destruct (setPosition_inv 0 0 _ Hs) as (Hs' & m & Hm & Hx & Hy).
  eexists. exists m. split; [reflexivity|]. simpl.
  split; [by split|]. split; [congruence|].
  split; [done|]. split; [done|]. split; [done|]. split; [done|].
  destruct (Audio.initialized (audio c)) eqn:Hi.
  - destruct (retuned_after _ _ _ Hi R1) as (c1 & ->).
    destruct (retuned_after _ _ _ Hi1 R2) as (c2 & ->).
    simpl. split; apply clamp_inside; lra.
  - rewrite (retuned_before _ _ _ Hi R1) in *.
    rewrite (retuned_before _ _ _ Hi R2).
    destruct Ha as (_ & _ & Hp). rewrite (Hp Hi). done.
Qed.

Lemma steady_pure f :
  (forall c, ctl_inv c ->
     ctl_inv (f c) /\
     Audio.initialized (audio (f c)) = Audio.initialized (audio c)) ->
  steady (fun c => mret (f c)).
Proof. intros Hf c Hc. exists (f c). split; [done|]. by apply Hf. Qed.

Lemma onMouseMove_steady e rect : steady (onMouseMove e rect).
Proof.
  intros c Hc. destruct (onMouseMove_spec e rect c Hc) as (c' & ? & ? & ? & _).
  eauto.
Qed.

Lemma onWheel_steady deltaY : steady (onWheel deltaY).
Proof.
  intros c Hc. destruct (onWheel_spec deltaY c Hc) as (c' & ? & ? & ? & _).
  eauto.
Qed.

Lemma onMouseUp_steady : steady onMouseUp.
Proof.
  intros c Hc. destruct (onMouseUp_spec c Hc) as (c' & m & ? & ? & ? & _).
  eauto.
Qed.

Lemma onTouchMove_steady touches rect : steady (onTouchMove touches rect).
Proof.
  destruct touches as [|[x y] ?]; simpl.
  - intros c Hc. eauto.
  - apply onMouseMove_steady.
Qed.

Lemma changeWaveform_steady wave : steady (changeWaveform wave).
Proof.
  intros c (Ha & Hs). unfold changeWaveform.
  destruct (setWaveform_inv wave _ Ha) as (a' & -> & Ha' & Hi & _). simpl.
  eexists. split; [reflexivity|]. by split.
Qed.

Lemma animate_steady spectrum : steady (Main.animate spectrum).
Proof.
  intros c (Ha & Hs). unfold Main.animate.
  destruct (getAudioLevel_inv spectrum _ Ha) as (level & a' & -> & _ & Ha' & Hi).
  simpl. eexists. split; [reflexivity|]. split; [|done].
  split; [done|]. by apply setAudioLevel_inv.
Qed.

Lemma lift_inv h p :
  steady h -> page_inv p ->
  exists p', lift h p = Normal p' /\ page_inv p' /\
             window p' = window p /\ suspended p' = suspended p /\
             status p' = status p.
Proof.
  intros Hh (Hc & Hw & Hsu). unfold lift.
  destruct (Hh _ Hc) as (c' & -> & Hc' & Hi). simpl.
  eexists. split; [reflexivity|]. split; [|done].
  split; [done|]. simpl. by rewrite Hi.
Qed.

Lemma toggle_inv p :
  page_inv p ->
  exists p', toggle p = Normal p' /\ page_inv p' /\
             window p' = window p /\ suspended p' = suspended p /\
             Audio.initialized (audio (controller p'))
             = Audio.initialized (audio (controller p)).
Proof.
  intros ((Ha & Hs) & Hw & Hsu). unfold toggle.
  destruct (Audio.isPlaying (audio (controller p))).
  - destruct (stop_inv _ Ha) as (a' & -> & _ & Ha' & Hi). simpl.
    eexists. split; [reflexivity|]. split; [|done].
    split; [by split|]. simpl. by rewrite Hi.
  - destruct (start_inv _ Ha) as (a' & -> & _ & Ha' & Hi). simpl.
    eexists. split; [reflexivity|]. split; [|done].
    split; [by split|]. simpl. by rewrite Hi.
Qed.

Lemma onClick_inv p :
  page_inv p ->
  exists p', onClick p = Normal p' /\ page_inv p' /\
             Audio.initialized (audio (controller p')) = true.
Proof.
  intros Hp. unfold onClick.
  destruct (Audio.initialized (audio (controller p))) eqn:Hi; simpl.
  - destruct (toggle_inv p Hp) as (p' & ? & ? & _ & _ & Hi'). rewrite Hi in Hi'.
    eauto.
  - destruct Hp as ((Ha & Hs) & Hw & Hsu).
    destruct (init_inv (window p) _ Ha) as (w' & a' & -> & Ha' & Hi' & _ & Hc).
    simpl. eexists. split; [reflexivity|]. split; [|done].
    split; [by split|]. simpl. rewrite Hi', Hc, Hi. rewrite Hi in Hw.
    by rewrite Hw.
Qed.

Lemma onClick_resumed_inv p :
  page_inv p -> exists p', onClick_resumed p = Normal p' /\ page_inv p'.
Proof.
  intros Hp. unfold onClick_resumed.
  match goal with |- context [toggle ?q] =>
    destruct (toggle_inv q) as (p' & ? & ? & _) end; [|eauto].
  destruct Hp as (Hc & Hw & Hsu). split; [done|]. split; [done|].
  simpl. intros Hlt. apply Hsu. lia.
Qed.

Lemma onKeyDown_inv key p :
  page_inv p -> exists p', onKeyDown key p = Normal p' /\ page_inv p'.
Proof.
  intros Hp. unfold onKeyDown.
  match goal with |- context [lift ?h p] =>
    destruct (lift_inv h p) as (p1 & -> & Hp1 & _) end; [|done|].
  { apply steady_pure. intros c Hc.
    repeat case_match; (split; [|done]);
      try done; destruct Hc as (? & ?); (split; [done|]);
      by apply createGeometry_inv. }
  simpl.
  match goal with |- context [lift ?h p1] =>
    destruct (lift_inv h p1) as (p2 & -> & Hp2 & _) end; [|done|].
  { intros c Hc. repeat case_match; try by apply changeWaveform_steady.
    eauto. }
  simpl. case_match; [|eauto].
  destruct (onClick_inv p2 Hp2) as (p3 & ? & ? & _). eauto.
Qed.

(** ** Every reachable page is well formed, and no handler raises *)

Lemma callAudio_inv call w a :
  audio_inv a ->
  exists w' a',
    Main.callAudio call w a = Normal (w', a') /\ audio_inv a' /\
    (if Audio.initialized a
     then Audio.initialized a' = true /\
          contextsConstructed w' = contextsConstructed w
     else (Audio.initialized a' = false /\
           contextsConstructed w' = contextsConstructed w) \/
          (Audio.initialized a' = true /\
           contextsConstructed w' = S (contextsConstructed w))).
Proof.
  intros Ha.
  assert (Hsame : forall a', Audio.initialized a' = Audio.initialized a ->
    if Audio.initialized a
    then Audio.initialized a' = true /\
         contextsConstructed w = contextsConstructed w
    else (Audio.initialized a' = false /\
          contextsConstructed w = contextsConstructed w) \/
         (Audio.initialized a' = true /\
          contextsConstructed w = S (contextsConstructed w))).
  { intros a' ->. destruct (Audio.initialized a); auto. }
  destruct call as [| | |freq|freq|q|mix|time|type|spectrum|v]; simpl.
  - destruct (init_inv w a Ha) as (w' & a' & -> & Ha' & Hi' & _ & Hc).
    exists w', a'. split; [done|]. split; [done|].
    destruct (Audio.initialized a); auto.
  - destruct (start_inv _ Ha) as (a' & -> & _ & Ha' & Hi). simpl.
    exists w, a'. split; [done|]. split; [done|]. by apply Hsame.
  - destruct (stop_inv _ Ha) as (a' & -> & _ & Ha' & Hi). simpl.
    exists w, a'. split; [done|]. split; [done|]. by apply Hsame.
  - destruct (setFrequency_inv freq _ Ha) as (a' & -> & _ & Ha' & Hi). simpl.
    exists w, a'. split; [done|]. split; [done|]. by apply Hsame.
  - destruct (setFilterFrequency_inv freq _ Ha) as (a' & -> & _ & Ha' & Hi).
    simpl. exists w, a'. split; [done|]. split; [done|]. by apply Hsame.
  - destruct (setFilterQ_inv q _ Ha) as (a' & -> & _ & Ha' & Hi). simpl.
    exists w, a'. split; [done|]. split; [done|]. by apply Hsame.
  - destruct (setReverbMix_inv mix _ Ha) as (a' & -> & _ & Ha' & Hi). simpl.
    exists w, a'. split; [done|]. split; [done|]. by apply Hsame.
  - destruct (setDelayTime_inv time _ Ha) as (a' & -> & _ & Ha' & Hi). simpl.
    exists w, a'. split; [done|]. split; [done|]. by apply Hsame.
  - destruct (setWaveform_inv type _ Ha) as (a' & -> & Ha' & Hi & _). simpl.
    exists w, a'. split; [done|]. split; [done|]. by apply Hsame.
  - destruct (getAudioLevel_inv spectrum _ Ha)
      as (level & a' & -> & _ & Ha' & Hi). simpl.
    exists w, a'. split; [done|]. split; [done|]. by apply Hsame.
  - destruct (setFrequencyNormalized_inv v _ Ha)
      as (a' & -> & _ & Ha' & Hi). simpl.
    exists w, a'. split; [done|]. split; [done|]. by apply Hsame.
Qed.

Lemma callScene_inv call s : scene_inv s -> scene_inv (Main.callScene call s).
Proof.
  intros Hs. destruct call; simpl.
  - by apply createGeometry_inv.
  - by apply setAudioLevel_inv.
  - by apply setRotation_inv.
  - by apply setScale_inv.
  - by apply setPosition_inv.
Qed.

Lemma handle_inv ev p :
  page_inv p -> Main.enabled ev p ->
  exists p', Main.handle ev p = Normal p' /\ page_inv p'.
Proof.
  intros Hp Hen.
  assert (Hlift : forall h, steady h ->
            exists p', lift h p = Normal p' /\ page_inv p').
  { intros h Hh. destruct (lift_inv h p Hh Hp) as (p' & ? & ? & _). eauto. }
  destruct ev; simpl.
  - apply Hlift, onMouseMove_steady.
  - apply Hlift, onWheel_steady.
  - destruct (onClick_inv p Hp) as (p' & ? & ? & _). eauto.
  - apply Hlift, steady_pure. intros c Hc. split; [|done].
    by apply onMouseDown_inv.
  - apply Hlift, onMouseUp_steady.
  - apply Hlift, steady_pure. intros c Hc. split.
    + by apply onTouchStart_inv.
    + by destruct touches.
  - apply Hlift, onTouchMove_steady.
  - apply Hlift, onMouseUp_steady.
  - by apply onKeyDown_inv.
  - apply Hlift, steady_pure. intros c (Ha & Hs). split; [|done].
    split; [done|]. by apply createGeometry_inv.
  - apply Hlift, changeWaveform_steady.
  - by apply onClick_resumed_inv.
  - apply Hlift, animate_steady.
  - apply Hlift, steady_pure. intros c (Ha & Hs).
    destruct (elapse_inv dt _ Ha) as (Ha' & Hi). split; [by split|done].
  - destruct Hp as ((Ha & Hs) & Hw & Hsu).
    destruct (callAudio_inv call (window p) _ Ha) as (w' & a' & -> & Ha' & Hc).
    simpl. eexists. split; [reflexivity|]. split; [by split|]. simpl.
    destruct (Audio.initialized (audio (controller p))).
    + destruct Hc as (-> & ->). done.
    + destruct Hc as [(-> & ->) | (-> & ->)]; [done | by rewrite Hw].
  - apply Hlift, steady_pure. intros c (Ha & Hs). split; [|done].
    split; [done|]. by apply callScene_inv.
Qed.

Lemma load_inv hardwareSampleRate random status :
  page_inv (Main.load hardwareSampleRate random status).
Proof.
  split; [|split; [done | simpl; lia]]. split; [|split].
  - split; [|split].
    + unfold in_range. simpl. lra.
    + intros Hi. discriminate.
    + intros _. reflexivity.
  - unfold scale_in_range. simpl. lra.
  - simpl. eauto.
Qed.

Lemma reachable_inv p : Main.reachable p -> page_inv p.
Proof.
  induction 1 as [sr rnd st | p ev p' _ IH Hen Hstep].
  - apply load_inv.
  - destruct (handle_inv ev p IH Hen) as (p'' & Hh & Hinv). congruence.
Qed.

Lemma reachable_returns p ev :
  Main.reachable p -> Main.enabled ev p -> returns (Main.handle ev p).
Proof.
  intros Hp Hen.
  destruct (handle_inv ev p (reachable_inv p Hp) Hen) as (p' & Hh & _).
  by exists p'.
Qed.

(** ** Sample pages *)

Lemma reachable_after evs p :
  Main.reachable p -> Forall always_enabled evs -> Main.reachable (after evs p).
Proof.
  revert p. induction evs as [|ev evs IH]; intros p Hp Hen; [done|].
  inversion Hen as [|? ? Hev Hevs]; subst. simpl.
  destruct (Main.handle ev p) as [p'|err] eqn:Hh.
  - apply IH; [|done]. by apply (Main.reachable_step p ev p').
  - by apply IH.
Qed.

Lemma reachable_loaded : Main.reachable loaded.
Proof. apply Main.reachable_load. Qed.

Lemma reachable_playing : Main.reachable playing.
Proof.
  apply reachable_after; [apply reachable_loaded|].
  repeat constructor.
Qed.

Lemma reachable_dragging : Main.reachable dragging.
Proof.
  apply reachable_after; [apply reachable_playing|].
  repeat constructor.
Qed.

Lemma initialized_playing :
  Audio.initialized (audio (controller playing)) = true.
Proof.
  unfold playing, after. cbn [fold_left].
  change (Main.handle Main.click loaded) with (onClick loaded).
  destruct (onClick_inv loaded (reachable_inv _ reachable_loaded))
    as (p' & -> & _ & Hi).
  exact Hi.
Qed.

Lemma uninitialized_loaded :
  Audio.initialized (audio (controller loaded)) = false.
Proof. reflexivity. Qed.

(** ** Pages reached over a canvas with a size *)

Lemma reachable_sized_reachable p : reachable_sized p -> Main.reachable p.
Proof.
  induction 1 as [|p ev p' _ IH Hen _ Hh]; [apply Main.reachable_load|].
  by apply (Main.reachable_step p ev p').
Qed.

Lemma reachable_sized_after evs p :
  reachable_sized p ->
  Forall (fun ev => always_enabled ev /\ sized ev) evs ->
  reachable_sized (after evs p).
Proof.
  revert p. induction evs as [|ev evs IH]; intros p Hp Hen; [done|].
  inversion Hen as [|? ? [Hev Hsz] Hevs]; subst. simpl.
  destruct (Main.handle ev p) as [p'|err] eqn:Hh.
  - apply IH; [|done]. by apply (reachable_sized_step p ev p').
  - by apply IH.
Qed.

Lemma reachable_sized_playing : reachable_sized playing.
Proof.
  apply reachable_sized_after; [apply reachable_sized_load|].
  apply Forall_cons. split; [|by apply Forall_nil].
  split; [intros q; exact I|exact I].
Qed.

Lemma reachable_sized_dragging : reachable_sized dragging.
Proof.
  apply reachable_sized_after; [apply reachable_sized_playing|].
  apply Forall_cons. split; [split; [intros q; exact I|exact I]|].
  apply Forall_cons. split; [|by apply Forall_nil].
  split; [intros q; exact I|]. simpl. lra.
Qed.

(** ** Numbers that are no real numbers *)

Lemma clamped_number lo hi v :
  lo <= hi -> v <> JS.NaN ->
  exists r,
    JS.max (JS.Finite lo) (JS.min (JS.Finite hi) v) = JS.Finite r /\
    lo <= r <= hi /\
    (forall x, v = JS.Finite x -> r = clamp lo hi x) /\
    (v = JS.Infinity -> r = hi) /\
    (v = JS.NegInfinity -> r = lo).
Proof.
  intros Hlh Hv. destruct v as [x| | |]; [| | |done].
  - exists (clamp lo hi x). split; [reflexivity|].
    split; [by apply clamp_range|].
    split; [by intros ? [= <-]|]. split; intros [=].
  - exists hi. split; [simpl; f_equal; apply Rmax_right; lra|].
    split; [lra|]. split; [intros ? [=]|]. split; [done|intros [=]].
  - exists lo. split; [reflexivity|].
    split; [lra|]. split; [intros ? [=]|]. split; [intros [=]|done].
Qed.

Lemma within_clamped lo hi r : lo <= r <= hi -> JS.within lo hi (JS.Finite r).
Proof. done. Qed.

Ltac number_setter Hi lo hi v Hv :=
  let r := fresh "r" in
  let Hr := fresh "Hr" in
  let Hb := fresh "Hb" in
  let Hc := fresh "Hc" in
  destruct (clamped_number lo hi v ltac:(lra) Hv) as (r & Hr & Hb & Hc);
  eexists; exists r;
  cbv beta delta [JS.setFrequency JS.setFilterFrequency JS.setFilterQ
                  JS.setReverbMix JS.setDelayTime];
  rewrite Hi; cbn [negb JS.currentFrequency JS.filterFrequency JS.filterQ
                   JS.reverbMix JS.delayTime];
  rewrite Hr;
  split; [reflexivity|];
  cbn [JS.currentFrequency JS.filterFrequency JS.filterQ JS.reverbMix
       JS.delayTime];
  split; [reflexivity|]; split; [exact Hb|];
  destruct Hc as (? & ? & ?);
  split; [assumption|]; split; [assumption|]; split; [assumption|];
  unfold JS.in_range;
  cbn [JS.currentFrequency JS.filterFrequency JS.filterQ JS.reverbMix
       JS.delayTime];
  intros (? & ? & ? & ? & ?);
  repeat (split; [assumption || exact Hb|]); assumption || exact Hb.

Lemma setFrequency_clamps a :
  JS.initialized a = true ->
  JS.clamps JS.setFrequency JS.currentFrequency 50 2000 a.
Proof. intros Hi v Hv. number_setter Hi 50 2000 v Hv. Qed.

Lemma setFilterFrequency_clamps a :
  JS.initialized a = true ->
  JS.clamps JS.setFilterFrequency JS.filterFrequency 200 5000 a.
Proof. intros Hi v Hv. number_setter Hi 200 5000 v Hv. Qed.

Lemma setFilterQ_clamps a :
  JS.initialized a = true -> JS.clamps JS.setFilterQ JS.filterQ 1 20 a.
Proof. intros Hi v Hv. number_setter Hi 1 20 v Hv. Qed.

Lemma setReverbMix_clamps a :
  JS.initialized a = true -> JS.clamps JS.setReverbMix JS.reverbMix 0 1 a.
Proof. intros Hi v Hv. number_setter Hi 0 1 v Hv. Qed.

Lemma setDelayTime_clamps a :
  JS.initialized a = true -> JS.clamps JS.setDelayTime JS.delayTime 0 0.5 a.
Proof. intros Hi v Hv. number_setter Hi 0 0.5 v Hv. Qed.

(** Before [init] a setter returns at its guard, whatever the number. *)
Lemma number_setters_before a v :
  JS.initialized a = false ->
  JS.setFrequency v a = (a, Normal ()) /\
  JS.setFilterFrequency v a = (a, Normal ()) /\
  JS.setFilterQ v a = (a, Normal ()) /\
  JS.setReverbMix v a = (a, Normal ()) /\
  JS.setDelayTime v a = (a, Normal ()).
Proof.
  intros Hi.
  unfold JS.setFrequency, JS.setFilterFrequency, JS.setFilterQ,
    JS.setReverbMix, JS.setDelayTime.
  rewrite Hi. by repeat split.
Qed.

(** After [init] a setter called with [NaN] assigns [NaN] and raises. *)
Lemma number_setters_NaN a :
  JS.initialized a = true ->
  (JS.setFrequency JS.NaN a).2 = Throw TypeError /\
  JS.currentFrequency (JS.setFrequency JS.NaN a).1 = JS.NaN /\
  (JS.setFilterFrequency JS.NaN a).2 = Throw TypeError /\
  JS.filterFrequency (JS.setFilterFrequency JS.NaN a).1 = JS.NaN /\
  (JS.setFilterQ JS.NaN a).2 = Throw TypeError /\
  JS.filterQ (JS.setFilterQ JS.NaN a).1 = JS.NaN /\
  (JS.setReverbMix JS.NaN a).2 = Throw TypeError /\
  JS.reverbMix (JS.setReverbMix JS.NaN a).1 = JS.NaN /\
  (JS.setDelayTime JS.NaN a).2 = Throw TypeError /\
  JS.delayTime (JS.setDelayTime JS.NaN a).1 = JS.NaN.
Proof.
  intros Hi.
  unfold JS.setFrequency, JS.setFilterFrequency, JS.setFilterQ,
    JS.setReverbMix, JS.setDelayTime.
  rewrite Hi. by repeat split.
Qed.

Lemma in_range_parameters a : in_range a -> JS.in_range (JS.parameters a).
Proof.
  intros (? & ? & ? & ? & ?).
  repeat (split; [assumption|]); assumption.
Qed.

Lemma setters_keep_range a v :
  v <> JS.NaN -> JS.in_range a ->
  JS.in_range (JS.setFrequency v a).1 /\
  JS.in_range (JS.setFilterFrequency v a).1 /\
  JS.in_range (JS.setFilterQ v a).1 /\
  JS.in_range (JS.setReverbMix v a).1 /\
  JS.in_range (JS.setDelayTime v a).1.
Proof.
  intros Hv Ha. destruct (JS.initialized a) eqn:Hi.
  - destruct (setFrequency_clamps a Hi v Hv) as (? & ? & -> & _ & _ & _ & _ & _ & H1).
    destruct (setFilterFrequency_clamps a Hi v Hv)
      as (? & ? & -> & _ & _ & _ & _ & _ & H2).
    destruct (setFilterQ_clamps a Hi v Hv) as (? & ? & -> & _ & _ & _ & _ & _ & H3).
    destruct (setReverbMix_clamps a Hi v Hv) as (? & ? & -> & _ & _ & _ & _ & _ & H4).
    destruct (setDelayTime_clamps a Hi v Hv) as (? & ? & -> & _ & _ & _ & _ & _ & H5).
    cbn [fst].
    split; [exact (H1 Ha)|]. split; [exact (H2 Ha)|].
    split; [exact (H3 Ha)|]. split; [exact (H4 Ha)|exact (H5 Ha)].
  - destruct (number_setters_before a v Hi) as (-> & -> & -> & -> & ->).
    cbn [fst]. repeat (split; [exact Ha|]); exact Ha.
Qed.

Lemma setScale_within v : v <> JS.NaN -> JS.within 0.5 3 (JS.setScale v).
Proof.
  intros Hv. unfold JS.setScale.
  destruct (clamped_number 0.5 3 v ltac:(lra) Hv) as (r & -> & Hb & _).
  exact Hb.
Qed.

(** Over a canvas with a width the pointer asks for the frequency that the
    real-valued model computes; at the left edge of a canvas without one it
    asks for [NaN]. *)
Lemma filterFreq_sized e rect :
  width rect <> 0 ->
  JS.filterFreq e rect
  = JS.Finite (200 + (clientX e - left rect) / width rect * 4800).
Proof.
  intros Hw. unfold JS.filterFreq, JS.div.
  by destruct (Req_EM_T (width rect) 0).
Qed.

Lemma filterFreq_no_width e rect :
  width rect = 0 -> clientX e = left rect -> JS.filterFreq e rect = JS.NaN.
Proof.
  intros Hw He. unfold JS.filterFreq, JS.div.
  destruct (Req_EM_T (width rect) 0); [|done].
  destruct (Req_EM_T (clientX e - left rect) 0); [done|lra].
Qed.

Lemma parameters_retuned upd a a' :
  retuned upd a a' ->
  JS.parameters a'
  = if Audio.initialized a then JS.parameters (upd a) else JS.parameters a.
Proof.
  unfold retuned. destruct (Audio.initialized a).
  - by intros (ctx & ctx' & _ & _ & _ & ->).
  - by intros ->.
Qed.

Ltac agreement L :=
  let a' := fresh "a'" in
  let Hres := fresh "Hres" in
  let Hret := fresh "Hret" in
  destruct L as (a' & Hres & Hret & _);
  exists a'; split; [exact Hres|];
  rewrite (parameters_retuned _ _ _ Hret);
  cbv beta delta [JS.setFrequency JS.setFilterFrequency JS.setFilterQ
                  JS.setReverbMix JS.setDelayTime];
  cbn [JS.parameters JS.initialized];
  destruct (Audio.initialized _) eqn:Hi;
  unfold JS.parameters, clamp; cbn; rewrite ?Hi; reflexivity.

Lemma setters_agree a :
  audio_inv a ->
  JS.agree JS.setFrequency Audio.setFrequency a /\
  JS.agree JS.setFilterFrequency Audio.setFilterFrequency a /\
  JS.agree JS.setFilterQ Audio.setFilterQ a /\
  JS.agree JS.setReverbMix Audio.setReverbMix a /\
  JS.agree JS.setDelayTime Audio.setDelayTime a.
Proof.
  intros Ha. repeat split; intros v.
  - agreement (setFrequency_inv v a Ha).
  - agreement (setFilterFrequency_inv v a Ha).
  - agreement (setFilterQ_inv v a Ha).
  - agreement (setReverbMix_inv v a Ha).
  - agreement (setDelayTime_inv v a Ha).
Qed.

(** * The specification, clause by clause *)

(** C1. Once the engine is initialized, a pointer move at the normalized
    position (x, y) in the unit square stores filterFrequency = 200 + 4800 x,
    which lies in [200, 5000], and filterQ = 1 + 19 y, which lies in
    [1, 20]. A touch move whose first touch point is at the same place does
    exactly the same. *)
Theorem pointer_move_sets_filter p e rect :
  Main.reachable p ->
  Audio.initialized (audio (controller p)) = true ->
  let x := (clientX e - left rect) / width rect in
  let y := (clientY e - top rect) / height rect in
  0 <= x <= 1 -> 0 <= y <= 1 ->
  exists p',
    Main.handle (Main.mousemove e rect) p = Normal p' /\
    (forall more, Main.handle (Main.touchmove (e :: more) rect) p = Normal p') /\
    mouseX (controller p') = x /\ mouseY (controller p') = y /\
    Audio.filterFrequency (audio (controller p')) = 200 + 4800 * x /\
    200 <= Audio.filterFrequency (audio (controller p')) <= 5000 /\
    Audio.filterQ (audio (controller p')) = 1 + 19 * y /\
    1 <= Audio.filterQ (audio (controller p')) <= 20.
Proof.
  intros Hp Hi x y Hx Hy.
  destruct (reachable_inv p Hp) as (Hc & _).
  destruct (onMouseMove_spec e rect _ Hc)
    as (c' & Hres & _ & _ & Hmx & Hmy & Hval).
  destruct (Hval Hi) as (Hf & Hq & _).
  fold x in Hmx, Hf. fold y in Hmy, Hq.
  rewrite clamp_inside in Hf by lra. rewrite clamp_inside in Hq by lra.
  exists {| window := window p; status := status p;
            suspended := suspended p; controller := c' |}.
  split; [|split].
  - simpl. unfold lift. by rewrite Hres.
  - intros more.
    change (Main.handle (Main.touchmove (e :: more) rect) p)
      with (lift (onMouseMove {| clientX := clientX e; clientY := clientY e |}
                    rect) p).
    unfold lift.
    replace (onMouseMove {| clientX := clientX e; clientY := clientY e |}
               rect (controller p))
      with (onMouseMove e rect (controller p)) by reflexivity.
    by rewrite Hres.
  - simpl. rewrite Hf, Hq. repeat split; try done; lra.
Qed.

Lemma pointer_move_sets_filter_witness :
  exists p',
    Main.handle
      (Main.mousemove {| clientX := 300; clientY := 200 |} canvasRect) playing
    = Normal p' /\
    Audio.filterFrequency (audio (controller p')) = 200 + 4800 * ((300 - 100) / 800) /\
    Audio.filterQ (audio (controller p')) = 1 + 19 * ((200 - 50) / 600).
Proof.
  destruct (pointer_move_sets_filter playing
              {| clientX := 300; clientY := 200 |} canvasRect
              reachable_playing initialized_playing)
    as (p' & H & _ & _ & _ & Hf & _ & Hq & _).
  - simpl. lra.
  - simpl. lra.
  - exists p'. auto.
Defined.

(** C2, as stated, fails before [init]: [setFrequency] returns at its guard,
    so on the engine as constructed [setFrequencyNormalized 0] and
    [setFrequencyNormalized 1] both leave the stored frequency at 440 Hz,
    neither 110 Hz nor 1760 Hz, and the result does not grow with the
    value. *)
Lemma setFrequencyNormalized_before_init :
  Audio.setFrequencyNormalized 0 Audio.constructor = Normal Audio.constructor /\
  Audio.setFrequencyNormalized 1 Audio.constructor = Normal Audio.constructor /\
  Audio.currentFrequency Audio.constructor = 440 /\
  Audio.currentFrequency Audio.constructor <> 110 /\
  Audio.currentFrequency Audio.constructor <> 1760.
Proof.
  split; [reflexivity|]. split; [reflexivity|]. split; [reflexivity|].
  simpl. split; lra.
Qed.

Lemma exponential_range value :
  0 <= value <= 1 -> 110 <= 110 * Rpower (1760 / 110) value <= 1760.
Proof.
  intros [H0 H1].
  assert (Hlo : Rpower (1760 / 110) 0 <= Rpower (1760 / 110) value)
    by (apply Rle_Rpower; lra).
  assert (Hhi : Rpower (1760 / 110) value <= Rpower (1760 / 110) 1)
    by (apply Rle_Rpower; lra).
  rewrite Rpower_O in Hlo by lra. rewrite Rpower_1 in Hhi by lra.
  lra.
Qed.

(** C2, as amended. On the initialized engine of a reachable page,
    [setFrequencyNormalized value] with value in [0, 1] stores
    110 * (1760 / 110) ^ value as the frequency: the clamp to [50, 2000] in
    [setFrequency] leaves it alone. At 0 this is 110 Hz, at 1 it is 1760 Hz,
    and a larger value gives a strictly larger frequency. Before
    initialization the call returns and leaves the engine, so the stored
    frequency, as it was, for every engine and every value. *)
Theorem setFrequencyNormalized_exponential :
  (forall a value,
     Audio.initialized a = false ->
     Audio.setFrequencyNormalized value a = Normal a) /\
  (forall p,
     Main.reachable p ->
     Audio.initialized (audio (controller p)) = true ->
     let a := audio (controller p) in
     (forall value, 0 <= value <= 1 ->
        clamp 50 2000 (110 * Rpower (1760 / 110) value)
        = 110 * Rpower (1760 / 110) value /\
        exists a', Audio.setFrequencyNormalized value a = Normal a' /\
                   Audio.currentFrequency a'
                   = 110 * Rpower (1760 / 110) value) /\
     (exists a', Audio.setFrequencyNormalized 0 a = Normal a' /\
                 Audio.currentFrequency a' = 110) /\
     (exists a', Audio.setFrequencyNormalized 1 a = Normal a' /\
                 Audio.currentFrequency a' = 1760) /\
     (forall v1 v2 a1 a2,
        0 <= v1 -> v1 < v2 -> v2 <= 1 ->
        Audio.setFrequencyNormalized v1 a = Normal a1 ->
        Audio.setFrequencyNormalized v2 a = Normal a2 ->
        Audio.currentFrequency a1 < Audio.currentFrequency a2)).
Proof.
  split.
  { intros a value Hi.
    unfold Audio.setFrequencyNormalized, Audio.setFrequency.
    by rewrite Hi. }
  intros p Hp Hi a.
  destruct (reachable_inv p Hp) as ((Ha & _) & _). fold a in Ha, Hi.
  assert (Hset : forall value, 0 <= value <= 1 ->
            exists a', Audio.setFrequencyNormalized value a = Normal a' /\
              Audio.currentFrequency a' = 110 * Rpower (1760 / 110) value).
  { intros value Hv.
    destruct (setFrequencyNormalized_inv value a Ha) as (a' & Hres & Hret & _).
    destruct (retuned_after _ _ _ Hi Hret) as (ctx' & ->).
    exists (Audio.set_audioContext (Some ctx')
              (Audio.set_currentFrequency
                 (clamp 50 2000 (110 * Rpower (1760 / 110) value)) a)).
    split; [done|]. simpl. apply clamp_inside.
    pose proof (exponential_range value Hv). lra. }
  split; [|split; [|split]].
  - intros value Hv. split; [|by apply Hset].
    apply clamp_inside. pose proof (exponential_range value Hv). lra.
  - destruct (Hset 0) as (a' & Hres & Hf); [lra|].
    exists a'. split; [done|]. rewrite Hf, Rpower_O by lra. lra.
  - destruct (Hset 1) as (a' & Hres & Hf); [lra|].
    exists a'. split; [done|]. rewrite Hf, Rpower_1 by lra. lra.
  - intros v1 v2 a1 a2 H0 Hlt H1 E1 E2.
    destruct (Hset v1) as (a1' & E1' & Hf1); [lra|].
    destruct (Hset v2) as (a2' & E2' & Hf2); [lra|].
    assert (a1' = a1) as -> by congruence.
    assert (a2' = a2) as -> by congruence.
    rewrite Hf1, Hf2.
    assert (Rpower (1760 / 110) v1 < Rpower (1760 / 110) v2)
      by (apply Rpower_lt; lra).
    lra.
Qed.

Lemma setFrequencyNormalized_exponential_witness :
  Audio.setFrequencyNormalized 1 Audio.constructor = Normal Audio.constructor /\
  exists a', Audio.setFrequencyNormalized 1 (audio (controller playing))
             = Normal a' /\
             Audio.currentFrequency a' = 1760.
Proof.
  split.
  - exact (proj1 setFrequencyNormalized_exponential Audio.constructor 1
             eq_refl).
  - exact (proj1 (proj2 (proj2
      (proj2 setFrequencyNormalized_exponential playing
         reachable_playing initialized_playing)))).
Defined.

(** C3, as stated, fails for the number [NaN], which no clamp brings into a
    range: [setScale(NaN)] leaves the scale at [NaN], and on the engine of
    the playing page, which is initialized and has its parameters in range,
    [setFilterQ(NaN)] leaves [filterQ] at [NaN]. An input event can do the
    same: a pointer move at the left edge of a canvas of width 0 divides 0
    by 0 and so asks for the filter frequency [NaN], which is stored. *)
Lemma NaN_leaves_the_range :
  JS.setScale JS.NaN = JS.NaN /\
  ~ JS.within 0.5 3 (JS.setScale JS.NaN) /\
  let a := JS.parameters (audio (controller playing)) in
  let freq :=
    JS.filterFreq {| clientX := 100; clientY := 50 |}
      {| left := 100; top := 50; width := 0; height := 0 |} in
  JS.initialized a = true /\
  JS.in_range a /\
  JS.filterQ (JS.setFilterQ JS.NaN a).1 = JS.NaN /\
  ~ JS.in_range (JS.setFilterQ JS.NaN a).1 /\
  freq = JS.NaN /\
  JS.filterFrequency (JS.setFilterFrequency freq a).1 = JS.NaN /\
  ~ JS.in_range (JS.setFilterFrequency freq a).1.
Proof.
  split; [reflexivity|]. split; [intros []|].
  pose proof initialized_playing as Hi.
  destruct (reachable_inv playing reachable_playing) as (((Hin & _) & _) & _).
  generalize dependent (audio (controller playing)). intros a Hi Hin.
  destruct (number_setters_NaN (JS.parameters a) Hi)
    as (_ & _ & _ & Hf & _ & Hq & _).
  cbv zeta. rewrite filterFreq_no_width by reflexivity.
  split; [exact Hi|]. split; [by apply in_range_parameters|].
  split; [exact Hq|]. split.
  { intros (_ & _ & Hw & _). rewrite Hq in Hw. exact Hw. }
  split; [reflexivity|]. split; [exact Hf|].
  intros (_ & Hw & _). rewrite Hf in Hw. exact Hw.
Qed.

(** C3, as amended. In every state that the page reaches by events on a
    canvas with a size and by calls of the engine's and the scene's methods
    with real arguments, each stored audio parameter lies in its range and
    the scale of the shape lies in [0.5, 3], in particular after any number
    of wheel events in one direction; every such event or call returns and
    leads to such a state again. Each of the five setters, on parameters
    that are in range, and [setScale] also leave their values in range when
    called with [Infinity] or [-Infinity]: with any number but [NaN]. *)
Theorem parameters_stay_in_range :
  (forall p,
     reachable_sized p ->
     let a := audio (controller p) in
     50 <= Audio.currentFrequency a <= 2000 /\
     200 <= Audio.filterFrequency a <= 5000 /\
     1 <= Audio.filterQ a <= 20 /\
     0 <= Audio.reverbMix a <= 1 /\
     0 <= Audio.delayTime a <= 0.5 /\
     0.5 <= Scene3D.currentScale (scene (controller p)) <= 3 /\
     (forall n deltaY,
        0.5 <= Scene3D.currentScale
                 (scene (controller
                           (after (replicate n (Main.wheel deltaY)) p)))
            <= 3) /\
     (forall ev,
        Main.enabled ev p -> sized ev ->
        exists p', Main.handle ev p = Normal p' /\ reachable_sized p')) /\
  (forall a v,
     v <> JS.NaN -> JS.in_range a ->
     JS.in_range (JS.setFrequency v a).1 /\
     JS.in_range (JS.setFilterFrequency v a).1 /\
     JS.in_range (JS.setFilterQ v a).1 /\
     JS.in_range (JS.setReverbMix v a).1 /\
     JS.in_range (JS.setDelayTime v a).1) /\
  (forall v, v <> JS.NaN -> JS.within 0.5 3 (JS.setScale v)).
Proof.
  split; [|split; [exact setters_keep_range|exact setScale_within]].
  intros p Hs a.
  pose proof (reachable_sized_reachable p Hs) as Hp.
  destruct (reachable_inv p Hp) as (((Hin & _) & (Hsc & _)) & _).
  destruct Hin as (? & ? & ? & ? & ?).
  repeat (split; [done|]).
  split.
  - intros n deltaY.
    assert (Hr : Main.reachable (after (replicate n (Main.wheel deltaY)) p)).
    { apply reachable_after; [done|]. apply Forall_replicate. by intros q. }
    by destruct (reachable_inv _ Hr) as ((_ & (Hs' & _)) & _).
  - intros ev Hen Hsz.
    destruct (reachable_returns p ev Hp Hen) as (p' & Hh).
    exists p'. split; [exact Hh|].
    by apply (reachable_sized_step p ev p').
Qed.

Lemma parameters_stay_in_range_witness :
  0.5 <= Scene3D.currentScale
           (scene (controller (after (replicate 40 (Main.wheel (-1))) dragging)))
      <= 3 /\
  (exists p',
     Main.handle (Main.mousemove {| clientX := 500; clientY := 350 |}
                    canvasRect) dragging = Normal p' /\
     reachable_sized p') /\
  JS.in_range
    (JS.setDelayTime JS.Infinity (JS.parameters Audio.constructor)).1 /\
  JS.within 0.5 3 (JS.setScale JS.NegInfinity).
Proof.
  destruct parameters_stay_in_range as (Hpage & Hset & Hscale).
  destruct (Hpage dragging reachable_sized_dragging)
    as (_ & _ & _ & _ & _ & _ & Hwheel & Hstep).
  split; [exact (Hwheel 40%nat (-1))|].
  split.
  { apply Hstep; [exact I|]. simpl. lra. }
  split.
  - refine (proj2 (proj2 (proj2 (proj2
      (Hset (JS.parameters Audio.constructor) JS.Infinity _ _))))).
    + intros [=].
    + apply in_range_parameters. unfold in_range. simpl. lra.
  - apply Hscale. intros [=].
Defined.

(** C4. In every reachable state, hence after a drag of any extent, the end
    of the drag leaves delayTime at 0.2 and reverbMix at 0.3. *)
Theorem drag_end_restores_effects p :
  Main.reachable p ->
  exists p',
    Main.handle Main.mouseup p = Normal p' /\
    Audio.delayTime (audio (controller p')) = 0.2 /\
    Audio.reverbMix (audio (controller p')) = 0.3.
Proof.
  intros Hp. destruct (reachable_inv p Hp) as (Hc & _).
  destruct (onMouseUp_spec _ Hc) as (c' & m & Hres & _ & _ & _ & _ & _ & _ & Hd & Hr).
  exists {| window := window p; status := status p;
            suspended := suspended p; controller := c' |}.
  split; [|done]. simpl. unfold lift. by rewrite Hres.
Qed.

Lemma drag_end_restores_effects_witness :
  exists p',
    Main.handle Main.mouseup dragging = Normal p' /\
    Audio.delayTime (audio (controller p')) = 0.2 /\
    Audio.reverbMix (audio (controller p')) = 0.3.
Proof. exact (drag_end_restores_effects dragging reachable_dragging). Defined.

Lemma elem_of_connect e src dst ctx :
  e ∈ connections (connect src dst ctx) <->
  e = (src, dst) \/ e ∈ connections ctx.
Proof.
  unfold connect. simpl.
  destruct (existsb (edge_eqb (src, dst)) (connections ctx)) eqn:Hex.
  - split; [auto|]. intros [-> | H]; [|done].
    apply existsb_exists in Hex as ([s d] & Hin & Heq).
    unfold edge_eqb in Heq. simpl in Heq.
    apply andb_true_iff in Heq as [H1 H2].
    apply Nat.eqb_eq in H1, H2. subst.
    by apply list_elem_of_In.
  - rewrite elem_of_app, list_elem_of_singleton. tauto.
Qed.

Lemma elem_of_disconnect e src ctx :
  e ∈ connections (disconnect src ctx) <->
  e ∈ connections ctx /\ e.1 <> src.
Proof.
  unfold disconnect. simpl.
  rewrite !list_elem_of_In, filter_In, negb_true_iff, Nat.eqb_neq. tauto.
Qed.

Lemma shape_gain n : shape n = SGain -> exists g, n = Gain g.
Proof. destruct n; simpl; intros [=]; eauto. Qed.

Lemma setWaveform_replaces kind a :
  Audio.initialized a = true -> graph_ok a ->
  exists a', Audio.setWaveform kind a = Normal a' /\
             oscillator_replaced kind a a'.
Proof.
  intros Hi Hg.
  destruct (setWaveform_after kind a Hi Hg)
    as (ctx & old & gain & ty & f & Hctx & Hold & Hgain & Hn & Hgs & Hres).
  eexists. split; [exact Hres|].
  assert (Hlt : (old < length (nodes ctx))%nat) by (by eapply lookup_lt_Some).
  unfold shapes in Hgs. rewrite list_lookup_fmap in Hgs.
  destruct (nodes ctx !! gain) as [g|] eqn:Hgl; [|discriminate].
  injection Hgs as Hgs. destruct (shape_gain _ Hgs) as (gp & ->).
  assert (Hne : gain <> old) by (intros ->; congruence).
  assert (Hgl' : (gain < length (nodes ctx))%nat) by (by eapply lookup_lt_Some).
  exists ctx, (swapped kind (Audio.currentFrequency a) old gain ty f ctx),
    old, (length (nodes ctx)), gain, ty, f.
  rewrite !nodes_swapped.
  split; [done|]. split; [done|]. split; [done|]. split; [done|].
  split; [by apply lookup_ge_None|].
  split; [by apply list_lookup_middle; rewrite length_insert|].
  split; [done|].
  split.
  { rewrite lookup_app_l by (by rewrite length_insert).
    by apply list_lookup_insert_eq. }
  split.
  { intros id Ho Hnew.
    destruct (decide (id < length (nodes ctx))%nat) as [Hid|Hid].
    - rewrite lookup_app_l by (by rewrite length_insert).
      by apply list_lookup_insert_ne.
    - rewrite (lookup_ge_None_2 (nodes ctx)) by lia.
      apply lookup_ge_None_2. rewrite length_app, length_insert. simpl. lia. }
  split.
  { exists gp. rewrite lookup_app_l by (by rewrite length_insert).
    by rewrite list_lookup_insert_ne. }
  split; [|done].
  intros e.
  change (connections (swapped kind (Audio.currentFrequency a) old gain ty f ctx))
    with (connections (connect (length (nodes ctx)) gain (disconnect old ctx))).
  rewrite elem_of_connect, elem_of_disconnect. tauto.
Qed.

(** C5. [setWaveform kind] always stores [kind] as the waveform and never
    changes the stored frequency. Before [init] it does nothing else. After
    [init] it replaces the oscillator and nothing but the oscillator: see
    [oscillator_replaced]. *)
Theorem setWaveform_swaps_only_oscillator p kind :
  Main.reachable p ->
  let a := audio (controller p) in
  exists a',
    Audio.setWaveform kind a = Normal a' /\
    Audio.waveform a' = kind /\
    Audio.currentFrequency a' = Audio.currentFrequency a /\
    (Audio.initialized a = false -> a' = Audio.set_waveform kind a) /\
    (Audio.initialized a = true -> oscillator_replaced kind a a').
Proof.
  intros Hp a.
  destruct (reachable_inv p Hp) as (((_ & Hg & _) & _) & _). fold a in Hg.
  destruct (Audio.initialized a) eqn:Hi.
  - destruct (setWaveform_replaces kind a Hi Hg) as (a' & Hres & Hrep).
    exists a'. split; [done|].
    pose proof Hrep as (ctx & ctx' & old & new & gain & ty & f & _ & _ & _ & -> & _).
    by repeat split.
  - exists (Audio.set_waveform kind a).
    split; [by apply setWaveform_before|]. by repeat split.
Qed.

Lemma setWaveform_swaps_only_oscillator_witness :
  exists a',
    Audio.setWaveform square (audio (controller playing)) = Normal a' /\
    Audio.waveform a' = square /\
    oscillator_replaced square (audio (controller playing)) a'.
Proof.
  destruct (setWaveform_swaps_only_oscillator playing square reachable_playing)
    as (a' & Hres & Hw & _ & _ & Hrep).
  exists a'. split; [done|]. split; [done|]. exact (Hrep initialized_playing).
Defined.

(** C6. [init] always returns and leaves the engine initialized; a second
    call returns the window and the engine of the first call as they are,
    so it constructs no context and creates no node. On an engine that was
    not initialized the first call constructs exactly one context, whose
    nodes and connections are those of [builtShapes] and
    [builtConnections]: one oscillator, no connection made twice. *)
Theorem init_idempotent w a :
  exists w1 a1,
    Audio.init w a = Normal (w1, a1) /\
    Audio.initialized a1 = true /\
    Audio.init w1 a1 = Normal (w1, a1) /\
    (Audio.initialized a = true -> w1 = w /\ a1 = a) /\
    (Audio.initialized a = false ->
     contextsConstructed w1 = S (contextsConstructed w) /\
     exists ctx,
       Audio.audioContext a1 = Some ctx /\
       shapes ctx = builtShapes /\
       connections ctx = builtConnections /\
       NoDup (connections ctx) /\
       length (List.filter is_oscillator (nodes ctx)) = 1%nat).
Proof.
  destruct (Audio.initialized a) eqn:Hi.
  - exists w, a. rewrite (init_again w a Hi). by repeat split.
  - unfold Audio.init at 1. rewrite Hi. cbn.
    do 2 eexists. split; [reflexivity|]. split; [reflexivity|].
    split; [by apply init_again|]. split; [done|]. intros _.
    split; [reflexivity|]. eexists. split; [reflexivity|].
    split; [reflexivity|]. split; [reflexivity|]. split; [|reflexivity].
    cbn. apply (bool_decide_unpack _). by vm_compute.
Qed.

Lemma init_idempotent_witness :
  exists w1 a1,
    Audio.init (window loaded) Audio.constructor = Normal (w1, a1) /\
    Audio.init w1 a1 = Normal (w1, a1) /\
    contextsConstructed w1 = 1%nat.
Proof.
  destruct (init_idempotent (window loaded) Audio.constructor)
    as (w1 & a1 & H1 & _ & H2 & _ & Hnew).
  exists w1, a1. split; [done|]. split; [done|].
  exact (proj1 (Hnew eq_refl)).
Defined.

Lemma stores_clamped_intro setter field lo hi a :
  lo <= hi ->
  (forall v, exists a', setter v a = Normal a' /\ field a' = clamp lo hi v) ->
  stores_clamped setter field lo hi a.
Proof.
  intros Hle H v. destruct (H v) as (a' & Hres & Hf).
  exists a'. rewrite Hf. split; [done|]. split; [done|].
  split; [by apply clamp_range|].
  split; intros Hv; [by apply clamp_below | by apply clamp_above].
Qed.

(** C7, as stated, fails for the argument [NaN], which lies in no range:
    on the engine of the playing page, which is initialized,
    [setFrequency(NaN)] assigns [NaN] to [currentFrequency], unclamped, and
    then raises the [TypeError] of [linearRampToValueAtTime]. *)
Lemma setFrequency_NaN_raises :
  let a := JS.parameters (audio (controller playing)) in
  JS.initialized a = true /\
  (JS.setFrequency JS.NaN a).2 = Throw TypeError /\
  JS.currentFrequency (JS.setFrequency JS.NaN a).1 = JS.NaN /\
  ~ JS.within 50 2000 (JS.currentFrequency (JS.setFrequency JS.NaN a).1).
Proof.
  pose proof initialized_playing as Hi.
  generalize dependent (audio (controller playing)). intros a Hi.
  destruct (number_setters_NaN (JS.parameters a) Hi) as (Hraise & Hf & _).
  split; [exact Hi|]. split; [exact Hraise|]. split; [exact Hf|].
  rewrite Hf. intros [].
Qed.

(** C7, as amended. Before [init], [start], [stop] and the five setters
    return normally and leave the whole engine, so every stored parameter,
    as it was; this holds for every number as argument, [NaN] included.
    After [init], each of the five setters returns normally for every real
    argument and stores the argument clamped to the range of its parameter;
    so it does for [Infinity], stored as the upper bound, and [-Infinity],
    stored as the lower: for every number but [NaN]. On real arguments the
    setters on numbers and the setters of the engine agree. *)
Theorem setters_never_raise :
  (forall a v,
     Audio.initialized a = false ->
     Audio.start a = Normal a /\
     Audio.stop a = Normal a /\
     Audio.setFrequency v a = Normal a /\
     Audio.setFilterFrequency v a = Normal a /\
     Audio.setFilterQ v a = Normal a /\
     Audio.setReverbMix v a = Normal a /\
     Audio.setDelayTime v a = Normal a) /\
  (forall p,
     Main.reachable p ->
     Audio.initialized (audio (controller p)) = true ->
     let a := audio (controller p) in
     stores_clamped Audio.setFrequency Audio.currentFrequency 50 2000 a /\
     stores_clamped Audio.setFilterFrequency Audio.filterFrequency 200 5000 a /\
     stores_clamped Audio.setFilterQ Audio.filterQ 1 20 a /\
     stores_clamped Audio.setReverbMix Audio.reverbMix 0 1 a /\
     stores_clamped Audio.setDelayTime Audio.delayTime 0 0.5 a) /\
  (forall a v,
     JS.initialized a = false ->
     JS.setFrequency v a = (a, Normal ()) /\
     JS.setFilterFrequency v a = (a, Normal ()) /\
     JS.setFilterQ v a = (a, Normal ()) /\
     JS.setReverbMix v a = (a, Normal ()) /\
     JS.setDelayTime v a = (a, Normal ())) /\
  (forall a,
     JS.initialized a = true ->
     JS.clamps JS.setFrequency JS.currentFrequency 50 2000 a /\
     JS.clamps JS.setFilterFrequency JS.filterFrequency 200 5000 a /\
     JS.clamps JS.setFilterQ JS.filterQ 1 20 a /\
     JS.clamps JS.setReverbMix JS.reverbMix 0 1 a /\
     JS.clamps JS.setDelayTime JS.delayTime 0 0.5 a) /\
  (forall p,
     Main.reachable p ->
     let a := audio (controller p) in
     JS.agree JS.setFrequency Audio.setFrequency a /\
     JS.agree JS.setFilterFrequency Audio.setFilterFrequency a /\
     JS.agree JS.setFilterQ Audio.setFilterQ a /\
     JS.agree JS.setReverbMix Audio.setReverbMix a /\
     JS.agree JS.setDelayTime Audio.setDelayTime a).
Proof.
  split; [|split; [|split; [|split]]].
  - intros a v Hi.
    unfold Audio.start, Audio.stop, Audio.setFrequency,
      Audio.setFilterFrequency, Audio.setFilterQ, Audio.setReverbMix,
      Audio.setDelayTime.
    rewrite Hi. simpl. by repeat split.
  - intros p Hp Hi a.
    destruct (reachable_inv p Hp) as ((Ha & _) & _). fold a in Ha, Hi.
    repeat split; (apply stores_clamped_intro; [lra|]); intros v.
    + destruct (setFrequency_inv v a Ha) as (a' & Hres & Hret & _).
      destruct (retuned_after _ _ _ Hi Hret) as (ctx' & ->). eauto.
    + destruct (setFilterFrequency_inv v a Ha) as (a' & Hres & Hret & _).
      destruct (retuned_after _ _ _ Hi Hret) as (ctx' & ->). eauto.
    + destruct (setFilterQ_inv v a Ha) as (a' & Hres & Hret & _).
      destruct (retuned_after _ _ _ Hi Hret) as (ctx' & ->). eauto.
    + destruct (setReverbMix_inv v a Ha) as (a' & Hres & Hret & _).
      destruct (retuned_after _ _ _ Hi Hret) as (ctx' & ->). eauto.
    + destruct (setDelayTime_inv v a Ha) as (a' & Hres & Hret & _).
      destruct (retuned_after _ _ _ Hi Hret) as (ctx' & ->). eauto.
  - exact number_setters_before.
  - intros a Hi.
    split; [by apply setFrequency_clamps|].
    split; [by apply setFilterFrequency_clamps|].
    split; [by apply setFilterQ_clamps|].
    split; [by apply setReverbMix_clamps|by apply setDelayTime_clamps].
  - intros p Hp a. apply setters_agree.
    by destruct (reachable_inv p Hp) as ((Ha & _) & _).
Qed.

Lemma setters_never_raise_witness :
  Audio.setDelayTime 7 Audio.constructor = Normal Audio.constructor /\
  (exists a', Audio.setDelayTime 7 (audio (controller playing)) = Normal a' /\
              Audio.delayTime a' = 0.5) /\
  JS.setDelayTime JS.NaN (JS.parameters Audio.constructor)
  = (JS.parameters Audio.constructor, Normal ()) /\
  (exists a',
     JS.setDelayTime JS.Infinity (JS.parameters (audio (controller playing)))
     = (a', Normal ()) /\
     JS.delayTime a' = JS.Finite 0.5) /\
  (exists a',
     Audio.setDelayTime 7 (audio (controller playing)) = Normal a' /\
     JS.setDelayTime (JS.Finite 7) (JS.parameters (audio (controller playing)))
     = (JS.parameters a', Normal ())).
Proof.
  destruct setters_never_raise
    as (Hbefore & Hafter & Hguard & Hclamps & Hagree).
  split; [apply (Hbefore Audio.constructor 7 eq_refl)|].
  split.
  { destruct (Hafter playing reachable_playing initialized_playing)
      as (_ & _ & _ & _ & Hd).
    destruct (Hd 7) as (a' & Hres & _ & _ & _ & Hhi).
    exists a'. split; [exact Hres|]. apply Hhi. lra. }
  split.
  { exact (proj2 (proj2 (proj2 (proj2
      (Hguard (JS.parameters Audio.constructor) JS.NaN eq_refl))))). }
  split.
  - destruct (Hclamps (JS.parameters (audio (controller playing)))
                initialized_playing) as (_ & _ & _ & _ & Hd).
    destruct (Hd JS.Infinity) as (a' & r & Hres & Hf & _ & _ & Hinf & _).
    { intros [=]. }
    exists a'. split; [exact Hres|]. rewrite Hf. f_equal. by apply Hinf.
  - destruct (Hagree playing reachable_playing) as (_ & _ & _ & _ & Hd).
    exact (Hd 7).
Defined.

Lemma fold_bytes bins acc :
  fold_left (fun sum b => sum + Audio.byteValue b) bins acc
  = acc + foldr (fun b s => Audio.byteValue b + s) 0 bins.
Proof.
  revert acc. induction bins as [|b bins IH]; intros acc; simpl.
  - lra.
  - rewrite IH. lra.
Qed.

Lemma sumBytes_mean bins : sumBytes bins / INR (length bins) = mean bins.
Proof. unfold sumBytes, mean. rewrite fold_bytes. f_equal. lra. Qed.

Lemma getByteFrequencyData_full spectrum array :
  length spectrum = length array ->
  getByteFrequencyData spectrum array = spectrum.
Proof.
  intros Hlen. unfold getByteFrequencyData.
  rewrite <- Hlen, firstn_all. rewrite Hlen, drop_all. apply app_nil_r.
Qed.

(** C8. Before [init], [getAudioLevel] returns 0 and changes nothing. After
    [init] it reads the analyser's bins into its array of 128 bytes and
    returns their arithmetic mean divided by 255, which lies in [0, 1]
    whatever the spectrum is; when the analyser delivers its 128 bins, these
    are the bins averaged. *)
Theorem getAudioLevel_normalized_mean :
  (forall a spectrum,
     Audio.initialized a = false ->
     Audio.getAudioLevel spectrum a = Normal (0, a)) /\
  (forall p spectrum,
     Main.reachable p ->
     Audio.initialized (audio (controller p)) = true ->
     let a := audio (controller p) in
     exists array level a',
       Audio.analyserData a = Some array /\
       length array = 128%nat /\
       Audio.getAudioLevel spectrum a = Normal (level, a') /\
       let bins := getByteFrequencyData spectrum array in
       Audio.analyserData a' = Some bins /\
       level = mean bins / 255 /\
       0 <= level <= 1 /\
       (length spectrum = 128%nat -> bins = spectrum)).
Proof.
  split.
  - intros a spectrum Hi. by apply getAudioLevel_before.
  - intros p spectrum Hp Hi a.
    destruct (reachable_inv p Hp) as (((_ & Hg & _) & _) & _). fold a in Hg, Hi.
    destruct (getAudioLevel_after spectrum a Hi Hg) as (array & Hd & Hlen & Hres).
    simpl in Hres.
    exists array. do 2 eexists. split; [done|]. split; [done|].
    split; [exact Hres|]. simpl.
    split; [done|]. split; [by rewrite sumBytes_mean|]. split.
    + apply level_range. rewrite length_getByteFrequencyData. lia.
    + intros Hs. apply getByteFrequencyData_full. congruence.
Qed.

Lemma getAudioLevel_normalized_mean_witness :
  Audio.getAudioLevel [xff; x00] Audio.constructor
  = Normal (0, Audio.constructor) /\
  exists level a',
    Audio.getAudioLevel (replicate 128 xff) (audio (controller playing))
    = Normal (level, a') /\
    0 <= level <= 1.
Proof.
  destruct getAudioLevel_normalized_mean as (Hbefore & Hafter).
  split.
  - apply (Hbefore Audio.constructor _ eq_refl).
  - destruct (Hafter playing (replicate 128 xff)
                reachable_playing initialized_playing)
      as (array & level & a' & _ & _ & Hres & _ & _ & Hrange & _).
    exists level, a'. by split.
Defined.

Lemma keydown_space p :
  Main.handle (Main.keydown " ") p = Main.handle Main.click p.
Proof. by destruct p. Qed.

Lemma suspended_playing : suspended playing = 1%nat.
Proof.
  unfold playing, after. cbn [fold_left].
  change (Main.handle Main.click loaded) with (onClick loaded).
  unfold onClick. cbv zeta.
  change (Audio.initialized (audio (controller loaded))) with false.
  cbn [negb].
  destruct (init_first (window loaded) (audio (controller loaded)) eq_refl)
    as (w' & a' & ctx & -> & _).
  reflexivity.
Qed.

(** C9. However activations, continuations after the [await] and other
    events interleave, at most one audio context is ever constructed:
    exactly one once the engine is initialized, none before. [init] holds no
    [await], so an [onClick] can only be suspended behind a completed
    [init]; while one is suspended a further activation, by click or by the
    space key, finds the engine initialized, toggles, and neither
    constructs a context nor suspends. *)
Theorem never_two_contexts p :
  Main.reachable p ->
  contextsConstructed (window p)
  = (if Audio.initialized (audio (controller p)) then 1%nat else 0%nat) /\
  (contextsConstructed (window p) <= 1)%nat /\
  ((0 < suspended p)%nat ->
   Audio.initialized (audio (controller p)) = true /\
   exists p',
     Main.handle Main.click p = Normal p' /\
     Main.handle (Main.keydown " ") p = Normal p' /\
     window p' = window p /\
     suspended p' = suspended p).
Proof.
  intros Hp. pose proof (reachable_inv p Hp) as Hinv.
  destruct Hinv as (Hc & Hw & Hsu).
  split; [done|]. split.
  - rewrite Hw. destruct (Audio.initialized _); lia.
  - intros Hlt. specialize (Hsu Hlt). split; [done|].
    destruct (toggle_inv p (reachable_inv p Hp)) as (p' & Hres & _ & Hw' & Hs' & _).
    exists p'. rewrite keydown_space. simpl. unfold onClick.
    rewrite Hsu. simpl. by rewrite Hres.
Qed.

Lemma never_two_contexts_witness :
  contextsConstructed (window playing) = 1%nat /\
  exists p',
    Main.handle Main.click playing = Normal p' /\
    window p' = window playing.
Proof.
  destruct (never_two_contexts playing reachable_playing) as (Hw & _ & Hagain).
  rewrite initialized_playing in Hw. split; [done|].
  destruct Hagain as (_ & p' & Hres & _ & Hw' & _).
  - rewrite suspended_playing. lia.
  - exists p'. by split.
Defined.

Lemma mouseup_resets p :
  Main.reachable p ->
  exists p' m,
    Main.handle Main.mouseup p = Normal p' /\
    Main.handle Main.touchend p = Normal p' /\
    isDragging (controller p') = false /\
    Scene3D.mesh (scene (controller p')) = Some m /\
    Scene3D.positionX m = 0 /\ Scene3D.positionY m = 0 /\
    Audio.delayTime (audio (controller p')) = 0.2 /\
    Audio.reverbMix (audio (controller p')) = 0.3.
Proof.
  intros Hp. destruct (reachable_inv p Hp) as (Hc & _).
  destruct (onMouseUp_spec _ Hc) as (c' & m & Hres & _ & _ & Hrest).
  exists {| window := window p; status := status p;
            suspended := suspended p; controller := c' |}, m.
  split; [|split; [|exact Hrest]].
  - simpl. unfold lift. by rewrite Hres.
  - simpl. unfold lift, onTouchEnd. by rewrite Hres.
Qed.

(** C10. In every reachable state, whether a drag is in progress or not, a
    mouse-up and a touch-end do the same: the drag flag is cleared, the
    shape is put at the origin, delayTime is 0.2 and reverbMix is 0.3
    afterwards. So it is for a plain click: a mouse-down followed at once by
    a mouse-up. *)
Theorem every_release_resets p :
  Main.reachable p ->
  (exists p' m,
     Main.handle Main.mouseup p = Normal p' /\
     Main.handle Main.touchend p = Normal p' /\
     isDragging (controller p') = false /\
     Scene3D.mesh (scene (controller p')) = Some m /\
     Scene3D.positionX m = 0 /\ Scene3D.positionY m = 0 /\
     Audio.delayTime (audio (controller p')) = 0.2 /\
     Audio.reverbMix (audio (controller p')) = 0.3) /\
  (forall e,
     exists p1 p2 m,
       Main.handle (Main.mousedown e) p = Normal p1 /\
       Main.handle Main.mouseup p1 = Normal p2 /\
       isDragging (controller p2) = false /\
       Scene3D.mesh (scene (controller p2)) = Some m /\
       Scene3D.positionX m = 0 /\ Scene3D.positionY m = 0 /\
       Audio.delayTime (audio (controller p2)) = 0.2 /\
       Audio.reverbMix (audio (controller p2)) = 0.3).
Proof.
  intros Hp. split; [by apply mouseup_resets|].
  intros e.
  destruct (reachable_returns p (Main.mousedown e) Hp I) as (p1 & H1).
  assert (Hp1 : Main.reachable p1)
    by (by apply (Main.reachable_step p (Main.mousedown e) p1)).
  destruct (mouseup_resets p1 Hp1) as (p2 & m & H2 & _ & Hrest).
  exists p1, p2, m. by split.
Qed.

Lemma every_release_resets_witness :
  exists p1 p2,
    Main.handle (Main.mousedown {| clientX := 300; clientY := 200 |}) dragging
    = Normal p1 /\
    Main.handle Main.mouseup p1 = Normal p2 /\
    Audio.delayTime (audio (controller p2)) = 0.2 /\
    Audio.reverbMix (audio (controller p2)) = 0.3.
Proof.
  destruct (every_release_resets dragging reachable_dragging) as (_ & Hclick).
  destruct (Hclick {| clientX := 300; clientY := 200 |})
    as (p1 & p2 & m & H1 & H2 & _ & _ & _ & _ & Hd & Hr).
  by exists p1, p2.
Defined.

(** ** A drag, step by step *)

Lemma onMouseMove_isDragging e rect c c' :
  onMouseMove e rect c = Normal c' -> isDragging c' = isDragging c.
Proof.
  unfold onMouseMove. intros H.
  apply bind_Normal in H as (a1 & _ & H).
  apply bind_Normal in H as (a2 & _ & H).
  cbn [isDragging set_audio set_scene set_mouse set_shapeOffset] in H.
  destruct (isDragging c) eqn:Hd.
  - apply bind_Normal in H as (a3 & _ & H).
    apply bind_Normal in H as (a4 & _ & H).
    by injection H as <-.
  - by injection H as <-.
Qed.

Lemma controller_after_drag p e0 e1 rect c' :
  onMouseMove e1 rect (onMouseDown e0 (controller p)) = Normal c' ->
  controller (after [Main.mousedown e0; Main.mousemove e1 rect] p) = c'.
Proof.
  intros H. unfold after. cbn [fold_left].
  change (Main.handle (Main.mousedown e0) p)
    with (Normal {| window := window p; status := status p;
                    suspended := suspended p;
                    controller := onMouseDown e0 (controller p) |}).
  cbv iota beta.
  change (Main.handle (Main.mousemove e1 rect)
            {| window := window p; status := status p;
               suspended := suspended p;
               controller := onMouseDown e0 (controller p) |})
    with (onMouseMove e1 rect (onMouseDown e0 (controller p))
          ≫= λ c, mret {| window := window p; status := status p;
                           suspended := suspended p; controller := c |}).
  by rewrite H.
Qed.

Lemma drag_effects p :
  Main.reachable p ->
  Audio.initialized (audio (controller p)) = true ->
  let p' :=
    after [Main.mousedown {| clientX := 300; clientY := 200 |};
           Main.mousemove {| clientX := 700; clientY := 350 |} canvasRect] p in
  isDragging (controller p') = true /\
  Audio.delayTime (audio (controller p')) = 0.25 /\
  Audio.reverbMix (audio (controller p')) = 0.25 /\
  Audio.filterFrequency (audio (controller p')) = 3800 /\
  Audio.filterQ (audio (controller p')) = 10.5.
Proof.
  intros Hp Hi.
  set (e0 := {| clientX := 300; clientY := 200 |}).
  set (e1 := {| clientX := 700; clientY := 350 |}).
  assert (Hc1 : ctl_inv (onMouseDown e0 (controller p))).
  { apply onMouseDown_inv. by destruct (reachable_inv _ Hp). }
  destruct (onMouseMove_spec e1 canvasRect _ Hc1)
    as (c' & Hres & _ & _ & _ & _ & Hval).
  destruct (Hval Hi) as (Hf & Hq & Hdrag).
  destruct (Hdrag eq_refl) as (Hd & Hr).
  pose proof (onMouseMove_isDragging _ _ _ _ Hres) as Hflag.
  cbv zeta.
  rewrite (controller_after_drag p e0 e1 canvasRect c' Hres).
  rewrite Hd, Hr, Hf, Hq.
  split; [exact Hflag|]. simpl.
  rewrite (Rabs_pos_eq ((700 - 300) / 800)) by lra.
  rewrite (Rabs_pos_eq ((350 - 200) / 600)) by lra.
  rewrite !clamp_inside by lra. repeat split; lra.
Qed.

(** On the playing page the pointer is pressed at (300, 200) and moved to
    (700, 350) over a canvas of 800 by 600 at (100, 50): half the width and
    a quarter of the height. During the drag delayTime is 0.25 and reverbMix
    is 0.25, and the filter follows the pointer. *)
Example dragging_effects :
  isDragging (controller dragging) = true /\
  Audio.delayTime (audio (controller dragging)) = 0.25 /\
  Audio.reverbMix (audio (controller dragging)) = 0.25 /\
  Audio.filterFrequency (audio (controller dragging)) = 3800 /\
  Audio.filterQ (audio (controller dragging)) = 10.5.
Proof. exact (drag_effects playing reachable_playing initialized_playing). Qed.

Lemma onMouseMove_rotation e rect c :
  ctl_inv c ->
  exists c',
    onMouseMove e rect c = Normal c' /\
    Scene3D.targetRotationX (scene c')
    = ((clientY e - top rect) / height rect - 0.5) * PI * 2 /\
    Scene3D.targetRotationY (scene c')
    = ((clientX e - left rect) / width rect - 0.5) * PI * 2 /\
    dragStartX c' = dragStartX c /\ dragStartY c' = dragStartY c /\
    Audio.initialized (audio c') = Audio.initialized (audio c).
Proof.
  intros Hc. pose proof Hc as (Ha & Hs & [m Hm]).
  destruct (onMouseMove_spec e rect c Hc) as (c' & Hres & _ & Hi & _).
  exists c'. split; [exact Hres|].
  split; [|split; [|split; [|split; [|exact Hi]]]]; clear Hi;
    revert Hres; unfold onMouseMove; intros H;
    apply bind_Normal in H as (a1 & _ & H);
    apply bind_Normal in H as (a2 & _ & H);
    cbn [isDragging set_audio set_scene set_mouse set_shapeOffset
         mouseX mouseY scene dragStartX dragStartY] in H;
    (destruct (isDragging c);
     [ apply bind_Normal in H as (a3 & _ & H);
       apply bind_Normal in H as (a4 & _ & H);
       injection H as <-;
       cbn [scene set_audio set_scene set_shapeOffset shapeOffsetX
            shapeOffsetY dragStartX dragStartY];
       unfold Scene3D.setPosition;
       cbn [Scene3D.mesh Scene3D.setRotation]; by rewrite ?Hm
     | by injection H as <- ]).
Qed.

Lemma drag_pointer p :
  Main.reachable p ->
  let p' :=
    after [Main.mousedown {| clientX := 300; clientY := 200 |};
           Main.mousemove {| clientX := 700; clientY := 350 |} canvasRect] p in
  dragStartX (controller p') = 300 /\
  dragStartY (controller p') = 200 /\
  Audio.initialized (audio (controller p'))
  = Audio.initialized (audio (controller p)) /\
  Scene3D.targetRotationX (scene (controller p')) = 0 /\
  Scene3D.targetRotationY (scene (controller p')) = PI / 2.
Proof.
  intros Hp.
  set (e0 := {| clientX := 300; clientY := 200 |}).
  set (e1 := {| clientX := 700; clientY := 350 |}).
  assert (Hc1 : ctl_inv (onMouseDown e0 (controller p))).
  { apply onMouseDown_inv. by destruct (reachable_inv _ Hp). }
  destruct (onMouseMove_rotation e1 canvasRect _ Hc1)
    as (c' & Hres & Hrx & Hry & Hsx & Hsy & Hi).
  cbv zeta.
  rewrite (controller_after_drag p e0 e1 canvasRect c' Hres).
  rewrite Hrx, Hry, Hsx, Hsy, Hi. simpl.
  repeat split; lra.
Qed.

(** The drag on the playing page was started at (300, 200); its pointer is
    at three quarters of the width and half the height of the canvas, so the
    shape is to turn by a quarter turn about y and not about x. *)
Example dragging_pointer :
  dragStartX (controller dragging) = 300 /\
  dragStartY (controller dragging) = 200 /\
  Audio.initialized (audio (controller dragging)) = true /\
  Scene3D.targetRotationX (scene (controller dragging)) = 0 /\
  Scene3D.targetRotationY (scene (controller dragging)) = PI / 2.
Proof.
  destruct (drag_pointer playing reachable_playing)
    as (Hsx & Hsy & Hi & Hrx & Hry).
  split; [exact Hsx|]. split; [exact Hsy|].
  split; [exact (eq_trans Hi initialized_playing)|].
  split; [exact Hrx|exact Hry].
Qed.

(** * More of the code *)

(** ** What a handler does to the engine *)

Lemma method_step call a a' :
  (forall w, Main.callAudio call w a = Normal (w, a')) -> engine_step a a'.
Proof.
  intros H.
  exact (engine_call call _ _ a a'
           (H {| contextsConstructed := 0; hardwareSampleRate := 0;
                 random := fun _ => 0; randomsDrawn := 0 |})).
Qed.

Lemma start_step a a' : Audio.start a = Normal a' -> engine_step a a'.
Proof. intros H. apply (method_step Main.start). intros w. simpl. by rewrite H. Qed.

Lemma stop_step a a' : Audio.stop a = Normal a' -> engine_step a a'.
Proof. intros H. apply (method_step Main.stop). intros w. simpl. by rewrite H. Qed.

Lemma setFrequencyNormalized_step v a a' :
  Audio.setFrequencyNormalized v a = Normal a' -> engine_step a a'.
Proof.
  intros H. apply (method_step (Main.setFrequencyNormalized v)).
  intros w. simpl. by rewrite H.
Qed.

Lemma setFilterFrequency_step v a a' :
  Audio.setFilterFrequency v a = Normal a' -> engine_step a a'.
Proof.
  intros H. apply (method_step (Main.setFilterFrequency v)).
  intros w. simpl. by rewrite H.
Qed.

Lemma setFilterQ_step v a a' :
  Audio.setFilterQ v a = Normal a' -> engine_step a a'.
Proof.
  intros H. apply (method_step (Main.setFilterQ v)).
  intros w. simpl. by rewrite H.
Qed.

Lemma setReverbMix_step v a a' :
  Audio.setReverbMix v a = Normal a' -> engine_step a a'.
Proof.
  intros H. apply (method_step (Main.setReverbMix v)).
  intros w. simpl. by rewrite H.
Qed.

Lemma setDelayTime_step v a a' :
  Audio.setDelayTime v a = Normal a' -> engine_step a a'.
Proof.
  intros H. apply (method_step (Main.setDelayTime v)).
  intros w. simpl. by rewrite H.
Qed.

Lemma setWaveform_step kind a a' :
  Audio.setWaveform kind a = Normal a' -> engine_step a a'.
Proof.
  intros H. apply (method_step (Main.setWaveform kind)).
  intros w. simpl. by rewrite H.
Qed.

Lemma getAudioLevel_step spectrum a level a' :
  Audio.getAudioLevel spectrum a = Normal (level, a') -> engine_step a a'.
Proof.
  intros H. apply (method_step (Main.getAudioLevel spectrum)).
  intros w. simpl. by rewrite H.
Qed.

Lemma onMouseMove_engine e rect c c' :
  onMouseMove e rect c = Normal c' -> rtc engine_step (audio c) (audio c').
Proof.
  unfold onMouseMove. intros H.
  apply bind_Normal in H as (a1 & H1 & H).
  apply bind_Normal in H as (a2 & H2 & H).
  cbn [isDragging set_audio set_scene set_mouse set_shapeOffset] in H.
  eapply rtc_l; [by eapply setFilterFrequency_step|].
  eapply rtc_l; [by eapply setFilterQ_step|].
  destruct (isDragging c).
  - apply bind_Normal in H as (a3 & H3 & H).
    apply bind_Normal in H as (a4 & H4 & H).
    injection H as <-. simpl.
    eapply rtc_l; [by eapply setDelayTime_step|].
    eapply rtc_l; [by eapply setReverbMix_step|]. done.
  - injection H as <-. done.
Qed.

Lemma onWheel_engine deltaY c c' :
  onWheel deltaY c = Normal c' -> rtc engine_step (audio c) (audio c').
Proof.
  unfold onWheel. intros H.
  apply bind_Normal in H as (a1 & H1 & H). injection H as <-.
  eapply rtc_l; [by eapply setFrequencyNormalized_step|]. done.
Qed.

Lemma onMouseUp_engine c c' :
  onMouseUp c = Normal c' -> rtc engine_step (audio c) (audio c').
Proof.
  unfold onMouseUp. intros H.
  apply bind_Normal in H as (a1 & H1 & H).
  apply bind_Normal in H as (a2 & H2 & H). injection H as <-.
  eapply rtc_l; [by eapply setDelayTime_step|].
  eapply rtc_l; [by eapply setReverbMix_step|]. done.
Qed.

Lemma changeWaveform_engine wave c c' :
  changeWaveform wave c = Normal c' -> rtc engine_step (audio c) (audio c').
Proof.
  unfold changeWaveform. intros H.
  apply bind_Normal in H as (a1 & H1 & H). injection H as <-.
  eapply rtc_l; [by eapply setWaveform_step|]. done.
Qed.

Lemma lift_engine h p p' :
  (forall c c', h c = Normal c' -> rtc engine_step (audio c) (audio c')) ->
  lift h p = Normal p' ->
  rtc engine_step (audio (controller p)) (audio (controller p')).
Proof.
  intros Hh H. unfold lift in H.
  apply bind_Normal in H as (c' & Hc & H). injection H as <-.
  by apply Hh.
Qed.

Lemma toggle_engine p p' :
  toggle p = Normal p' ->
  rtc engine_step (audio (controller p)) (audio (controller p')).
Proof.
  unfold toggle. intros H.
  destruct (Audio.isPlaying (audio (controller p)));
    apply bind_Normal in H as (a1 & H1 & H); injection H as <-.
  - eapply rtc_l; [by eapply stop_step|]. done.
  - eapply rtc_l; [by eapply start_step|]. done.
Qed.

Lemma onClick_engine p p' :
  onClick p = Normal p' ->
  rtc engine_step (audio (controller p)) (audio (controller p')).
Proof.
  unfold onClick. intros H.
  destruct (negb (Audio.initialized (audio (controller p)))).
  - apply bind_Normal in H as ([w a1] & H1 & H). injection H as <-.
    eapply rtc_l; [exact (engine_call Main.init _ _ _ _ H1)|]. done.
  - by apply toggle_engine.
Qed.

Lemma onKeyDown_engine key p p' :
  onKeyDown key p = Normal p' ->
  rtc engine_step (audio (controller p)) (audio (controller p')).
Proof.
  unfold onKeyDown. intros H.
  apply bind_Normal in H as (p1 & H1 & H).
  apply bind_Normal in H as (p2 & H2 & H).
  etrans; [|etrans].
  - eapply lift_engine; [|exact H1].
    clear. intros c c' [= <-]. repeat case_match; apply rtc_refl.
  - eapply lift_engine; [|exact H2].
    clear. intros c c' Hc. repeat case_match;
      try (by eapply changeWaveform_engine). by injection Hc as <-.
  - clear H1 H2. case_match; [by apply onClick_engine | by injection H as <-].
Qed.

Lemma handle_engine ev p p' :
  Main.enabled ev p -> Main.handle ev p = Normal p' ->
  rtc engine_step (audio (controller p)) (audio (controller p')).
Proof.
  intros Hen H. destruct ev; simpl in H.
  - eapply lift_engine; [|exact H]. apply onMouseMove_engine.
  - eapply lift_engine; [|exact H]. apply onWheel_engine.
  - by apply onClick_engine.
  - eapply lift_engine; [|exact H]. by intros c c' [= <-].
  - eapply lift_engine; [|exact H]. apply onMouseUp_engine.
  - eapply lift_engine; [|exact H]. intros c c' [= <-]. by destruct touches.
  - eapply lift_engine; [|exact H]. intros c c'. destruct touches as [|t ?]; simpl.
    + by intros [= <-].
    + apply onMouseMove_engine.
  - eapply lift_engine; [|exact H]. apply onMouseUp_engine.
  - by eapply onKeyDown_engine.
  - eapply lift_engine; [|exact H]. by intros c c' [= <-].
  - eapply lift_engine; [|exact H]. apply changeWaveform_engine.
  - by apply toggle_engine in H.
  - eapply lift_engine; [|exact H]. intros c c' Hc. unfold Main.animate in Hc.
    apply bind_Normal in Hc as ([level a1] & H1 & Hc). injection Hc as <-.
    eapply rtc_l; [by eapply getAudioLevel_step|]. done.
  - eapply lift_engine; [|exact H]. intros c c' [= <-]. simpl.
    eapply rtc_l; [by apply engine_elapse|]. done.
  - apply bind_Normal in H as ([w a1] & H1 & H). injection H as <-.
    eapply rtc_l; [exact (engine_call _ _ _ _ _ H1)|]. done.
  - eapply lift_engine; [|exact H]. by intros c c' [= <-].
Qed.

(** A property of the engine that holds when it is constructed and that
    every method and the passing of time keep, holds on every page. *)
Lemma engine_invariant (I : Audio.AudioSynthesizer -> Prop) :
  I Audio.constructor ->
  (forall a a', I a -> engine_step a a' -> I a') ->
  forall p, Main.reachable p -> I (audio (controller p)).
Proof.
  intros H0 Hstep p Hp.
  induction Hp as [sr rnd st | p ev p' _ IH Hen Hh]; [exact H0|].
  pose proof (handle_engine ev p p' Hen Hh) as Hrtc.
  induction Hrtc as [|a1 a2 a3 H12 _ IH23]; [done|].
  apply IH23. by apply (Hstep a1).
Qed.

(** ** Ramps in the order of time *)

Lemma StronglySorted_snoc {A} (R : A -> A -> Prop) l x :
  StronglySorted R l -> Forall (fun y => R y x) l ->
  StronglySorted R (l ++ [x]).
Proof.
  induction 1 as [|y l Hl IH Hy]; intros Hx; simpl.
  - repeat constructor.
  - inversion Hx; subst. constructor; [by apply IH|].
    apply Forall_app. split; [done|]. by constructor.
Qed.

Lemma settled_ramp v t p : settled (linearRampToValueAtTime v t p) = v.
Proof. unfold settled. simpl. by rewrite last_snoc. Qed.

Lemma tracks_param v d now : 0 <= now -> 0 <= d -> tracks v d now (param v).
Proof. intros Hn Hd. split; [done|]. split; constructor. Qed.

Lemma tracks_ramp v v' d now p :
  0 <= now -> 0 <= d -> tracks v d now p ->
  tracks v' d now (linearRampToValueAtTime v' (now + d) p).
Proof.
  intros Hn Hd (_ & Hs & Hb). split; [apply settled_ramp|]. split; simpl.
  - apply StronglySorted_snoc; [done|].
    eapply Forall_impl; [exact Hb|]. simpl. intros e He. apply He.
  - apply Forall_app. split; [done|]. constructor; [simpl; lra | constructor].
Qed.

Lemma tracks_elapse v d now dt p :
  0 <= dt -> tracks v d now p -> tracks v d (now + dt) p.
Proof.
  intros Hdt (Hv & Hs & Hb). split; [done|]. split; [done|].
  eapply Forall_impl; [exact Hb|]. simpl. intros e He. lra.
Qed.

Lemma tracks_value v v' d now p : tracks v d now p -> v = v' -> tracks v' d now p.
Proof. by intros H <-. Qed.

(** ** The layout of the graph is kept *)

Lemma layout_wired a ctx osc : layout a ctx osc -> wired a ctx.
Proof.
  intros [Ho Hg Hf Hd _ _ _ Hr _ Han _ Hdata _ _ _ (fo & Hno & _) (g2 & Hn2 & _)
          (f3 & q3 & Hn3 & _) (d4 & Hn4 & _) _ _ _ (g8 & Hn8 & _) _ Hn10 _ _ _ _ _].
  unfold wired. rewrite Ho, Hg, Hf, Hd, Hr, Han. simpl. unfold shapes.
  rewrite !list_lookup_fmap, Hno, Hn2, Hn3, Hn4, Hn8, Hn10. by repeat split.
Qed.

Lemma engine_layout_ok a : engine_layout a -> graph_ok a.
Proof.
  intros (_ & Hl) Hi. destruct (Hl Hi) as (ctx & osc & Hctx & Hlay).
  exists ctx. split; [done|]. by eapply layout_wired.
Qed.

Lemma ramp_at id n n' m v dt a ctx :
  Audio.audioContext a = Some ctx -> nodes ctx !! id = Some n ->
  m v (currentTime ctx + dt) n = Normal n' ->
  Audio.ramp (Some id) m v dt a
  = Normal (Audio.set_audioContext (Some (setNode id n' ctx)) a).
Proof.
  intros Hctx Hn Hm. unfold Audio.ramp, Audio.context. rewrite Hctx. simpl.
  by rewrite (update_ok _ _ _ _ _ Hn Hm).
Qed.

Ltac look_up :=
  first
    [ rewrite list_lookup_insert_ne by lia
    | rewrite list_lookup_insert_eq by (eapply lookup_lt_Some; eassumption) ].

Ltac open_layout H :=
  destruct H as [Ho Hg Hf Hd Hdf Hdm Hrv Hr Hdry Han Hmg Hdata Hid Htime Hn0
    (fo & Hno & Hto) (g2 & Hn2 & Ht2) (f3 & q3 & Hn3 & Ht3 & Htq)
    (d4 & Hn4 & Ht4) Hn5 Hn6 (b7 & Hn7) (g8 & Hn8 & Ht8) Hn9 Hn10 Hn11 Hn12
    Hold Hconn Hnd].

Lemma setFrequency_layout freq a ctx osc :
  Audio.initialized a = true -> Audio.audioContext a = Some ctx ->
  layout a ctx osc ->
  exists f,
    nodes ctx !! osc = Some (Oscillator (Audio.waveform a) f true false) /\
    let ctx' :=
      setNode osc
        (Oscillator (Audio.waveform a) (linearRampToValueAtTime (clamp 50 2000 freq) (currentTime ctx + 0.05) f) true false)
        ctx in
    let a' := Audio.set_audioContext (Some ctx') (Audio.set_currentFrequency (clamp 50 2000 freq) a) in
    Audio.setFrequency freq a = Normal a' /\ layout a' ctx' osc.
Proof.
  intros Hi Hctx H. open_layout H. exists fo. split; [done|].
  cbv zeta. split.
  { unfold Audio.setFrequency. rewrite Hi. simpl.
    rewrite Ho. by eapply ramp_at. }
  constructor; simpl; try done; try (by look_up).
  - eexists. look_up. split; [done|]. eapply tracks_ramp; [done|lra|eassumption].
  - exists g2. by look_up.
  - exists f3, q3. by look_up.
  - exists d4. by look_up.
  - exists b7. by look_up.
  - exists g8. by look_up.
  - intros i n Hin Hne Hrange. rewrite list_lookup_insert_ne in Hin by lia. eauto.
Qed.

Lemma setFilterFrequency_layout freq a ctx osc :
  Audio.initialized a = true -> Audio.audioContext a = Some ctx ->
  layout a ctx osc ->
  exists f q,
    nodes ctx !! 3%nat = Some (BiquadFilter f q) /\
    let ctx' :=
      setNode 3%nat
        (BiquadFilter (linearRampToValueAtTime (clamp 200 5000 freq) (currentTime ctx + 0.05) f) q)
        ctx in
    let a' := Audio.set_audioContext (Some ctx') (Audio.set_filterFrequency (clamp 200 5000 freq) a) in
    Audio.setFilterFrequency freq a = Normal a' /\ layout a' ctx' osc.
Proof.
  intros Hi Hctx H. open_layout H. exists f3, q3. split; [done|].
  cbv zeta. split.
  { unfold Audio.setFilterFrequency. rewrite Hi. simpl.
    rewrite Hf. by eapply ramp_at. }
  constructor; simpl; try done; try (by look_up).
  - exists fo. by look_up.
  - exists g2. by look_up.
  - eexists _, q3. look_up. split; [done|]. split; [|done].
    eapply tracks_ramp; [done|lra|eassumption].
  - exists d4. by look_up.
  - exists b7. by look_up.
  - exists g8. by look_up.
  - intros i n Hin Hne Hrange. rewrite list_lookup_insert_ne in Hin by lia. eauto.
Qed.

Lemma setFilterQ_layout q0 a ctx osc :
  Audio.initialized a = true -> Audio.audioContext a = Some ctx ->
  layout a ctx osc ->
  exists f q,
    nodes ctx !! 3%nat = Some (BiquadFilter f q) /\
    let ctx' :=
      setNode 3%nat
        (BiquadFilter f (linearRampToValueAtTime (clamp 1 20 q0) (currentTime ctx + 0.05) q))
        ctx in
    let a' := Audio.set_audioContext (Some ctx') (Audio.set_filterQ (clamp 1 20 q0) a) in
    Audio.setFilterQ q0 a = Normal a' /\ layout a' ctx' osc.
Proof.
  intros Hi Hctx H. open_layout H. exists f3, q3. split; [done|].
  cbv zeta. split.
  { unfold Audio.setFilterQ. rewrite Hi. simpl.
    rewrite Hf. by eapply ramp_at. }
  constructor; simpl; try done; try (by look_up).
  - exists fo. by look_up.
  - exists g2. by look_up.
  - eexists f3, _. look_up. split; [done|]. split; [done|].
    eapply tracks_ramp; [done|lra|eassumption].
  - exists d4. by look_up.
  - exists b7. by look_up.
  - exists g8. by look_up.
  - intros i n Hin Hne Hrange. rewrite list_lookup_insert_ne in Hin by lia. eauto.
Qed.

Lemma setReverbMix_layout mix a ctx osc :
  Audio.initialized a = true -> Audio.audioContext a = Some ctx ->
  layout a ctx osc ->
  exists g,
    nodes ctx !! 8%nat = Some (Gain g) /\
    let ctx' :=
      setNode 8%nat
        (Gain (linearRampToValueAtTime (clamp 0 1 mix) (currentTime ctx + 0.05) g))
        ctx in
    let a' := Audio.set_audioContext (Some ctx') (Audio.set_reverbMix (clamp 0 1 mix) a) in
    Audio.setReverbMix mix a = Normal a' /\ layout a' ctx' osc.
Proof.
  intros Hi Hctx H. open_layout H. exists g8. split; [done|].
  cbv zeta. split.
  { unfold Audio.setReverbMix. rewrite Hi. simpl.
    rewrite Hr. by eapply ramp_at. }
  constructor; simpl; try done; try (by look_up).
  - exists fo. by look_up.
  - exists g2. by look_up.
  - exists f3, q3. by look_up.
  - exists d4. by look_up.
  - exists b7. by look_up.
  - eexists. look_up. split; [done|]. eapply tracks_ramp; [done|lra|eassumption].
  - intros i n Hin Hne Hrange. rewrite list_lookup_insert_ne in Hin by lia. eauto.
Qed.

Lemma setDelayTime_layout time a ctx osc :
  Audio.initialized a = true -> Audio.audioContext a = Some ctx ->
  layout a ctx osc ->
  exists d,
    nodes ctx !! 4%nat = Some (Delay d) /\
    let ctx' :=
      setNode 4%nat
        (Delay (linearRampToValueAtTime (clamp 0 0.5 time) (currentTime ctx + 0.05) d))
        ctx in
    let a' := Audio.set_audioContext (Some ctx') (Audio.set_delayTime (clamp 0 0.5 time) a) in
    Audio.setDelayTime time a = Normal a' /\ layout a' ctx' osc.
Proof.
  intros Hi Hctx H. open_layout H. exists d4. split; [done|].
  cbv zeta. split.
  { unfold Audio.setDelayTime. rewrite Hi. simpl.
    rewrite Hd. by eapply ramp_at. }
  constructor; simpl; try done; try (by look_up).
  - exists fo. by look_up.
  - exists g2. by look_up.
  - exists f3, q3. by look_up.
  - eexists. look_up. split; [done|]. eapply tracks_ramp; [done|lra|eassumption].
  - exists b7. by look_up.
  - exists g8. by look_up.
  - intros i n Hin Hne Hrange. rewrite list_lookup_insert_ne in Hin by lia. eauto.
Qed.

Lemma start_layout a ctx osc :
  Audio.initialized a = true -> Audio.audioContext a = Some ctx ->
  layout a ctx osc ->
  exists g,
    nodes ctx !! 2%nat = Some (Gain g) /\
    let ctx' :=
      setNode 2%nat
        (Gain (linearRampToValueAtTime 0.5 (currentTime ctx + 0.1) g))
        ctx in
    let a' := Audio.set_audioContext (Some ctx') (Audio.set_isPlaying true a) in
    Audio.start a = Normal a' /\ layout a' ctx' osc.
Proof.
  intros Hi Hctx H. open_layout H. exists g2. split; [done|].
  cbv zeta. split.
  { unfold Audio.start. rewrite Hi. simpl.
    rewrite Hg. by eapply ramp_at. }
  constructor; simpl; try done; try (by look_up).
  - exists fo. by look_up.
  - eexists. look_up. split; [done|]. eapply tracks_ramp; [done|lra|eassumption].
  - exists f3, q3. by look_up.
  - exists d4. by look_up.
  - exists b7. by look_up.
  - exists g8. by look_up.
  - intros i n Hin Hne Hrange. rewrite list_lookup_insert_ne in Hin by lia. eauto.
Qed.

Lemma stop_layout a ctx osc :
  Audio.initialized a = true -> Audio.audioContext a = Some ctx ->
  layout a ctx osc ->
  exists g,
    nodes ctx !! 2%nat = Some (Gain g) /\
    let ctx' :=
      setNode 2%nat
        (Gain (linearRampToValueAtTime 0 (currentTime ctx + 0.1) g))
        ctx in
    let a' := Audio.set_audioContext (Some ctx') (Audio.set_isPlaying false a) in
    Audio.stop a = Normal a' /\ layout a' ctx' osc.
Proof.
  intros Hi Hctx H. open_layout H. exists g2. split; [done|].
  cbv zeta. split.
  { unfold Audio.stop. rewrite Hi. simpl.
    rewrite Hg. by eapply ramp_at. }
  constructor; simpl; try done; try (by look_up).
  - exists fo. by look_up.
  - eexists. look_up. split; [done|]. eapply tracks_ramp; [done|lra|eassumption].
  - exists f3, q3. by look_up.
  - exists d4. by look_up.
  - exists b7. by look_up.
  - exists g8. by look_up.
  - intros i n Hin Hne Hrange. rewrite list_lookup_insert_ne in Hin by lia. eauto.
Qed.

Lemma init_layout w a :
  pristine a -> Audio.initialized a = false ->
  exists w' a' ctx,
    Audio.init w a = Normal (w', a') /\
    Audio.initialized a' = true /\
    Audio.audioContext a' = Some ctx /\
    layout a' ctx 1.
Proof.
  intros Hp Hi. pose proof (Hp Hi) as Ha.
  remember (Audio.waveform a) as wf eqn:E. clear E Hp Hi. subst a.
  unfold Audio.init. cbn.
  do 3 eexists. split; [reflexivity|]. split; [reflexivity|].
  split; [reflexivity|].
  constructor; cbn; try done.
  - by eexists.
  - by left.
  - eexists. split; [reflexivity|]. apply tracks_param; lra.
  - eexists. split; [reflexivity|]. apply tracks_param; lra.
  - eexists _, _. split; [reflexivity|]. split; apply tracks_param; lra.
  - eexists. split; [reflexivity|]. apply tracks_param; lra.
  - by eexists.
  - eexists. split; [reflexivity|]. apply tracks_param; lra.
  - intros i n Hin Hne Hrange. apply lookup_lt_Some in Hin. simpl in Hin. lia.
  - intros e. rewrite elem_of_cons. tauto.
  - apply (bool_decide_unpack _). by vm_compute.
Qed.

Lemma NoDup_connect src dst ctx :
  NoDup (connections ctx) -> NoDup (connections (connect src dst ctx)).
Proof.
  intros Hnd. unfold connect. simpl.
  destruct (existsb (edge_eqb (src, dst)) (connections ctx)) eqn:Hex; [done|].
  apply NoDup_app. split; [done|]. split; [|apply NoDup_singleton].
  intros e He ->%list_elem_of_singleton.
  assert (existsb (edge_eqb (src, dst)) (connections ctx) = true); [|congruence].
  apply existsb_exists. exists (src, dst). split; [by apply list_elem_of_In|].
  unfold edge_eqb. simpl. by rewrite !Nat.eqb_refl.
Qed.

Lemma NoDup_disconnect src ctx :
  NoDup (connections ctx) -> NoDup (connections (disconnect src ctx)).
Proof.
  intros Hnd. unfold disconnect. simpl.
  by apply NoDup_ListNoDup, List.NoDup_filter, NoDup_ListNoDup.
Qed.

Lemma builtConnections_sources :
  Forall (fun e : NodeId * NodeId => (2 <= e.1 <= 12)%nat) (tail builtConnections).
Proof. repeat constructor; simpl; lia. Qed.

Lemma setWaveform_layout kind a ctx osc :
  Audio.initialized a = true -> Audio.audioContext a = Some ctx ->
  layout a ctx osc ->
  exists ty f,
    nodes ctx !! osc = Some (Oscillator ty f true false) /\
    let ctx' := swapped kind (Audio.currentFrequency a) osc 2 ty f ctx in
    let new := length (nodes ctx) in
    let a' := Audio.set_audioContext (Some ctx')
                (Audio.set_oscillator (Some new) (Audio.set_waveform kind a)) in
    Audio.setWaveform kind a = Normal a' /\ layout a' ctx' new.
Proof.
  intros Hi Hctx H.
  assert (Hgo : graph_ok a).
  { intros _. exists ctx. split; [done|]. by eapply layout_wired. }
  destruct (setWaveform_after kind a Hi Hgo)
    as (ctx0 & old & gain & ty & f & Hctx0 & Hold0 & Hgain & Hn & _ & Hres).
  open_layout H.
  assert (ctx0 = ctx) as -> by congruence.
  assert (old = osc) as -> by congruence.
  assert (gain = 2%nat) as -> by congruence.
  exists ty, f. split; [done|]. cbv zeta. split; [done|].
  assert (Hlen : (13 <= length (nodes ctx))%nat).
  { apply lookup_lt_Some in Hn12. lia. }
  assert (Hosc : (osc < length (nodes ctx))%nat) by (by eapply lookup_lt_Some).
  assert (Hfix : forall j n, nodes ctx !! j = Some n -> j <> osc ->
            nodes (swapped kind (Audio.currentFrequency a) osc 2 ty f ctx) !! j
            = Some n).
  { intros j n Hj Hne. rewrite nodes_swapped.
    rewrite lookup_app_l by (rewrite length_insert; by eapply lookup_lt_Some).
    by rewrite list_lookup_insert_ne. }
  pose proof (nodes_swapped kind (Audio.currentFrequency a) osc 2 ty f ctx)
    as Hns.
  unfold swapped in Hns. simpl in Hns.
  constructor; simpl; try done; try (apply Hfix; [done|lia]).
  - right. lia.
  - eexists. split.
    + by rewrite list_lookup_insert_eq
        by (rewrite length_app, length_insert; simpl; lia).
    + apply tracks_param; [done|lra].
  - exists g2. split; [|done]. apply Hfix; [done|lia].
  - exists f3, q3. split; [|done]. apply Hfix; [done|lia].
  - exists d4. split; [|done]. apply Hfix; [done|lia].
  - exists b7. apply Hfix; [done|lia].
  - exists g8. split; [|done]. apply Hfix; [done|lia].
  - intros i n Hin Hne Hrange. rewrite Hns in Hin.
    destruct (decide (i < length (nodes ctx))%nat) as [Hlt|Hge].
    + rewrite lookup_app_l in Hin by (by rewrite length_insert).
      destruct (decide (i = osc)) as [->|Hio].
      * rewrite list_lookup_insert_eq in Hin by done. injection Hin as <-. eauto.
      * rewrite list_lookup_insert_ne in Hin by done. eauto.
    + apply lookup_lt_Some in Hin. rewrite length_app, length_insert in Hin.
      simpl in Hin. lia.
  - intros e.
    change (e ∈ connections (connect (length (nodes ctx)) 2 (disconnect osc ctx))
            <-> e = (length (nodes ctx), 2%nat) \/ e ∈ tail builtConnections).
    rewrite elem_of_connect, elem_of_disconnect, Hconn.
    pose proof builtConnections_sources as Hsrc.
    rewrite Forall_forall in Hsrc.
    split.
    + intros [-> | ([-> | He] & Hne)]; [by left | done | by right].
    + intros [-> | He]; [by left|]. right. split; [by right|].
      specialize (Hsrc e He). lia.
  - change (NoDup (connections
                     (connect (length (nodes ctx)) 2 (disconnect osc ctx)))).
    by apply NoDup_connect, NoDup_disconnect.
Qed.

Lemma getAudioLevel_layout spectrum a ctx osc :
  Audio.initialized a = true -> Audio.audioContext a = Some ctx ->
  layout a ctx osc ->
  exists level data,
    length data = 128%nat /\
    Audio.getAudioLevel spectrum a
    = Normal (level, Audio.set_analyserData (Some data) a) /\
    layout (Audio.set_analyserData (Some data) a) ctx osc.
Proof.
  intros Hi Hctx H.
  assert (Hgo : graph_ok a).
  { intros _. exists ctx. split; [done|]. by eapply layout_wired. }
  destruct (getAudioLevel_after spectrum a Hi Hgo)
    as (array & Harr & Hlen & Hres).
  simpl in Hres. do 2 eexists. split; [|split; [exact Hres|]].
  { by rewrite length_getByteFrequencyData. }
  open_layout H. constructor; simpl; try done; eauto.
  eexists. split; [done|]. by rewrite length_getByteFrequencyData.
Qed.

Lemma elapse_layout dt a ctx osc :
  0 <= dt -> Audio.audioContext a = Some ctx -> layout a ctx osc ->
  exists ctx',
    Audio.audioContext (Main.elapse dt a) = Some ctx' /\
    layout (Main.elapse dt a) ctx' osc.
Proof.
  intros Hdt Hctx H. unfold Main.elapse. rewrite Hctx.
  eexists. split; [reflexivity|].
  open_layout H. constructor; simpl; try done.
  - lra.
  - exists fo. split; [done|]. by apply tracks_elapse.
  - exists g2. split; [done|]. by apply tracks_elapse.
  - exists f3, q3. split; [done|]. split; by apply tracks_elapse.
  - exists d4. split; [done|]. by apply tracks_elapse.
  - by exists b7.
  - exists g8. split; [done|]. by apply tracks_elapse.
Qed.

Lemma engine_layout_intro a ctx osc :
  Audio.initialized a = true -> Audio.audioContext a = Some ctx ->
  layout a ctx osc -> engine_layout a.
Proof.
  intros Hi Hctx Hlay. split.
  - intros Hf. congruence.
  - intros _. eauto.
Qed.

Lemma engine_layout_idle a :
  pristine a -> Audio.initialized a = false -> engine_layout a.
Proof. intros Hp Hi. split; [done|]. intros Hf. congruence. Qed.

Ltac ramp_step L :=
  match goal with
  | Hi : Audio.initialized ?a = true, Hctx : Audio.audioContext ?a = Some ?ctx,
    Hlay : layout ?a ?ctx ?osc, H : _ = Normal _ |- _ =>
      let Hres := fresh "Hres" in
      let Hlay' := fresh "Hlay" in
      first
        [ destruct (L a ctx osc Hi Hctx Hlay) as (? & _ & Hres & Hlay')
        | destruct (L a ctx osc Hi Hctx Hlay) as (? & ? & _ & Hres & Hlay') ];
      cbv zeta in Hres, Hlay'; rewrite Hres in H; simpl in H;
      injection H as <- <-;
      by eapply engine_layout_intro
  end.

Ltac idle_step op :=
  match goal with
  | Hi : Audio.initialized ?a = false, H : _ = Normal _ |- _ =>
      unfold op in H; rewrite Hi in H; simpl in H; injection H as <- <-;
      by apply engine_layout_idle
  end.

Lemma engine_layout_step a a' :
  engine_layout a -> engine_step a a' -> engine_layout a'.
Proof.
  intros (Hp & Hl) Hstep.
  destruct (Audio.initialized a) eqn:Hi.
  - destruct (Hl eq_refl) as (ctx & osc & Hctx & Hlay).
    destruct Hstep as [call w w' a a' H | dt a Hdt].
    + destruct call as [| | |freq|freq|q|mix|time|type|spectrum|v]; simpl in H.
      * rewrite (init_again w a Hi) in H. injection H as <- <-.
        by eapply engine_layout_intro.
      * ramp_step start_layout.
      * ramp_step stop_layout.
      * ramp_step (setFrequency_layout freq).
      * ramp_step (setFilterFrequency_layout freq).
      * ramp_step (setFilterQ_layout q).
      * ramp_step (setReverbMix_layout mix).
      * ramp_step (setDelayTime_layout time).
      * ramp_step (setWaveform_layout type).
      * destruct (getAudioLevel_layout spectrum a ctx osc Hi Hctx Hlay)
          as (level & data & _ & Hres & Hlay').
        rewrite Hres in H. simpl in H. injection H as <- <-.
        by eapply engine_layout_intro.
      * unfold Audio.setFrequencyNormalized in H.
        ramp_step (setFrequency_layout (110 * Rpower (1760 / 110) v)).
    + destruct (elapse_layout dt a ctx osc Hdt Hctx Hlay) as (ctx' & Hctx' & Hlay').
      eapply engine_layout_intro; [|exact Hctx'|exact Hlay'].
      unfold Main.elapse. by rewrite Hctx.
  - destruct Hstep as [call w w' a a' H | dt a Hdt].
    + destruct call as [| | |freq|freq|q|mix|time|type|spectrum|v]; simpl in H.
      * destruct (init_layout w a Hp Hi) as (w1 & a1 & ctx & Hres & Hi1 & Hctx & Hlay).
        rewrite Hres in H. injection H as <- <-.
        by eapply engine_layout_intro.
      * idle_step Audio.start.
      * idle_step Audio.stop.
      * idle_step Audio.setFrequency.
      * idle_step Audio.setFilterFrequency.
      * idle_step Audio.setFilterQ.
      * idle_step Audio.setReverbMix.
      * idle_step Audio.setDelayTime.
      * rewrite (setWaveform_before type a Hi) in H. simpl in H.
        injection H as <- <-. apply engine_layout_idle; [|done].
        intros _. simpl. rewrite (Hp Hi). reflexivity.
      * rewrite (getAudioLevel_before spectrum a Hi) in H. simpl in H.
        injection H as <- <-. by apply engine_layout_idle.
      * unfold Audio.setFrequencyNormalized in H. idle_step Audio.setFrequency.
    + assert (Main.elapse dt a = a) as ->.
      { unfold Main.elapse. by rewrite (Hp Hi). }
      by apply engine_layout_idle.
Qed.

Lemma reachable_layout p :
  Main.reachable p -> engine_layout (audio (controller p)).
Proof.
  apply (engine_invariant engine_layout).
  - split; [done|]. intros Hf. discriminate.
  - apply engine_layout_step.
Qed.

(** ** What the graph looks like on every page *)



(** X2. No method ever touches the nodes that [init] set up with a constant:
    on every reachable page with the engine initialized the dry gain is
    still at 1 - 0.3, whatever [reverbMix] has become, the delay feedback at
    0.4, the delay mix at 0.3, the master gain at 0.3, none of them with a
    ramp scheduled; the analyser still has its FFT size of 256 and its array
    128 bins, and the convolver its buffer. *)
Theorem fixed_nodes_stay_fixed p :
  Main.reachable p ->
  Audio.initialized (audio (controller p)) = true ->
  let a := audio (controller p) in
  exists ctx buffer data,
    Audio.audioContext a = Some ctx /\
    nodeOf (Audio.dryGain a) ctx = Some (Gain (param (1 - 0.3))) /\
    nodeOf (Audio.delayFeedback a) ctx = Some (Gain (param 0.4)) /\
    nodeOf (Audio.delayMix a) ctx = Some (Gain (param 0.3)) /\
    nodeOf (Audio.masterGain a) ctx = Some (Gain (param 0.3)) /\
    nodeOf (Audio.reverb a) ctx = Some (Convolver (Some buffer)) /\
    nodeOf (Audio.analyser a) ctx = Some (Analyser 256) /\
    Audio.analyserData a = Some data /\ length data = 128%nat.
Proof.
  intros Hp Hi a.
  destruct (reachable_layout p Hp) as (_ & Hl).
  destruct (Hl Hi) as (ctx & osc & Hctx & Hlay). fold a in Hctx, Hlay.
  open_layout Hlay. destruct Hdata as (data & Hdata & Hlen).
  exists ctx, b7, data.
  rewrite Hdry, Hdf, Hdm, Hmg, Hrv, Han. simpl. by repeat split.
Qed.

Lemma fixed_nodes_stay_fixed_witness :
  exists ctx,
    Audio.audioContext (audio (controller playing)) = Some ctx /\
    nodeOf (Audio.dryGain (audio (controller playing))) ctx
    = Some (Gain (param (1 - 0.3))).
Proof.
  destruct (fixed_nodes_stay_fixed playing reachable_playing initialized_playing)
    as (ctx & b & data & Hctx & Hdry & _).
  exists ctx. split; [exact Hctx|exact Hdry].
Defined.

Lemma builtConnections_targets :
  Forall (fun e : NodeId * NodeId => (e.2 = 0 \/ 2 <= e.2 <= 12)%nat)
    (tail builtConnections).
Proof.
  unfold builtConnections. simpl.
  repeat (apply Forall_cons; split; [simpl; lia|]). constructor.
Qed.

Lemma layout_roles a ctx osc i :
  layout a ctx osc -> (i < length (nodes ctx))%nat ->
  i = osc \/
  (exists n, nodes ctx !! i = Some n /\ is_oscillator n = false) \/
  (exists ty f, nodes ctx !! i = Some (Oscillator ty f true true) /\
                (i = 1%nat \/ (13 <= i)%nat)).
Proof.
  intros H Hlt. open_layout H.
  destruct (decide (i = osc)) as [->|Hne]; [by left|]. right.
  assert (Hcases : (i = 0 \/ i = 2 \/ i = 3 \/ i = 4 \/ i = 5 \/ i = 6 \/
                    i = 7 \/ i = 8 \/ i = 9 \/ i = 10 \/ i = 11 \/ i = 12 \/
                    (i = 1 \/ 13 <= i))%nat) by lia.
  destruct Hcases as
    [->|[->|[->|[->|[->|[->|[->|[->|[->|[->|[->|[->|Hrange]]]]]]]]]]]];
    try (left; eexists; split; [eassumption|reflexivity]).
  right. destruct (lookup_lt_is_Some_2 _ _ Hlt) as (n & Hn).
  destruct (Hold i n Hn Hne Hrange) as (ty & f & ->). eauto.
Qed.

(** X3. However often the waveform was switched, on every reachable page
    with the engine initialized exactly one oscillator feeds the graph: the
    graph has the fifteen connections that [init] made, the first of them now
    leaving the current oscillator; every other oscillator in the context was
    stopped and has no connection left. *)
Theorem one_oscillator_feeds_the_graph p :
  Main.reachable p ->
  Audio.initialized (audio (controller p)) = true ->
  let a := audio (controller p) in
  exists ctx osc gain,
    Audio.audioContext a = Some ctx /\
    Audio.oscillator a = Some osc /\
    Audio.gainNode a = Some gain /\
    (forall e, e ∈ connections ctx <->
               e = (osc, gain) \/ e ∈ tail builtConnections) /\
    NoDup (connections ctx) /\
    length (connections ctx) = 15%nat /\
    (forall i ty f started stopped,
       nodes ctx !! i = Some (Oscillator ty f started stopped) ->
       i <> osc ->
       started = true /\ stopped = true /\
       forall j, ((i, j) ∉ connections ctx) /\ ((j, i) ∉ connections ctx)).
Proof.
  intros Hp Hi a.
  destruct (reachable_layout p Hp) as (_ & Hl).
  destruct (Hl Hi) as (ctx & osc & Hctx & Hlay). fold a in Hctx, Hlay.
  pose proof (fun i => layout_roles _ _ _ i Hlay) as Hroles.
  open_layout Hlay.
  exists ctx, osc, 2%nat.
  assert (Hfresh : (osc, 2%nat) ∉ tail builtConnections).
  { intros Hin. pose proof builtConnections_sources as Hsrc.
    rewrite Forall_forall in Hsrc. specialize (Hsrc _ Hin). simpl in Hsrc. lia. }
  split; [done|]. split; [done|]. split; [done|]. split; [done|].
  split; [done|]. split.
  - assert (Hperm : connections ctx ≡ₚ (osc, 2%nat) :: tail builtConnections).
    { apply NoDup_Permutation; [done| |].
      - apply NoDup_cons. split; [done|].
        apply (bool_decide_unpack _). by vm_compute.
      - intros e. rewrite Hconn, elem_of_cons. tauto. }
    by rewrite Hperm.
  - intros i ty f st sp Hn Hne.
    destruct (Hroles i) as [-> | [(n & Hn' & Hnot) | (ty' & f' & Hn' & Hrange)]].
    + by eapply lookup_lt_Some.
    + done.
    + rewrite Hn in Hn'. injection Hn' as <-. discriminate.
    + rewrite Hn in Hn'. injection Hn' as -> -> -> ->.
      split; [done|]. split; [done|]. intros j.
      pose proof builtConnections_sources as Hsrc.
      rewrite Forall_forall in Hsrc.
      pose proof builtConnections_targets as Htgt.
      rewrite Forall_forall in Htgt.
      split; rewrite Hconn; intros [[= ] | Hin]; subst; try lia.
      * specialize (Hsrc _ Hin). simpl in Hsrc. lia.
      * specialize (Htgt _ Hin). simpl in Htgt. lia.
Qed.

Lemma one_oscillator_feeds_the_graph_witness :
  exists ctx,
    Audio.audioContext (audio (controller playing)) = Some ctx /\
    length (connections ctx) = 15%nat.
Proof.
  destruct (one_oscillator_feeds_the_graph playing reachable_playing
              initialized_playing)
    as (ctx & osc & gain & Hctx & _ & _ & _ & _ & Hlen & _).
  exists ctx. split; [exact Hctx|exact Hlen].
Defined.

(** X4. On every reachable page with the engine initialized the clock of the
    context is not negative, and on each automated parameter the scheduled
    ramps are in the order of their end times, none ending before time 0:
    no ramp is ever scheduled to end before one that was scheduled earlier
    on the same parameter. No ramp ends later than 50 ms after the current
    time, 100 ms for the gain node. *)
Theorem ramps_in_time_order p :
  Main.reachable p ->
  Audio.initialized (audio (controller p)) = true ->
  let a := audio (controller p) in
  exists ctx fo g f q d m ty,
    Audio.audioContext a = Some ctx /\
    0 <= currentTime ctx /\
    nodeOf (Audio.oscillator a) ctx = Some (Oscillator ty fo true false) /\
    chronological 0.05 (currentTime ctx) fo /\
    nodeOf (Audio.gainNode a) ctx = Some (Gain g) /\
    chronological 0.1 (currentTime ctx) g /\
    nodeOf (Audio.filter a) ctx = Some (BiquadFilter f q) /\
    chronological 0.05 (currentTime ctx) f /\
    chronological 0.05 (currentTime ctx) q /\
    nodeOf (Audio.delayNode a) ctx = Some (Delay d) /\
    chronological 0.05 (currentTime ctx) d /\
    nodeOf (Audio.reverbMixNode a) ctx = Some (Gain m) /\
    chronological 0.05 (currentTime ctx) m.
Proof.
  intros Hp Hi a.
  destruct (reachable_layout p Hp) as (_ & Hl).
  destruct (Hl Hi) as (ctx & osc & Hctx & Hlay). fold a in Hctx, Hlay.
  open_layout Hlay.
  exists ctx, fo, g2, f3, q3, d4, g8, (Audio.waveform a).
  rewrite Ho, Hg, Hf, Hd, Hr. simpl.
  repeat split; try done;
    by match goal with H : tracks _ _ _ _ |- _ => apply H end.
Qed.

Lemma ramps_in_time_order_witness :
  exists ctx g,
    Audio.audioContext (audio (controller playing)) = Some ctx /\
    nodeOf (Audio.gainNode (audio (controller playing))) ctx = Some (Gain g) /\
    chronological 0.1 (currentTime ctx) g.
Proof.
  destruct (ramps_in_time_order playing reachable_playing initialized_playing)
    as (ctx & fo & g & f & q & d & m & ty & Hctx & _ & _ & _ & Hg & Hcg & _).
  exists ctx, g. split; [exact Hctx|]. split; [exact Hg|exact Hcg].
Defined.

Ltac sched :=
  unfold schedules; do 4 eexists;
  split; [eassumption|]; split; [eassumption|]; split; [eassumption|];
  split; reflexivity.

(** X5. On every reachable page with the engine initialized, [start], [stop]
    and the five setters each change the graph in exactly one place: one
    node is replaced by itself with one more ramp on one parameter, to the
    clamped argument (0.5 and 0 for [start] and [stop]), ending 50 ms (100 ms
    for [start] and [stop]) after the current time. No other node, no
    connection and not the clock is changed. *)
Theorem each_setter_schedules_one_ramp p v :
  Main.reachable p ->
  Audio.initialized (audio (controller p)) = true ->
  let a := audio (controller p) in
  (exists a', Audio.start a = Normal a' /\
              schedules (Audio.gainNode a) rampGain 0.5 0.1 a a') /\
  (exists a', Audio.stop a = Normal a' /\
              schedules (Audio.gainNode a) rampGain 0 0.1 a a') /\
  (exists a', Audio.setFrequency v a = Normal a' /\
              schedules (Audio.oscillator a) rampFrequency
                (clamp 50 2000 v) 0.05 a a') /\
  (exists a', Audio.setFilterFrequency v a = Normal a' /\
              schedules (Audio.filter a) rampFrequency
                (clamp 200 5000 v) 0.05 a a') /\
  (exists a', Audio.setFilterQ v a = Normal a' /\
              schedules (Audio.filter a) rampQ (clamp 1 20 v) 0.05 a a') /\
  (exists a', Audio.setReverbMix v a = Normal a' /\
              schedules (Audio.reverbMixNode a) rampGain
                (clamp 0 1 v) 0.05 a a') /\
  (exists a', Audio.setDelayTime v a = Normal a' /\
              schedules (Audio.delayNode a) rampDelayTime
                (clamp 0 0.5 v) 0.05 a a').
Proof.
  intros Hp Hi a.
  destruct (reachable_layout p Hp) as (_ & Hl).
  destruct (Hl Hi) as (ctx & osc & Hctx & Hlay). fold a in Hctx, Hlay, Hi.
  pose proof Hlay as Hrefs. open_layout Hrefs.
  repeat split.
  - destruct (start_layout a ctx osc Hi Hctx Hlay) as (g & Hn & Hres & _).
    eexists. split; [exact Hres|]. sched.
  - destruct (stop_layout a ctx osc Hi Hctx Hlay) as (g & Hn & Hres & _).
    eexists. split; [exact Hres|]. sched.
  - destruct (setFrequency_layout v a ctx osc Hi Hctx Hlay) as (f & Hn & Hres & _).
    eexists. split; [exact Hres|]. sched.
  - destruct (setFilterFrequency_layout v a ctx osc Hi Hctx Hlay)
      as (f & q & Hn & Hres & _).
    eexists. split; [exact Hres|]. sched.
  - destruct (setFilterQ_layout v a ctx osc Hi Hctx Hlay)
      as (f & q & Hn & Hres & _).
    eexists. split; [exact Hres|]. sched.
  - destruct (setReverbMix_layout v a ctx osc Hi Hctx Hlay) as (g & Hn & Hres & _).
    eexists. split; [exact Hres|]. sched.
  - destruct (setDelayTime_layout v a ctx osc Hi Hctx Hlay) as (d & Hn & Hres & _).
    eexists. split; [exact Hres|]. sched.
Qed.

Lemma each_setter_schedules_one_ramp_witness :
  exists a',
    Audio.setReverbMix 2 (audio (controller playing)) = Normal a' /\
    schedules (Audio.reverbMixNode (audio (controller playing))) rampGain
      (clamp 0 1 2) 0.05 (audio (controller playing)) a'.
Proof.
  exact (proj1 (proj2 (proj2 (proj2 (proj2 (proj2
    (each_setter_schedules_one_ramp playing 2 reachable_playing
       initialized_playing))))))).
Defined.

(** ** Before the first activation *)

(** X6. As long as the engine is not initialized, whatever events and calls
    came before, it is exactly as constructed but for the waveform
    preference: not playing, all parameters at their defaults, no context
    and no node; no audio context was constructed and no [onClick] is
    suspended. *)
Theorem engine_untouched_before_init p :
  Main.reachable p ->
  Audio.initialized (audio (controller p)) = false ->
  let a := audio (controller p) in
  a = Audio.set_waveform (Audio.waveform a) Audio.constructor /\
  contextsConstructed (window p) = 0%nat /\
  suspended p = 0%nat.
Proof.
  intros Hp Hi a.
  destruct (reachable_inv p Hp) as (((_ & _ & Hpr) & _) & Hw & Hsu).
  split; [by apply Hpr|]. split.
  - by rewrite Hw, Hi.
  - destruct (suspended p) as [|n]; [done|].
    rewrite Hsu in Hi by lia. discriminate.
Qed.

Lemma engine_untouched_before_init_witness :
  audio (controller loaded)
  = Audio.set_waveform (Audio.waveform (audio (controller loaded)))
      Audio.constructor /\
  contextsConstructed (window loaded) = 0%nat /\
  suspended loaded = 0%nat.
Proof.
  exact (engine_untouched_before_init loaded reachable_loaded
           uninitialized_loaded).
Defined.

(** ** The wheel *)

Lemma wheel_frequency_range s :
  0.5 <= s <= 3 ->
  110 <= 110 * Rpower (1760 / 110) ((s - 0.5) / 2.5) <= 1760.
Proof. intros Hs. apply exponential_range. lra. Qed.

(** X7. On every reachable page with the engine initialized, a wheel event
    moves the scale by 0.1, down when deltaY is positive and up otherwise
    (also when deltaY is 0), clamps it to [0.5, 3], and stores the frequency
    110 * 16 ^ ((scale - 0.5) / 2.5) of the new scale, which lies in
    [110, 1760]: 110 Hz at scale 0.5 and 1760 Hz at scale 3. *)
Theorem wheel_sets_scale_and_pitch p deltaY :
  Main.reachable p ->
  Audio.initialized (audio (controller p)) = true ->
  exists p',
    Main.handle (Main.wheel deltaY) p = Normal p' /\
    let s := Scene3D.currentScale (scene (controller p)) in
    let s' := Scene3D.currentScale (scene (controller p')) in
    let f' := Audio.currentFrequency (audio (controller p')) in
    (0 < deltaY -> s' = Rmax 0.5 (s - 0.1)) /\
    (deltaY <= 0 -> s' = Rmin 3 (s + 0.1)) /\
    0.5 <= s' <= 3 /\
    f' = 110 * Rpower (1760 / 110) ((s' - 0.5) / 2.5) /\
    110 <= f' <= 1760 /\
    (s' = 0.5 -> f' = 110) /\
    (s' = 3 -> f' = 1760).
Proof.
  intros Hp Hi.
  destruct (reachable_inv p Hp) as (Hc & _).
  pose proof Hc as (_ & (Hs & _)).
  destruct (onWheel_spec deltaY _ Hc) as (c' & Hres & (_ & (Hs' & _)) & _ & Hsc & Hf).
  specialize (Hf Hi). cbv zeta in Hsc, Hf.
  exists {| window := window p; status := status p;
            suspended := suspended p; controller := c' |}.
  split; [simpl; unfold lift; by rewrite Hres|]. simpl.
  rewrite <- Hsc in Hf.
  set (s := Scene3D.currentScale (scene (controller p))) in *.
  set (s' := Scene3D.currentScale (scene c')) in *.
  unfold scale_in_range in Hs, Hs'. fold s in Hs. fold s' in Hs'.
  pose proof (wheel_frequency_range s' Hs') as Hrange.
  rewrite clamp_inside in Hf by lra.
  split; [|split; [|split; [done|split; [done|split; [by rewrite Hf|split]]]]].
  - intros Hd. rewrite Hsc. unfold clamp, Rmax, Rmin.
    destruct (Rlt_dec 0 deltaY); [|lra]. repeat destruct Rle_dec; lra.
  - intros Hd. rewrite Hsc. unfold clamp, Rmax, Rmin.
    destruct (Rlt_dec 0 deltaY); [lra|]. repeat destruct Rle_dec; lra.
  - intros ->. rewrite Hf.
    replace ((0.5 - 0.5) / 2.5) with 0 by lra. rewrite Rpower_O by lra. lra.
  - intros ->. rewrite Hf.
    replace ((3 - 0.5) / 2.5) with 1 by lra. rewrite Rpower_1 by lra. lra.
Qed.

Lemma wheel_sets_scale_and_pitch_witness :
  exists p',
    Main.handle (Main.wheel 0) playing = Normal p' /\
    Scene3D.currentScale (scene (controller p'))
    = Rmin 3 (Scene3D.currentScale (scene (controller playing)) + 0.1).
Proof.
  destruct (wheel_sets_scale_and_pitch playing 0 reachable_playing
              initialized_playing) as (p' & Hres & _ & Hup & _).
  exists p'. split; [exact Hres|]. apply Hup. lra.
Defined.

(** X8. Before the engine is initialized a wheel event changes the scale of
    the shape and nothing in the engine; and the first click afterwards
    initializes the engine at 440 Hz whatever the scale has become: the
    pitch is not brought in line with the scale until the next wheel
    event. *)
Theorem wheel_before_init_leaves_pitch p deltaY :
  Main.reachable p ->
  Audio.initialized (audio (controller p)) = false ->
  exists p1 p2,
    Main.handle (Main.wheel deltaY) p = Normal p1 /\
    audio (controller p1) = audio (controller p) /\
    Scene3D.currentScale (scene (controller p1))
    = clamp 0.5 3 (Scene3D.currentScale (scene (controller p))
                   + (if Rlt_dec 0 deltaY then - 0.1 else 0.1)) /\
    Main.handle Main.click p1 = Normal p2 /\
    Audio.initialized (audio (controller p2)) = true /\
    Audio.currentFrequency (audio (controller p2)) = 440 /\
    Scene3D.currentScale (scene (controller p2))
    = Scene3D.currentScale (scene (controller p1)).
Proof.
  intros Hp Hi.
  destruct (reachable_inv p Hp) as (Hc & _).
  destruct (onWheel_spec deltaY _ Hc) as (c' & Hres & Hc' & Hi' & Hsc & _).
  pose proof Hres as Hres'. unfold onWheel in Hres'.
  apply bind_Normal in Hres' as (a1 & Ha1 & Hc1).
  unfold Audio.setFrequencyNormalized, Audio.setFrequency in Ha1.
  simpl in Ha1. rewrite Hi in Ha1. simpl in Ha1. injection Ha1 as <-.
  injection Hc1 as <-.
  set (p1 := {| window := window p; status := status p;
                suspended := suspended p;
                controller := set_audio (audio (controller p))
                  (set_scene (Scene3D.setScale
                     (Rmax 0.5 (Rmin 3 (Scene3D.currentScale (scene (controller p))
                        + (if Rlt_dec 0 deltaY then - 0.1 else 0.1))))
                     (scene (controller p))) (controller p)) |}).
  assert (H1 : Main.handle (Main.wheel deltaY) p = Normal p1).
  { simpl. unfold lift. by rewrite Hres. }
  destruct Hc as ((_ & _ & Hpr) & _).
  destruct (init_first (window p) (audio (controller p)) Hi)
    as (w' & a' & ctx & Hinit & _ & Hia & Hsame & _).
  exists p1. eexists. split; [exact H1|]. split; [done|]. split; [exact Hsc|].
  split.
  { simpl. unfold onClick. simpl. rewrite Hi. simpl. rewrite Hinit. reflexivity. }
  simpl. split; [done|]. split; [|done].
  destruct Hsame as (_ & _ & -> & _). by rewrite (Hpr Hi).
Qed.

Lemma wheel_before_init_leaves_pitch_witness :
  exists p1 p2,
    Main.handle (Main.wheel (-1)) loaded = Normal p1 /\
    Main.handle Main.click p1 = Normal p2 /\
    Audio.currentFrequency (audio (controller p2)) = 440.
Proof.
  destruct (wheel_before_init_leaves_pitch loaded (-1) reachable_loaded
              uninitialized_loaded)
    as (p1 & p2 & H1 & _ & _ & H2 & _ & Hf & _).
  exists p1, p2. split; [exact H1|]. split; [exact H2|exact Hf].
Defined.

Lemma wheel_pitch p deltaY :
  Main.reachable p ->
  Audio.initialized (audio (controller p)) = true ->
  exists p',
    Main.handle (Main.wheel deltaY) p = Normal p' /\
    0.5 <= Scene3D.currentScale (scene (controller p')) <= 3 /\
    Audio.currentFrequency (audio (controller p'))
    = 110 * Rpower (1760 / 110)
              ((Scene3D.currentScale (scene (controller p')) - 0.5) / 2.5).
Proof.
  intros Hp Hi.
  destruct (reachable_inv p Hp) as (Hc & _).
  destruct (onWheel_spec deltaY _ Hc) as (c' & Hres & (_ & (Hs' & _)) & _ & Hsc & Hf).
  specialize (Hf Hi). cbv zeta in Hsc, Hf. rewrite <- Hsc in Hf.
  exists {| window := window p; status := status p;
            suspended := suspended p; controller := c' |}.
  split; [simpl; unfold lift; by rewrite Hres|]. simpl.
  split; [done|]. rewrite Hf. apply clamp_inside.
  pose proof (wheel_frequency_range _ Hs'). lra.
Qed.

Lemma Rpower_16_half : Rpower (1760 / 110) (1 / 2) = 4.
Proof.
  replace (1760 / 110) with (4 * 4) by lra.
  replace (1 / 2) with (/ 2) by lra.
  rewrite Rpower_sqrt by lra. apply sqrt_square. lra.
Qed.

Lemma Rpower_16_quarter : Rpower (1760 / 110) (1 / 4) = 2.
Proof.
  replace (1 / 4) with (1 / 2 * / 2) by lra.
  rewrite <- Rpower_mult, Rpower_16_half.
  replace 4 with (2 * 2) by lra.
  rewrite Rpower_sqrt by lra. apply sqrt_square. lra.
Qed.

(** X9. The comment in [onWheel] gives scale 1.0 as the place of 440 Hz. By
    the code that place is scale 1.75: after a wheel event on an initialized
    engine the stored frequency is 440 Hz exactly when the new scale is
    1.75, it is below 440 Hz for every smaller scale, above for every larger
    one, and it is below 220 Hz at scale 1.0 and under. *)
Theorem concert_pitch_is_at_scale_1_75 p deltaY :
  Main.reachable p ->
  Audio.initialized (audio (controller p)) = true ->
  exists p',
    Main.handle (Main.wheel deltaY) p = Normal p' /\
    let s' := Scene3D.currentScale (scene (controller p')) in
    let f' := Audio.currentFrequency (audio (controller p')) in
    (f' = 440 <-> s' = 1.75) /\
    (s' < 1.75 -> f' < 440) /\
    (1.75 < s' -> 440 < f') /\
    (s' <= 1 -> f' < 220).
Proof.
  intros Hp Hi.
  destruct (wheel_pitch p deltaY Hp Hi) as (p' & Hres & Hs & Hf).
  exists p'. split; [done|]. cbv zeta. rewrite Hf.
  set (s' := Scene3D.currentScale (scene (controller p'))) in *.
  assert (Hlt : s' < 1.75 ->
            110 * Rpower (1760 / 110) ((s' - 0.5) / 2.5) < 440).
  { intros Hs'.
    assert (Rpower (1760 / 110) ((s' - 0.5) / 2.5) < Rpower (1760 / 110) (1 / 2))
      by (apply Rpower_lt; lra).
    rewrite Rpower_16_half in *. lra. }
  assert (Hgt : 1.75 < s' ->
            440 < 110 * Rpower (1760 / 110) ((s' - 0.5) / 2.5)).
  { intros Hs'.
    assert (Rpower (1760 / 110) (1 / 2) < Rpower (1760 / 110) ((s' - 0.5) / 2.5))
      by (apply Rpower_lt; lra).
    rewrite Rpower_16_half in *. lra. }
  split; [|split; [done|split; [done|]]].
  - split.
    + intros Heq. destruct (Rtotal_order s' 1.75) as [Hl | [He | Hg]]; [|done|].
      * specialize (Hlt Hl). lra.
      * specialize (Hgt Hg). lra.
    + intros ->. replace ((1.75 - 0.5) / 2.5) with (1 / 2) by lra.
      rewrite Rpower_16_half. lra.
  - intros Hs'.
    assert (Rpower (1760 / 110) ((s' - 0.5) / 2.5) < Rpower (1760 / 110) (1 / 4))
      by (apply Rpower_lt; lra).
    rewrite Rpower_16_quarter in *. lra.
Qed.

Lemma concert_pitch_is_at_scale_1_75_witness :
  exists p',
    Main.handle (Main.wheel 1) playing = Normal p' /\
    (Scene3D.currentScale (scene (controller p')) <= 1 ->
     Audio.currentFrequency (audio (controller p')) < 220).
Proof.
  destruct (concert_pitch_is_at_scale_1_75 playing 1 reachable_playing
              initialized_playing) as (p' & Hres & _ & _ & _ & Hlow).
  exists p'. split; [exact Hres|exact Hlow].
Defined.

(** ** Clicks *)

Lemma click_on_initialized p :
  Main.reachable p ->
  Audio.initialized (audio (controller p)) = true ->
  exists p',
    Main.handle Main.click p = Normal p' /\
    Main.reachable p' /\
    Audio.initialized (audio (controller p')) = true /\
    Audio.isPlaying (audio (controller p'))
    = negb (Audio.isPlaying (audio (controller p))) /\
    status p' = (if Audio.isPlaying (audio (controller p))
                 then "Paused" else "Playing")%string /\
    window p' = window p /\ suspended p' = suspended p /\
    scene (controller p') = scene (controller p).
Proof.
  intros Hp Hi.
  destruct (reachable_inv p Hp) as (((Ha & _) & _) & _).
  assert (Hh : Main.handle Main.click p = toggle p).
  { simpl. unfold onClick. by rewrite Hi. }
  rewrite Hh. unfold toggle in *.
  destruct (Audio.isPlaying (audio (controller p))) eqn:Hpl.
  - destruct (stop_inv _ (conj Ha (proj2 (proj1 (proj1 (reachable_inv p Hp))))))
      as (a' & Hres & Hret & _ & Hi').
    destruct (retuned_after _ _ _ Hi Hret) as (ctx' & ->).
    rewrite Hres in *. simpl in *. eexists. split; [reflexivity|].
    split; [by eapply (Main.reachable_step p Main.click)|]. by repeat split.
  - destruct (start_inv _ (conj Ha (proj2 (proj1 (proj1 (reachable_inv p Hp))))))
      as (a' & Hres & Hret & _ & Hi').
    destruct (retuned_after _ _ _ Hi Hret) as (ctx' & ->).
    rewrite Hres in *. simpl in *. eexists. split; [reflexivity|].
    split; [by eapply (Main.reachable_step p Main.click)|]. by repeat split.
Qed.

(** X10. On every reachable page with the engine initialized a click flips
    [isPlaying] and writes the status to match: "Paused" when it stops the
    sound, "Playing" when it starts it. It touches neither the window nor the
    scene, and a second click brings [isPlaying] back. *)
Theorem click_toggles_playback p :
  Main.reachable p ->
  Audio.initialized (audio (controller p)) = true ->
  exists p' p'',
    Main.handle Main.click p = Normal p' /\
    Audio.isPlaying (audio (controller p'))
    = negb (Audio.isPlaying (audio (controller p))) /\
    status p' = (if Audio.isPlaying (audio (controller p'))
                 then "Playing" else "Paused")%string /\
    window p' = window p /\
    scene (controller p') = scene (controller p) /\
    Main.handle Main.click p' = Normal p'' /\
    Audio.isPlaying (audio (controller p''))
    = Audio.isPlaying (audio (controller p)) /\
    status p'' = (if Audio.isPlaying (audio (controller p''))
                  then "Playing" else "Paused")%string.
Proof.
  intros Hp Hi.
  destruct (click_on_initialized p Hp Hi)
    as (p' & H1 & Hp' & Hi' & Hpl' & Hst' & Hw' & _ & Hsc').
  destruct (click_on_initialized p' Hp' Hi')
    as (p'' & H2 & _ & _ & Hpl'' & Hst'' & _).
  exists p', p''. rewrite Hpl'', Hst'', Hst', Hpl'.
  destruct (Audio.isPlaying (audio (controller p))); by repeat split.
Qed.

Lemma click_toggles_playback_witness :
  exists p',
    Main.handle Main.click playing = Normal p' /\
    Audio.isPlaying (audio (controller p'))
    = negb (Audio.isPlaying (audio (controller playing))).
Proof.
  destruct (click_toggles_playback playing reachable_playing initialized_playing)
    as (p' & p'' & H1 & Hpl & _).
  exists p'. split; [exact H1|exact Hpl].
Defined.

(** X11. The first activation: on every reachable page whose engine is not
    initialized, a click constructs the one audio context, initializes the
    engine without starting the sound, and suspends; when the click handler
    continues it starts the sound and writes "Playing". *)
Theorem first_click_starts_playback p :
  Main.reachable p ->
  Audio.initialized (audio (controller p)) = false ->
  exists p1 p2,
    Main.handle Main.click p = Normal p1 /\
    Audio.initialized (audio (controller p1)) = true /\
    Audio.isPlaying (audio (controller p1)) = false /\
    contextsConstructed (window p1) = 1%nat /\
    suspended p1 = 1%nat /\
    status p1 = status p /\
    Main.enabled Main.resumed p1 /\
    Main.handle Main.resumed p1 = Normal p2 /\
    Audio.isPlaying (audio (controller p2)) = true /\
    status p2 = "Playing"%string /\
    suspended p2 = 0%nat /\
    window p2 = window p1.
Proof.
  intros Hp Hi.
  destruct (reachable_inv p Hp) as (((Ha & Hg & Hpr) & Hs) & Hw & Hsu).
  assert (Hs0 : suspended p = 0%nat).
  { destruct (suspended p) as [|n]; [done|]. rewrite Hsu in Hi by lia. discriminate. }
  destruct (init_inv (window p) _ (conj Ha (conj Hg Hpr)))
    as (w' & a' & Hinit & Ha' & Hi' & Hsame & Hc).
  rewrite Hi, Hw, Hi in Hc.
  assert (Hpl : Audio.isPlaying a' = false).
  { destruct Hsame as (-> & _). by rewrite (Hpr Hi). }
  set (p1 := {| window := w'; status := status p; suspended := S (suspended p);
                controller := set_audio a' (controller p) |}).
  assert (H1 : Main.handle Main.click p = Normal p1).
  { simpl. unfold onClick. rewrite Hi. simpl. by rewrite Hinit. }
  destruct (start_inv _ Ha') as (a'' & Hstart & Hret & _).
  destruct (retuned_after _ _ _ Hi' Hret) as (ctx' & ->).
  exists p1. eexists. split; [exact H1|].
  split; [done|]. split; [done|]. split; [done|].
  split; [simpl; by rewrite Hs0|]. split; [done|]. split; [simpl; lia|].
  split.
  { simpl. unfold onClick_resumed, toggle. simpl. rewrite Hpl, Hstart.
    reflexivity. }
  simpl. by rewrite Hs0.
Qed.

Lemma first_click_starts_playback_witness :
  exists p1 p2,
    Main.handle Main.click loaded = Normal p1 /\
    Main.handle Main.resumed p1 = Normal p2 /\
    Audio.isPlaying (audio (controller p2)) = true /\
    status p2 = "Playing"%string.
Proof.
  destruct (first_click_starts_playback loaded reachable_loaded
              uninitialized_loaded)
    as (p1 & p2 & H1 & _ & _ & _ & _ & _ & _ & H2 & Hpl & Hst & _).
  exists p1, p2. split; [exact H1|]. split; [exact H2|].
  split; [exact Hpl|exact Hst].
Defined.

(** ** Animation frames *)

Lemma mean_replicate n b :
  (0 < n)%nat -> mean (replicate n b) = Audio.byteValue b.
Proof.
  intros Hn. unfold mean. rewrite length_replicate.
  assert (Hsum : foldr (fun b s => Audio.byteValue b + s) 0 (replicate n b)
                 = INR n * Audio.byteValue b).
  { clear Hn. induction n as [|n IH]; [simpl; lra|].
    change (replicate (S n) b) with (b :: replicate n b).
    rewrite S_INR. simpl foldr. rewrite IH. lra. }
  rewrite Hsum. field. apply not_0_INR. lia.
Qed.

(** X12. An animation frame hands the level of the engine to the scene: on
    every reachable page the scene's [audioLevel] is in [0, 1] afterwards;
    it is 0 before the engine is initialized; after, when the analyser
    delivers its 128 bins, it is their mean over 255, so a spectrum whose
    bins all hold the byte b gives b / 255 (0 for silence, 1 for all bins
    full). The scale of the shape is not touched. *)
Theorem frame_level_in_unit_interval p spectrum :
  Main.reachable p ->
  exists p',
    Main.handle (Main.animationFrame spectrum) p = Normal p' /\
    let level := Scene3D.audioLevel (scene (controller p')) in
    0 <= level <= 1 /\
    Scene3D.currentScale (scene (controller p'))
    = Scene3D.currentScale (scene (controller p)) /\
    (Audio.initialized (audio (controller p)) = false -> level = 0) /\
    (Audio.initialized (audio (controller p)) = true ->
     length spectrum = 128%nat ->
     level = mean spectrum / 255 /\
     forall b, spectrum = replicate 128 b -> level = Audio.byteValue b / 255).
Proof.
  intros Hp.
  destruct (reachable_inv p Hp) as (((Hin & Hg & Hpr) & _) & _).
  destruct (getAudioLevel_inv spectrum _ (conj Hin (conj Hg Hpr)))
    as (level & a' & Hres & Hrange & _).
  exists {| window := window p; status := status p; suspended := suspended p;
            controller := set_scene
              (Scene3D.setAudioLevel level (scene (controller p)))
              (set_audio a' (controller p)) |}.
  split.
  { simpl. unfold lift, Main.animate. by rewrite Hres. }
  simpl. split; [done|]. split; [done|]. split.
  - intros Hi. rewrite (getAudioLevel_before _ _ Hi) in Hres. by injection Hres.
  - intros Hi Hlen.
    destruct (getAudioLevel_after spectrum _ Hi Hg) as (array & _ & Hal & Hres').
    simpl in Hres'. rewrite Hres' in Hres. injection Hres as <- _.
    rewrite getByteFrequencyData_full by congruence.
    rewrite sumBytes_mean. split; [done|].
    intros b Hb. change (spectrum = replicate 128 b) in Hb.
    rewrite Hb. by rewrite mean_replicate by lia.
Qed.

Lemma frame_level_in_unit_interval_witness :
  exists p',
    Main.handle (Main.animationFrame (replicate 128 xff)) playing = Normal p' /\
    Scene3D.audioLevel (scene (controller p')) = Audio.byteValue xff / 255.
Proof.
  destruct (frame_level_in_unit_interval playing (replicate 128 xff)
              reachable_playing) as (p' & Hres & _ & _ & _ & Hfull).
  exists p'. split; [exact Hres|].
  exact (proj2 (Hfull initialized_playing (length_replicate 128 xff)) xff eq_refl).
Defined.

(** ** Keys, buttons and touches *)

Lemma waveButton_stores p wave :
  Main.reachable p ->
  exists p',
    Main.handle (Main.waveButton wave) p = Normal p' /\
    Audio.waveform (audio (controller p')) = wave /\
    scene (controller p') = scene (controller p).
Proof.
  intros Hp.
  destruct (reachable_inv p Hp) as (((_ & Hg & _) & _) & _).
  assert (Hset : exists a', Audio.setWaveform wave (audio (controller p)) = Normal a'
                            /\ Audio.waveform a' = wave).
  { destruct (Audio.initialized (audio (controller p))) eqn:Hi.
    - destruct (setWaveform_after wave _ Hi Hg)
        as (ctx & old & gain & ty & f & _ & _ & _ & _ & _ & ->). eauto.
    - rewrite (setWaveform_before wave _ Hi). eauto. }
  destruct Hset as (a' & Hres & Hw).
  eexists. split.
  { simpl. unfold lift, changeWaveform. rewrite Hres. reflexivity. }
  by split.
Qed.

Lemma unbound_key key bound :
  key ∉ boundKeys -> bound ∈ boundKeys -> (key =? bound)%string = false.
Proof.
  intros Hk Hb. apply String.eqb_neq. intros ->. done.
Qed.

(** X13. The keyboard: on every reachable page the keys q, w, e and r do
    what the waveform buttons for sine, square, sawtooth and triangle do and
    leave that waveform stored; the keys 1 to 4 do what the shape buttons for
    icosahedron, torus, octahedron and dodecahedron do and leave a mesh of
    that geometry; and any key other than these and the space bar changes
    nothing at all. *)
Theorem keyboard_shortcuts p :
  Main.reachable p ->
  (forall key wave, (key, wave) ∈ waveKeys ->
     exists p',
       Main.handle (Main.keydown key) p = Normal p' /\
       Main.handle (Main.waveButton wave) p = Normal p' /\
       Audio.waveform (audio (controller p')) = wave) /\
  (forall key name geometry, (key, (name, geometry)) ∈ shapeKeys ->
     exists p' m,
       Main.handle (Main.keydown key) p = Normal p' /\
       Main.handle (Main.shapeButton name) p = Normal p' /\
       Scene3D.mesh (scene (controller p')) = Some m /\
       Scene3D.geometry m = geometry /\
       audio (controller p') = audio (controller p)) /\
  (forall key, key ∉ boundKeys ->
     exists p',
       Main.handle (Main.keydown key) p = Normal p' /\
       window p' = window p /\ status p' = status p /\
       suspended p' = suspended p /\ controller p' = controller p).
Proof.
  intros Hp. split; [|split].
  - intros key wave Hin.
    destruct (waveButton_stores p wave Hp) as (p' & Hres & Hw & _).
    exists p'. split; [|by split].
    pose proof Hres as Hc. simpl in Hc. unfold lift in Hc.
    apply bind_Normal in Hc as (c' & Hc & Hp'). simpl in Hp'.
    unfold waveKeys in Hin. rewrite !elem_of_cons in Hin.
    destruct Hin as [[= -> ->] | [[= -> ->] | [[= -> ->] | [[= -> ->] | Hin]]]];
      [simpl; unfold onKeyDown, lift; simpl; by rewrite Hc ..|].
    by apply elem_of_nil in Hin.
  - intros key name geometry Hin. unfold shapeKeys in Hin.
    rewrite !elem_of_cons in Hin.
    destruct Hin as [[= -> -> ->] | [[= -> -> ->] | [[= -> -> ->]
                     | [[= -> -> ->] | Hin]]]];
      [by destruct p; do 2 eexists ..|]. by apply elem_of_nil in Hin.
  - intros key Hk. simpl. unfold onKeyDown.
    rewrite !(unbound_key key) by (done || (unfold boundKeys; set_solver)).
    simpl. eexists. split; [reflexivity|]. by destruct p.
Qed.

Lemma keyboard_shortcuts_witness :
  exists p',
    Main.handle (Main.keydown "w") playing = Normal p' /\
    Audio.waveform (audio (controller p')) = square.
Proof.
  destruct (keyboard_shortcuts playing reachable_playing) as (Hwave & _).
  destruct (Hwave "w"%string square) as (p' & Hres & _ & Hw).
  - unfold waveKeys. apply elem_of_cons. right. apply elem_of_cons. by left.
  - exists p'. split; [exact Hres|exact Hw].
Defined.

(** ** Dragging *)

Lemma onMouseMove_drag e rect c :
  ctl_inv c ->
  let dragX := (clientX e - dragStartX c) / width rect in
  let dragY := (clientY e - dragStartY c) / height rect in
  exists c',
    onMouseMove e rect c = Normal c' /\
    isDragging c' = isDragging c /\
    dragStartX c' = dragStartX c /\ dragStartY c' = dragStartY c /\
    (isDragging c = true ->
     shapeOffsetX c' = dragX * 4 /\ shapeOffsetY c' = - dragY * 4 /\
     (exists m, Scene3D.mesh (scene c') = Some m /\
                Scene3D.positionX m = dragX * 4 /\
                Scene3D.positionY m = - dragY * 4) /\
     (Audio.initialized (audio c) = true ->
      Audio.delayTime (audio c') = clamp 0 0.5 (Rabs dragX * 0.5) /\
      Audio.reverbMix (audio c') = clamp 0 1 (Rabs dragY))) /\
    (isDragging c = false ->
     shapeOffsetX c' = shapeOffsetX c /\ shapeOffsetY c' = shapeOffsetY c /\
     Scene3D.mesh (scene c') = Scene3D.mesh (scene c) /\
     Audio.delayTime (audio c') = Audio.delayTime (audio c) /\
     Audio.reverbMix (audio c') = Audio.reverbMix (audio c)).
Proof.
  intros (Ha & Hs) dragX dragY.
  unfold onMouseMove. simpl. fold dragX dragY.
  destruct (setFilterFrequency_inv
              (200 + (clientX e - left rect) / width rect * 4800) _ Ha)
    as (a1 & -> & R1 & I1 & Hi1). simpl.
  destruct (setFilterQ_inv (1 + (clientY e - top rect) / height rect * 19) _ I1)
    as (a2 & -> & R2 & I2 & Hi2).
  simpl.
  destruct (isDragging c) eqn:Hd.
  - destruct (setDelayTime_inv (Rabs dragX * 0.5) _ I2)
      as (a3 & -> & R3 & I3 & Hi3). simpl.
    destruct (setReverbMix_inv (Rabs dragY) _ I3) as (a4 & -> & R4 & I4 & Hi4).
    simpl. eexists. split; [reflexivity|]. simpl.
    split; [done|]. split; [done|]. split; [done|]. split; [|done].
    intros _. split; [done|]. split; [done|]. split.
    + destruct (setPosition_inv (dragX * 4) (- dragY * 4)
                  (Scene3D.setRotation
                     (((clientY e - top rect) / height rect - 0.5) * PI * 2)
                     (((clientX e - left rect) / width rect - 0.5) * PI * 2)
                     (scene c)))
        as (_ & m & Hm & Hx & Hy); [by apply setRotation_inv|].
      by exists m.
    + intros Hi. rewrite Hi in Hi1. rewrite Hi1 in Hi2. rewrite Hi2 in Hi3.
      destruct (retuned_after _ _ _ Hi R1) as (c1 & ->).
      destruct (retuned_after _ _ _ Hi1 R2) as (c2 & ->).
      destruct (retuned_after _ _ _ Hi2 R3) as (c3 & ->).
      destruct (retuned_after _ _ _ Hi3 R4) as (c4 & ->).
      done.
  - eexists. split; [reflexivity|]. simpl.
    split; [done|]. split; [done|]. split; [done|]. split; [done|].
    intros _. split; [done|]. split; [done|]. split; [done|].
    destruct (Audio.initialized (audio c)) eqn:Hi.
    + destruct (retuned_after _ _ _ Hi R1) as (c1 & ->).
      destruct (retuned_after _ _ _ Hi1 R2) as (c2 & ->). done.
    + rewrite (retuned_before _ _ _ Hi R1) in *.
      by rewrite (retuned_before _ _ _ Hi R2).
Qed.

(** X14. A pointer move during a drag over a canvas that has a width and a
    height, on every reachable page with the engine initialized: with
    (dx, dy) the way from the start of the drag, in canvas widths and
    heights, the shape is put at (4 dx, -4 dy), delayTime becomes half of
    |dx| but at most 0.5, and reverbMix |dy| but at most 1, so both depend on
    the distance only, not on the direction. A pointer move outside a drag
    leaves the shape, delayTime and reverbMix alone. *)
Theorem drag_maps_distance_to_effects p e rect :
  Main.reachable p ->
  Audio.initialized (audio (controller p)) = true ->
  width rect <> 0 -> height rect <> 0 ->
  let c := controller p in
  let dx := (clientX e - dragStartX c) / width rect in
  let dy := (clientY e - dragStartY c) / height rect in
  exists p',
    Main.handle (Main.mousemove e rect) p = Normal p' /\
    let c' := controller p' in
    isDragging c' = isDragging c /\
    (isDragging c = true ->
     (exists m, Scene3D.mesh (scene c') = Some m /\
                Scene3D.positionX m = 4 * dx /\ Scene3D.positionY m = - (4 * dy)) /\
     shapeOffsetX c' = 4 * dx /\ shapeOffsetY c' = - (4 * dy) /\
     Audio.delayTime (audio c') = Rmin 0.5 (Rabs dx * 0.5) /\
     Audio.reverbMix (audio c') = Rmin 1 (Rabs dy) /\
     (1 <= Rabs dx -> Audio.delayTime (audio c') = 0.5) /\
     (1 <= Rabs dy -> Audio.reverbMix (audio c') = 1)) /\
    (isDragging c = false ->
     Scene3D.mesh (scene c') = Scene3D.mesh (scene c) /\
     Audio.delayTime (audio c') = Audio.delayTime (audio c) /\
     Audio.reverbMix (audio c') = Audio.reverbMix (audio c)).
Proof.
  intros Hp Hi _ _ c dx dy.
  destruct (reachable_inv p Hp) as (Hc & _).
  destruct (onMouseMove_drag e rect _ Hc)
    as (c' & Hres & Hflag & _ & _ & Hdrag & Hidle).
  fold c dx dy in Hdrag, Hidle, Hflag.
  exists {| window := window p; status := status p;
            suspended := suspended p; controller := c' |}.
  split; [simpl; unfold lift; by rewrite Hres|]. simpl.
  split; [done|]. split.
  - intros Hd. destruct (Hdrag Hd) as (Hox & Hoy & (m & Hm & Hx & Hy) & Hval).
    destruct (Hval Hi) as (Hdt & Hrm).
    pose proof (Rabs_pos dx) as Hax. pose proof (Rabs_pos dy) as Hay.
    assert (Hdt' : Audio.delayTime (audio c') = Rmin 0.5 (Rabs dx * 0.5)).
    { rewrite Hdt. unfold clamp, Rmax, Rmin. repeat destruct Rle_dec; lra. }
    assert (Hrm' : Audio.reverbMix (audio c') = Rmin 1 (Rabs dy)).
    { rewrite Hrm. unfold clamp, Rmax, Rmin. repeat destruct Rle_dec; lra. }
    split; [exists m; repeat split; [done|lra|lra]|].
    split; [lra|]. split; [lra|]. split; [done|]. split; [done|]. split.
    + intros H1. rewrite Hdt'. unfold Rmin. destruct Rle_dec; lra.
    + intros H1. rewrite Hrm'. unfold Rmin. destruct Rle_dec; lra.
  - intros Hd. destruct (Hidle Hd) as (_ & _ & Hm & Hdt & Hrm). done.
Qed.

(** The drag on the playing page, started at (300, 200), goes on to
    (1300, 50): one and a quarter widths to the right and a quarter of the
    height up. The shape is put at (5, 1), delayTime stops at 0.5 and
    reverbMix is 0.25. *)
Lemma drag_maps_distance_to_effects_witness :
  exists p',
    Main.handle (Main.mousemove {| clientX := 1300; clientY := 50 |} canvasRect)
      dragging = Normal p' /\
    isDragging (controller p') = true /\
    (exists m, Scene3D.mesh (scene (controller p')) = Some m /\
               Scene3D.positionX m = 5 /\ Scene3D.positionY m = 1) /\
    Audio.delayTime (audio (controller p')) = 0.5 /\
    Audio.reverbMix (audio (controller p')) = 0.25.
Proof.
  destruct dragging_pointer as (Hsx & Hsy & Hi & _).
  destruct (drag_maps_distance_to_effects dragging
              {| clientX := 1300; clientY := 50 |} canvasRect
              reachable_dragging Hi)
    as (p' & Hres & Hflag & Hdrag & _).
  { simpl. lra. }
  { simpl. lra. }
  cbv zeta in Hflag, Hdrag.
  rewrite (proj1 dragging_effects) in Hflag, Hdrag.
  destruct (Hdrag eq_refl)
    as ((m & Hm & Hx & Hy) & _ & _ & _ & Hrm & Hdt & _).
  rewrite Hsx in Hx, Hdt. rewrite Hsy in Hy, Hrm.
  cbn [clientX clientY width height canvasRect] in Hx, Hy, Hrm, Hdt.
  exists p'. split; [exact Hres|]. split; [exact Hflag|]. split.
  { exists m. split; [exact Hm|]. split; [rewrite Hx|rewrite Hy]; lra. }
  split.
  - apply Hdt. rewrite Rabs_pos_eq; lra.
  - rewrite Hrm. rewrite Rabs_left by lra.
    unfold Rmin. destruct Rle_dec; lra.
Defined.



(** ** The impulse response of the reverb *)

Lemma lookup_map_seq {A} (f : nat -> A) n i :
  (i < n)%nat -> List.map f (seq 0 n) !! i = Some (f i).
Proof.
  intros Hi. change (List.map f (seq 0 n)) with (f <$> seq 0 n).
  by rewrite list_lookup_fmap, lookup_seq_lt.
Qed.

Lemma impulse_sample_bound r i len :
  0 <= r < 1 -> (i < len)%nat ->
  let envelope := (1 - INR i / INR len) ^ 2 in
  0 < envelope <= 1 /\
  Rabs ((r * 2 - 1) * envelope) <= envelope.
Proof.
  intros Hr Hi envelope.
  assert (Hlen : 0 < INR len) by (apply lt_0_INR; lia).
  assert (Hq : 0 <= INR i / INR len < 1).
  { split.
    - apply Rmult_le_pos; [apply pos_INR|]. left. by apply Rinv_0_lt_compat.
    - apply (Rmult_lt_reg_r (INR len)); [done|].
      unfold Rdiv. rewrite Rmult_assoc, Rinv_l by lra.
      rewrite Rmult_1_r, Rmult_1_l. by apply lt_INR. }
  assert (He : 0 < envelope <= 1) by (unfold envelope; nra).
  split; [done|].
  rewrite Rabs_mult, (Rabs_pos_eq envelope) by lra.
  assert (Rabs (r * 2 - 1) <= 1) by (apply Rabs_le; lra).
  nra.
Qed.

(** X16. [generateReverbImpulse], for a random source that yields numbers in
    [0, 1) as [Math.random] does: the buffer has the sample rate of the
    context and two channels of twice as many samples; sample i of a channel
    is one draw, scaled to [-1, 1), times the envelope (1 - i / length)^2,
    so its magnitude is at most the envelope, which is at most 1; channel 0
    takes the first [length] draws and channel 1 the next, and the window
    has made exactly these 2 * length draws more. *)
Theorem reverb_impulse_decays ctx w :
  (forall k, 0 <= random w k < 1) ->
  let len := (sampleRate ctx * 2)%nat in
  let w' := (Audio.generateReverbImpulse ctx w).1 in
  let buffer := (Audio.generateReverbImpulse ctx w).2 in
  bufferSampleRate buffer = sampleRate ctx /\
  randomsDrawn w' = (randomsDrawn w + 2 * len)%nat /\
  contextsConstructed w' = contextsConstructed w /\
  exists left right,
    channels buffer = [left; right] /\
    length left = len /\ length right = len /\
    forall i, (i < len)%nat ->
      let envelope := (1 - INR i / INR len) ^ 2 in
      exists l r,
        left !! i = Some l /\ right !! i = Some r /\
        l = (random w (randomsDrawn w + i) * 2 - 1) * envelope /\
        r = (random w (randomsDrawn w + len + i) * 2 - 1) * envelope /\
        0 < envelope <= 1 /\
        Rabs l <= envelope /\ Rabs r <= envelope.
Proof.
  intros Hrnd len w' buffer. unfold w', buffer, Audio.generateReverbImpulse.
  cbn [fst snd bufferSampleRate channels randomsDrawn contextsConstructed drawn].
  fold len.
  split; [done|]. split; [done|]. split; [done|].
  do 2 eexists. split; [reflexivity|].
  rewrite !length_map, !length_seq. split; [done|]. split; [done|].
  intros i Hi. set (envelope := (1 - INR i / INR len) ^ 2).
  exists ((random w (randomsDrawn w + i) * 2 - 1) * envelope),
    ((random w (randomsDrawn w + len + i) * 2 - 1) * envelope).
  split; [|split].
  - rewrite lookup_map_seq by done.
    by replace (randomsDrawn w + 0 * len + i)%nat
      with (randomsDrawn w + i)%nat by lia.
  - rewrite lookup_map_seq by done.
    by replace (randomsDrawn w + 1 * len + i)%nat
      with (randomsDrawn w + len + i)%nat by lia.
  - split; [done|]. split; [done|].
    destruct (impulse_sample_bound (random w (randomsDrawn w + i)) i len
                (Hrnd _) Hi) as (He & Hl).
    destruct (impulse_sample_bound (random w (randomsDrawn w + len + i)) i len
                (Hrnd _) Hi) as (_ & Hr).
    split; [exact He|]. split; [exact Hl|exact Hr].
Qed.

Lemma reverb_impulse_decays_witness :
  bufferSampleRate
    (Audio.generateReverbImpulse (newAudioContext (window loaded)).2
       (window loaded)).2
  = sampleRate (newAudioContext (window loaded)).2.
Proof.
  refine (proj1 (reverb_impulse_decays (newAudioContext (window loaded)).2
                   (window loaded) _)).
  intros k. change (random (window loaded) k) with 0.5. lra.
Defined.

(** ** What a frame draws *)

Lemma remainder1_small x : 0 <= x < 1 -> Rendering.remainder1 x = x.
Proof.
  intros Hx. unfold Rendering.remainder1.
  destruct (Rle_dec 0 x) as [_|Hn]; [|lra].
  unfold frac_part. rewrite <- (Int_part_spec x 0); simpl; lra.
Qed.

Lemma update_with_mesh deltaTime now s g :
  is_Some (Scene3D.mesh s) ->
  let m := Rendering.meshState g in
  let level := Scene3D.audioLevel s in
  let targetScale := Scene3D.currentScale s * (1 + level * 0.3) in
  Rendering.update deltaTime now s g =
  {| Rendering.meshState :=
       {| Rendering.rotationX :=
            Rendering.rotationX m
            + (Scene3D.targetRotationX s - Rendering.rotationX m) * 0.1;
          Rendering.rotationY :=
            Rendering.rotationY m
            + (Scene3D.targetRotationY s - Rendering.rotationY m) * 0.1;
          Rendering.scaleX :=
            Rendering.scaleX m + (targetScale - Rendering.scaleX m) * 0.2;
          Rendering.scaleY :=
            Rendering.scaleY m + (targetScale - Rendering.scaleY m) * 0.2;
          Rendering.scaleZ :=
            Rendering.scaleZ m + (targetScale - Rendering.scaleZ m) * 0.2;
          Rendering.emissive :=
            Rendering.HSL (Rendering.remainder1 (level * 0.3)) 1 0.5;
          Rendering.emissiveIntensity := 0.2 + level * 0.5;
          Rendering.wireframeOpacity := 0.3 + level * 0.4 |};
     Rendering.particles := Rendering.particles g;
     Rendering.particlesRotationX :=
       Rendering.particlesRotationX g + deltaTime * 0.02;
     Rendering.particlesRotationY :=
       Rendering.particlesRotationY g + deltaTime * 0.05;
     Rendering.pointLight1 := 2 + sin (now * 0.001) * 0.5 + level * 2;
     Rendering.pointLight2 := 2 + sin (now * 0.001 + PI) * 0.5 + level * 2;
     Rendering.pointLight3 := 1.5 + cos (now * 0.001) * 0.3 + level * 1.5 |}.
Proof. intros [m0 Hm]. unfold Rendering.update. by rewrite Hm. Qed.

Lemma last_default {A} (l : list A) (x d : A) :
  List.last l x = List.last (x :: l) d.
Proof.
  destruct l as [|y l]; [reflexivity|].
  change (List.last (x :: y :: l) d) with (List.last (y :: l) d).
  revert y. induction l as [|z l IH]; intros y; [reflexivity|].
  change (List.last (z :: l) x = List.last (z :: l) d). apply IH.
Qed.

(** One frame on a well-formed controller: the engine answers a level in
    [0, 1], which is 0 before [init]; the scene gets it and is drawn. *)
Lemma animate_runs time now spectrum app :
  ctl_inv (Rendering.interaction app) ->
  exists level c',
    Rendering.animate time now spectrum app
    = Normal {| Rendering.lastTime := time; Rendering.interaction := c';
                Rendering.stage :=
                  Rendering.update ((time - Rendering.lastTime app) / 1000)
                    now (scene c') (Rendering.stage app) |} /\
    ctl_inv c' /\
    0 <= level <= 1 /\
    scene c' = Scene3D.setAudioLevel level (scene (Rendering.interaction app)) /\
    Audio.initialized (audio c')
    = Audio.initialized (audio (Rendering.interaction app)) /\
    (Audio.initialized (audio (Rendering.interaction app)) = false ->
     level = 0).
Proof.
  intros (Ha & Hs & Hm).
  destruct (getAudioLevel_inv spectrum _ Ha) as (level & a' & Hres & Hl & Ha' & Hi).
  exists level,
    (set_scene (Scene3D.setAudioLevel level (scene (Rendering.interaction app)))
       (set_audio a' (Rendering.interaction app))).
  split.
  { unfold Rendering.animate, Main.animate. by rewrite Hres. }
  split.
  { split; [exact Ha'|]. split; [exact Hs|exact Hm]. }
  split; [exact Hl|]. split; [reflexivity|]. split; [exact Hi|].
  intros Hf. rewrite (getAudioLevel_before _ _ Hf) in Hres. by injection Hres.
Qed.

(** A run of frames on a well-formed controller. *)
Lemma frames_run fs : forall app,
  ctl_inv (Rendering.interaction app) ->
  exists app',
    Rendering.frames fs app = Normal app' /\
    ctl_inv (Rendering.interaction app') /\
    let s := scene (Rendering.interaction app) in
    let s' := scene (Rendering.interaction app') in
    let m := Rendering.meshState (Rendering.stage app) in
    let m' := Rendering.meshState (Rendering.stage app') in
    let n := length fs in
    (Scene3D.targetRotationX s' = Scene3D.targetRotationX s /\
     Scene3D.targetRotationY s' = Scene3D.targetRotationY s /\
     Scene3D.currentScale s' = Scene3D.currentScale s /\
     Scene3D.mesh s' = Scene3D.mesh s /\
     Audio.initialized (audio (Rendering.interaction app'))
     = Audio.initialized (audio (Rendering.interaction app))) /\
    Rendering.lastTime app'
    = List.last (List.map (fun f => f.1.1) fs) (Rendering.lastTime app) /\
    (Rendering.rotationX m' - Scene3D.targetRotationX s
     = 0.9 ^ n * (Rendering.rotationX m - Scene3D.targetRotationX s) /\
     Rendering.rotationY m' - Scene3D.targetRotationY s
     = 0.9 ^ n * (Rendering.rotationY m - Scene3D.targetRotationY s)) /\
    (Rendering.scaleY m = Rendering.scaleX m ->
     Rendering.scaleZ m = Rendering.scaleX m ->
     Rendering.scaleY m' = Rendering.scaleX m' /\
     Rendering.scaleZ m' = Rendering.scaleX m') /\
    (0.5 <= Rendering.scaleX m <= 3.9 -> 0.5 <= Rendering.scaleX m' <= 3.9) /\
    (Audio.initialized (audio (Rendering.interaction app)) = false ->
     Rendering.scaleX m' - Scene3D.currentScale s
     = 0.8 ^ n * (Rendering.scaleX m - Scene3D.currentScale s)) /\
    (Rendering.particles (Rendering.stage app')
     = Rendering.particles (Rendering.stage app) /\
     Rendering.particlesRotationX (Rendering.stage app')
     = Rendering.particlesRotationX (Rendering.stage app)
       + (Rendering.lastTime app' - Rendering.lastTime app) / 1000 * 0.02 /\
     Rendering.particlesRotationY (Rendering.stage app')
     = Rendering.particlesRotationY (Rendering.stage app)
       + (Rendering.lastTime app' - Rendering.lastTime app) / 1000 * 0.05).
Proof.
  induction fs as [|[[time now] spectrum] fs IH]; intros app Hc.
  - exists app. split; [reflexivity|]. split; [exact Hc|].
    cbn [length pow List.map List.last].
    split; [by repeat split|]. split; [reflexivity|].
    split; [split; lra|]. split; [by intros -> ->|]. split; [done|].
    split; [intros _; lra|]. split; [reflexivity|]. split; lra.
  - destruct (animate_runs time now spectrum app Hc)
      as (level & c1 & Hres & Hc1 & Hl & Hs1 & Hi1 & Hsilent).
    set (app1 := {| Rendering.lastTime := time; Rendering.interaction := c1;
                    Rendering.stage :=
                      Rendering.update ((time - Rendering.lastTime app) / 1000)
                        now (scene c1) (Rendering.stage app) |}) in Hres.
    destruct (IH app1 Hc1)
      as (app' & Hrun & Hc' & Hsame & Hlast & Hrot & Huni & Hbound & Hsc & Hpart).
    exists app'. split.
    { change (Rendering.frames ((time, now, spectrum) :: fs) app)
        with (Rendering.animate time now spectrum app
                ≫= Rendering.frames fs).
      rewrite Hres. exact Hrun. }
    split; [exact Hc'|].
    destruct Hc as (_ & Hscale & Hmesh). unfold scale_in_range in Hscale.
    assert (Hmesh1 : is_Some (Scene3D.mesh (scene c1))) by (by rewrite Hs1).
    pose proof (update_with_mesh ((time - Rendering.lastTime app) / 1000) now
                  (scene c1) (Rendering.stage app) Hmesh1) as Hupd.
    cbv zeta in Hupd.
    change (Rendering.interaction app1) with c1 in *.
    change (Rendering.lastTime app1) with time in *.
    change (Rendering.stage app1)
      with (Rendering.update ((time - Rendering.lastTime app) / 1000)
              now (scene c1) (Rendering.stage app)) in *.
    rewrite Hupd in Hrot, Huni, Hbound, Hsc, Hpart.
    cbn [Rendering.meshState Rendering.rotationX Rendering.rotationY
         Rendering.scaleX Rendering.scaleY Rendering.scaleZ
         Rendering.particles Rendering.particlesRotationX
         Rendering.particlesRotationY] in Hrot, Huni, Hbound, Hsc, Hpart.
    rewrite Hs1 in Hsame, Hrot, Huni, Hbound, Hsc.
    cbn [Scene3D.setAudioLevel Scene3D.targetRotationX Scene3D.targetRotationY
         Scene3D.currentScale Scene3D.mesh Scene3D.audioLevel]
      in Hsame, Hrot, Huni, Hbound, Hsc.
    destruct Hsame as (Htx & Hty & Hcs & Hme & Hin).
    cbv zeta. cbn [length].
    split.
    { split; [exact Htx|]. split; [exact Hty|]. split; [exact Hcs|].
      split; [exact Hme|]. by rewrite Hin. }
    split.
    { rewrite Hlast. cbn [List.map fst]. apply last_default. }
    split.
    { destruct Hrot as (Hx & Hy). rewrite Hx, Hy.
      change (0.9 ^ S (length fs)) with (0.9 * 0.9 ^ length fs).
      generalize (0.9 ^ length fs). intros k.
      replace 0.9 with (9 / 10) by lra. replace 0.1 with (1 / 10) by lra.
      split; field. }
    split.
    { intros Hy Hz. apply Huni; rewrite ?Hy, ?Hz; reflexivity. }
    split.
    { intros Hb. apply Hbound. nra. }
    split.
    { intros Hf. rewrite Hi1 in Hsc. rewrite (Hsc Hf), (Hsilent Hf).
      change (0.8 ^ S (length fs)) with (0.8 * 0.8 ^ length fs).
      generalize (0.8 ^ length fs). intros k.
      replace 0.8 with (8 / 10) by lra. replace 0.2 with (2 / 10) by lra.
      replace 0.3 with (3 / 10) by lra. field. }
    destruct Hpart as (Hps & Hpx & Hpy).
    split; [exact Hps|]. rewrite Hpx, Hpy. split; lra.
Qed.

Lemma opened_interaction p : Rendering.interaction (opened p) = controller p.
Proof. reflexivity. Qed.

Lemma opened_mesh p :
  Rendering.meshState (Rendering.stage (opened p)) = Rendering.newMesh.
Proof. reflexivity. Qed.

Lemma pow_unit x n : 0 <= x <= 1 -> 0 <= x ^ n <= 1.
Proof.
  intros Hx. induction n as [|n IH]; simpl; [lra|nra].
Qed.

Lemma eased_distance k d d' : 0 <= k <= 1 -> d' = k * d -> Rabs d' <= Rabs d.
Proof.
  intros Hk ->. rewrite Rabs_mult, (Rabs_pos_eq k) by lra.
  pose proof (Rabs_pos d). nra.
Qed.



(** X18. The scale of the mesh under a run of frames, on every reachable
    page: the frames do not change the scale the wheel stored; a mesh that
    is scaled alike along its three axes, as a new one is, stays so; a scale
    in [0.5, 3.9] stays there (3.9 is the largest zoom, 3, at full level,
    1.3); and while the engine is not initialized, so that the level is 0,
    every frame leaves four fifths of the distance to the stored scale:
    after n frames it is 0.8^n times what it was. *)
Theorem scale_eases_within_bounds p app fs :
  Main.reachable p ->
  Rendering.interaction app = controller p ->
  exists app',
    Rendering.frames fs app = Normal app' /\
    let s := scene (controller p) in
    let s' := scene (Rendering.interaction app') in
    let m := Rendering.meshState (Rendering.stage app) in
    let m' := Rendering.meshState (Rendering.stage app') in
    Scene3D.currentScale s' = Scene3D.currentScale s /\
    (Rendering.scaleY m = Rendering.scaleX m ->
     Rendering.scaleZ m = Rendering.scaleX m ->
     Rendering.scaleY m' = Rendering.scaleX m' /\
     Rendering.scaleZ m' = Rendering.scaleX m') /\
    (0.5 <= Rendering.scaleX m <= 3.9 ->
     0.5 <= Rendering.scaleX m' <= 3.9) /\
    (Audio.initialized (audio (controller p)) = false ->
     Rendering.scaleX m' - Scene3D.currentScale s
     = 0.8 ^ length fs * (Rendering.scaleX m - Scene3D.currentScale s) /\
     Rabs (Rendering.scaleX m' - Scene3D.currentScale s)
     <= Rabs (Rendering.scaleX m - Scene3D.currentScale s)).
Proof.
  intros Hp Happ.
  destruct (reachable_inv p Hp) as (Hc & _). rewrite <- Happ in Hc.
  destruct (frames_run fs app Hc)
    as (app' & Hrun & _ & (_ & _ & Hcs & _) & _ & _ & Huni & Hb & Hsc & _).
  exists app'. split; [exact Hrun|]. cbv zeta. rewrite <- Happ.
  split; [exact Hcs|]. split; [exact Huni|]. split; [exact Hb|].
  intros Hf. split; [exact (Hsc Hf)|].
  assert (Hk : 0 <= 0.8 ^ length fs <= 1) by (apply pow_unit; lra).
  eapply eased_distance; eauto.
Qed.

Lemma scale_eases_within_bounds_witness :
  exists app',
    Rendering.frames [(16, 1000, []); (33, 1017, [])]
      (opened loaded)
    = Normal app' /\
    0.5 <= Rendering.scaleX (Rendering.meshState (Rendering.stage app')) <= 3.9.
Proof.
  destruct (scale_eases_within_bounds loaded
              (opened loaded)
              [(16, 1000, []); (33, 1017, [])] reachable_loaded
              (opened_interaction loaded))
    as (app' & Hrun & _ & _ & Hb & _).
  exists app'. split; [exact Hrun|].
  apply Hb. rewrite opened_mesh. cbn [Rendering.scaleX Rendering.newMesh]. lra.
Defined.

(** X19. The particle cloud turns with the clock and not with the frame
    rate: after a run of frames its rotation about y has grown by 0.05
    radians, and about x by 0.02, per second between the time stamp of the
    last frame before the run and that of the last frame of the run, however
    many frames there were in between; [lastTime] is that last time stamp,
    and the particles themselves are never touched. *)
Theorem particles_turn_with_the_clock p app fs :
  Main.reachable p ->
  Rendering.interaction app = controller p ->
  exists app',
    Rendering.frames fs app = Normal app' /\
    let g := Rendering.stage app in
    let g' := Rendering.stage app' in
    let seconds := (Rendering.lastTime app' - Rendering.lastTime app) / 1000 in
    Rendering.lastTime app'
    = List.last (List.map (fun f => f.1.1) fs) (Rendering.lastTime app) /\
    Rendering.particlesRotationY g'
    = Rendering.particlesRotationY g + seconds * 0.05 /\
    Rendering.particlesRotationX g'
    = Rendering.particlesRotationX g + seconds * 0.02 /\
    Rendering.particles g' = Rendering.particles g.
Proof.
  intros Hp Happ.
  destruct (reachable_inv p Hp) as (Hc & _). rewrite <- Happ in Hc.
  destruct (frames_run fs app Hc)
    as (app' & Hrun & _ & _ & Hlast & _ & _ & _ & _ & Hps & Hpx & Hpy).
  exists app'. split; [exact Hrun|]. cbv zeta.
  split; [exact Hlast|]. split; [exact Hpy|]. split; [exact Hpx|exact Hps].
Qed.

Lemma particles_turn_with_the_clock_witness :
  exists app',
    Rendering.frames [(16, 1000, []); (33, 1017, [])]
      (opened playing)
    = Normal app' /\
    Rendering.lastTime app' = 33.
Proof.
  destruct (particles_turn_with_the_clock playing
              (opened playing)
              [(16, 1000, []); (33, 1017, [])] reachable_playing
              (opened_interaction playing))
    as (app' & Hrun & Hlast & _).
  exists app'. split; [exact Hrun|exact Hlast].
Defined.

(** X20. What one frame shows, on every reachable page and whatever was
    drawn before: [animate] returns; the level it hands to the scene is in
    [0, 1], so the hue is 0.3 times the level without wrapping around, the
    emissive intensity is in [0.2, 0.7] and the opacity of the wireframe in
    [0.3, 0.7]; the first two lights pulse in antiphase, their intensities
    adding up to 4 + 4 * level at every time, each within [1.5, 4.5], the
    third within [1.2, 3.3]; and the scale moves a fifth of the way towards
    the stored scale times 1 + 0.3 * level, which lies in [0.5, 3.9]. *)
Theorem frame_display_in_bounds p app time now spectrum :
  Main.reachable p ->
  Rendering.interaction app = controller p ->
  exists app',
    Rendering.animate time now spectrum app = Normal app' /\
    let level := Scene3D.audioLevel (scene (Rendering.interaction app')) in
    let target := Scene3D.currentScale (scene (controller p))
                  * (1 + level * 0.3) in
    let m := Rendering.meshState (Rendering.stage app) in
    let g' := Rendering.stage app' in
    let m' := Rendering.meshState g' in
    0 <= level <= 1 /\
    Rendering.emissive m' = Rendering.HSL (level * 0.3) 1 0.5 /\
    Rendering.emissiveIntensity m' = 0.2 + level * 0.5 /\
    0.2 <= Rendering.emissiveIntensity m' <= 0.7 /\
    0.3 <= Rendering.wireframeOpacity m' <= 0.7 /\
    Rendering.pointLight1 g' + Rendering.pointLight2 g' = 4 + 4 * level /\
    1.5 <= Rendering.pointLight1 g' <= 4.5 /\
    1.5 <= Rendering.pointLight2 g' <= 4.5 /\
    1.2 <= Rendering.pointLight3 g' <= 3.3 /\
    Rendering.scaleX m'
    = Rendering.scaleX m + (target - Rendering.scaleX m) * 0.2 /\
    0.5 <= target <= 3.9.
Proof.
  intros Hp Happ.
  destruct (reachable_inv p Hp) as (Hc & _). rewrite <- Happ in Hc.
  destruct (animate_runs time now spectrum app Hc)
    as (level & c' & Hres & Hc' & Hl & Hs & _).
  eexists. split; [exact Hres|].
  destruct Hc as (_ & Hscale & Hmesh). unfold scale_in_range in Hscale.
  assert (Hmesh' : is_Some (Scene3D.mesh (scene c'))) by (by rewrite Hs).
  cbv zeta. cbn [Rendering.stage Rendering.interaction].
  rewrite (update_with_mesh _ now (scene c') (Rendering.stage app) Hmesh').
  cbn [Rendering.meshState Rendering.emissive Rendering.emissiveIntensity
       Rendering.wireframeOpacity Rendering.pointLight1 Rendering.pointLight2
       Rendering.pointLight3 Rendering.scaleX].
  rewrite Hs. cbn [Scene3D.setAudioLevel Scene3D.audioLevel
                   Scene3D.currentScale].
  rewrite <- Happ.
  pose proof (SIN_bound (now * 0.001)) as Hsin.
  pose proof (COS_bound (now * 0.001)) as Hcos.
  rewrite neg_sin.
  split; [exact Hl|].
  split; [by rewrite remainder1_small by lra|].
  split; [reflexivity|]. split; [lra|]. split; [lra|]. split; [lra|].
  split; [lra|]. split; [lra|]. split; [lra|]. split; [reflexivity|]. nra.
Qed.

Lemma frame_display_in_bounds_witness :
  exists app',
    Rendering.animate 16 1000 (replicate 128 xff)
      (opened playing)
    = Normal app' /\
    0.2 <= Rendering.emissiveIntensity
             (Rendering.meshState (Rendering.stage app')) <= 0.7.
Proof.
  destruct (frame_display_in_bounds playing
              (opened playing)
              16 1000 (replicate 128 xff) reachable_playing
              (opened_interaction playing))
    as (app' & Hrun & _ & _ & _ & Hint & _).
  exists app'. split; [exact Hrun|exact Hint].
Defined.

(** ** The particle cloud *)

Lemma on_sphere radius phi theta :
  (radius * sin phi * cos theta) ^ 2 + (radius * sin phi * sin theta) ^ 2
  + (radius * cos phi) ^ 2 = radius ^ 2.
Proof.
  pose proof (sin2_cos2 phi) as Hphi. pose proof (sin2_cos2 theta) as Htheta.
  unfold Rsqr in Hphi, Htheta.
  replace ((radius * sin phi * cos theta) ^ 2
           + (radius * sin phi * sin theta) ^ 2 + (radius * cos phi) ^ 2)
    with (radius ^ 2
          * (sin phi * sin phi * (sin theta * sin theta + cos theta * cos theta)
             + cos phi * cos phi)) by ring.
  rewrite Htheta, Rmult_1_r, Hphi. ring.
Qed.

(** X21. The cloud that [new Scene3D] creates, for a random source that
    yields numbers in [0, 1) as [Math.random] does: 1500 particles, each made
    from the next 4 draws. Particle i lies on the sphere about the origin
    whose radius is 15 plus 20 times its third draw, hence in the shell
    between the radii 15 and 35, the first included and the second not; its
    colour is the purple (0.7, 0.3, 0.95) if its fourth draw is below 0.33,
    the cyan (0, 0.83, 1) if it is from 0.33 to below 0.66, and the pink
    (1, 0, 0.43) otherwise. The mesh starts out as the new, unrotated mesh
    of scale 1. *)
Theorem particles_fill_a_shell random first :
  (forall k, 0 <= random k < 1) ->
  let g := Rendering.constructor random first in
  Rendering.meshState g = Rendering.newMesh /\
  length (Rendering.particles g) = 1500%nat /\
  forall i, (i < 1500)%nat ->
    exists q,
      Rendering.particles g !! i = Some q /\
      let draw := (first + 4 * i)%nat in
      let radius := 15 + random (draw + 2)%nat * 20 in
      let colorChoice := random (draw + 3)%nat in
      let '(x, y, z) := Rendering.position q in
      x ^ 2 + y ^ 2 + z ^ 2 = radius ^ 2 /\
      15 <= radius < 35 /\
      15 ^ 2 <= x ^ 2 + y ^ 2 + z ^ 2 < 35 ^ 2 /\
      (colorChoice < 0.33 -> Rendering.color q = (0.7, 0.3, 0.95)) /\
      (0.33 <= colorChoice < 0.66 -> Rendering.color q = (0, 0.83, 1)) /\
      (0.66 <= colorChoice -> Rendering.color q = (1, 0, 0.43)).
Proof.
  intros Hrnd.
  unfold Rendering.constructor, Rendering.createParticles.
  cbn [Rendering.meshState Rendering.particles].
  split; [reflexivity|].
  split; [by rewrite length_map, length_seq|].
  intros i Hi. eexists. split; [by apply lookup_map_seq|].
  cbn [Rendering.particle Rendering.position Rendering.color].
  set (radius := 15 + random (first + 4 * i + 2)%nat * 20).
  set (colorChoice := random (first + 4 * i + 3)%nat).
  rewrite on_sphere.
  assert (Hr : 15 <= radius < 35).
  { pose proof (Hrnd (first + 4 * i + 2)%nat). unfold radius. lra. }
  split; [reflexivity|]. split; [exact Hr|]. split; [nra|].
  split; [|split].
  - intros Hlt. destruct (Rlt_dec colorChoice 0.33); [reflexivity|lra].
  - intros Hlt. destruct (Rlt_dec colorChoice 0.33); [lra|].
    destruct (Rlt_dec colorChoice 0.66); [reflexivity|lra].
  - intros Hlt. destruct (Rlt_dec colorChoice 0.33); [lra|].
    destruct (Rlt_dec colorChoice 0.66); [lra|reflexivity].
Qed.

(** Draws that are all 0.5, the cloud starting at the 61st: particle 7 is at
    distance 25 from the origin and cyan. *)
Lemma particles_fill_a_shell_witness :
  exists q,
    Rendering.particles (Rendering.constructor (fun _ => 0.5) 60) !! 7%nat
    = Some q /\
    (let '(x, y, z) := Rendering.position q in
     x ^ 2 + y ^ 2 + z ^ 2 = 25 ^ 2) /\
    Rendering.color q = (0, 0.83, 1).
Proof.
  destruct (particles_fill_a_shell (fun _ => 0.5) 60) as (_ & _ & Hcloud).
  { intros k. lra. }
  destruct (Hcloud 7%nat) as (q & Hq & Hshell); [lia|].
  exists q. split; [exact Hq|].
  cbv zeta beta in Hshell.
  destruct (Rendering.position q) as [[x y] z].
  destruct Hshell as (Hsphere & _ & _ & _ & Hcyan & _).
  split; [rewrite Hsphere; lra|]. apply Hcyan. lra.
Defined.
